(** * st-custom-fonts: the font registry and applier of [index.js]

    The extension keeps one settings object (two font lists, the active
    font and three flags), edits it from UI event handlers, and drives the
    page through a handful of DOM calls.  This development embeds the
    handlers of [index.js] as functions over an explicit [World] (settings,
    the module variable [fontStyleElement], the document, and the trace of
    calls made to the host), and proves the properties the specification
    states about them.

    Conventions of the embedding:
    - a JavaScript string is the list of its UTF-16 code units;
    - the settings object is a record once it is loaded, and a JSON value
      while it is merged with the persisted one at startup;
    - DOM elements live in a store and are referred to by node handles, so
      that the element kept in [fontStyleElement] and the elements found by
      [getElementById] can be one and the same node;
    - calls to the host ([toastr], [saveSettingsDebounced], the jQuery
      calls on the settings panel) are recorded, in order, in a trace. *)

From Stdlib Require Import List NArith ZArith Bool Arith Lia String Ascii Permutation Sorted.
Import ListNotations.

Set Implicit Arguments.

(* ================================================================== *)
(** * Part I: the program                                              *)
(* ================================================================== *)

(** ** JavaScript strings *)

Definition code_unit := N.
Definition jsstring := list code_unit.

(** An ASCII literal of the source, as code units. *)
Definition lit (s : string) : jsstring :=
  List.map N_of_ascii (list_ascii_of_string s).

Definition dquote : jsstring := [34%N].
Definition newline : jsstring := [10%N].

(** [a === b] on two strings. *)
Fixpoint strict_eq (a b : jsstring) : bool :=
  match a, b with
  | [], [] => true
  | x :: a', y :: b' => N.eqb x y && strict_eq a' b'
  | _, _ => false
  end.

(** [!s] for a string [s]: only the empty string is falsy. *)
Definition is_empty (s : jsstring) : bool :=
  match s with [] => true | _ :: _ => false end.

(** The class [\s] of regular expressions, which is also what
    [String.prototype.trim] strips: WhiteSpace and LineTerminator of
    ECMAScript (TAB, LF, VT, FF, CR, SP, NBSP, U+1680, U+2000..U+200A,
    U+2028, U+2029, U+202F, U+205F, U+3000, U+FEFF). *)
Definition isWhiteSpace (c : code_unit) : bool :=
  ((9 <=? c) && (c <=? 13) || (c =? 32) || (c =? 160) || (c =? 5760)
   || (8192 <=? c) && (c <=? 8202) || (c =? 8232) || (c =? 8233)
   || (c =? 8239) || (c =? 8287) || (c =? 12288) || (c =? 65279))%N.

Fixpoint trimStart (s : jsstring) : jsstring :=
  match s with
  | c :: s' => if isWhiteSpace c then trimStart s' else s
  | [] => []
  end.

Definition trimEnd (s : jsstring) : jsstring := rev (trimStart (rev s)).

Definition trim (s : jsstring) : jsstring := trimEnd (trimStart s).

(** [s.replace(/\s/g, '-')] *)
Definition replace_whitespace (s : jsstring) : jsstring :=
  List.map (fun c => if isWhiteSpace c then 45%N else c) s.

Fixpoint startsWith (s prefix : jsstring) : bool :=
  match prefix, s with
  | [], _ => true
  | p :: prefix', c :: s' => N.eqb c p && startsWith s' prefix'
  | _ :: _, [] => false
  end.

(** [parts.join(sep)] *)
Fixpoint join (sep : jsstring) (parts : list jsstring) : jsstring :=
  match parts with
  | [] => []
  | [p] => p
  | p :: rest => p ++ sep ++ join sep rest
  end.

Definition spaces (n : nat) : jsstring := repeat 32%N n.

(** ** The settings object *)

Record GoogleFont := mkGoogleFont { google_name : jsstring; link : jsstring }.
Record LocalFont := mkLocalFont { local_name : jsstring; data : jsstring }.

(** Both kinds of entry are read through [f.name]. *)
Class Named (A : Type) := name : A -> jsstring.
#[export] Instance GoogleFont_Named : Named GoogleFont := google_name.
#[export] Instance LocalFont_Named : Named LocalFont := local_name.

Record Fonts := mkFonts { google : list GoogleFont; local : list LocalFont }.

Record Settings := mkSettings {
  fonts : Fonts;
  activeFont : option jsstring;       (* [null] is [None] *)
  autoLoad : bool;
  overrideThemeFont : bool;
  notifications : bool
}.

(** [list.some(f => f.name === n)] *)
Definition some_named {A} `{Named A} (n : jsstring) (l : list A) : bool :=
  existsb (fun f => strict_eq (name f) n) l.

(** [list.find(f => f.name === n)] *)
Definition find_named {A} `{Named A} (n : jsstring) (l : list A) : option A :=
  find (fun f => strict_eq (name f) n) l.

(** [list.filter(f => f.name !== n)] *)
Definition filter_not_named {A} `{Named A} (n : jsstring) (l : list A) : list A :=
  filter (fun f => negb (strict_eq (name f) n)) l.

Definition with_fonts (f : Fonts) (s : Settings) : Settings :=
  mkSettings f (activeFont s) (autoLoad s) (overrideThemeFont s) (notifications s).

Definition with_activeFont (a : option jsstring) (s : Settings) : Settings :=
  mkSettings (fonts s) a (autoLoad s) (overrideThemeFont s) (notifications s).

(** ** Startup: merging the persisted settings over the defaults

    At startup the settings are still an untyped value: whatever the host
    stored under the extension's key, or [undefined].  An object is the
    sequence of property definitions that built it; reading a property
    takes its latest definition. *)

#[warnings="-register-all"] Inductive json :=
| JUndefined
| JNull
| JBool (b : bool)
| JNumber (z : Z)
| JString (s : jsstring)
| JArray (items : list json)
| JObject (props : list (jsstring * json)).

(** Decimal spelling of an array index, as a property key. *)
Definition digit (n : nat) : code_unit := (48 + N.of_nat n)%N.

Fixpoint index_key_fuel (fuel n : nat) (acc : jsstring) : jsstring :=
  match fuel with
  | O => acc
  | S fuel' =>
      let acc' := digit (n mod 10) :: acc in
      if n / 10 =? 0 then acc' else index_key_fuel fuel' (n / 10) acc'
  end.

Definition index_key (n : nat) : jsstring := index_key_fuel (S n) n [].

Fixpoint indexed {A} (i : nat) (l : list A) : list (jsstring * A) :=
  match l with
  | [] => []
  | x :: l' => (index_key i, x) :: indexed (S i) l'
  end.

(** The own enumerable properties an object spread [...v] copies:
    those of an object, the indices of an array or of a string, and
    nothing for [null], [undefined], booleans and numbers. *)
Definition ownProps (v : json) : list (jsstring * json) :=
  match v with
  | JObject props => props
  | JArray items => indexed 0 items
  | JString s => indexed 0 (List.map (fun c => JString [c]) s)
  | _ => []
  end.

Fixpoint lookup (k : jsstring) (props : list (jsstring * json)) : option json :=
  match props with
  | [] => None
  | (k', v) :: rest =>
      match lookup k rest with
      | Some v' => Some v'
      | None => if strict_eq k' k then Some v else None
      end
  end.

(** The own property [k] of [v], if it has one. *)
Definition getOwn (k : jsstring) (v : json) : option json := lookup k (ownProps v).

(** [v.k], which is [undefined] for a missing property. *)
Definition getProp (k : jsstring) (v : json) : json :=
  match getOwn k v with Some x => x | None => JUndefined end.

(** [{ ...a, ...b }] *)
Definition spread (a b : json) : json := JObject (ownProps a ++ ownProps b).

(** [o.k = v] on an object [o]. *)
Definition setProp (k : jsstring) (v : json) (o : json) : json :=
  JObject (ownProps o ++ [(k, v)]).

Definition defaultFonts : json :=
  JObject [ (lit "google", JArray []); (lit "local", JArray []) ].

Definition defaultSettings : json :=
  JObject [ (lit "fonts", defaultFonts);
            (lit "activeFont", JNull);
            (lit "autoLoad", JBool true);
            (lit "overrideThemeFont", JBool false);
            (lit "notifications", JBool true) ].

(** The first two statements of the initialisation function. *)
Definition loadSettings (persisted : json) : json :=
  let settings := spread defaultSettings persisted in
  setProp (lit "fonts")
          (spread (getProp (lit "fonts") defaultSettings)
                  (getProp (lit "fonts") settings))
          settings.

(** The settings record as the object the host serialises. *)
Definition json_of_google (f : GoogleFont) : json :=
  JObject [ (lit "name", JString (google_name f)); (lit "link", JString (link f)) ].

Definition json_of_local (f : LocalFont) : json :=
  JObject [ (lit "name", JString (local_name f)); (lit "data", JString (data f)) ].

Definition json_of_activeFont (a : option jsstring) : json :=
  match a with Some n => JString n | None => JNull end.

Definition json_of_settings (s : Settings) : json :=
  JObject [ (lit "fonts",
             JObject [ (lit "google", JArray (List.map json_of_google (google (fonts s))));
                       (lit "local", JArray (List.map json_of_local (local (fonts s)))) ]);
            (lit "activeFont", json_of_activeFont (activeFont s));
            (lit "autoLoad", JBool (autoLoad s));
            (lit "overrideThemeFont", JBool (overrideThemeFont s));
            (lit "notifications", JBool (notifications s)) ].

(** The typed reading of a settings object: the fields the handlers
    use, with the types they use them at. *)
Definition as_string (v : json) : option jsstring :=
  match v with JString s => Some s | _ => None end.

Definition as_bool (v : json) : option bool :=
  match v with JBool b => Some b | _ => None end.

Definition as_activeFont (v : json) : option (option jsstring) :=
  match v with
  | JString s => Some (Some s)
  | JNull => Some None
  | _ => None
  end.

Definition google_of_json (v : json) : option GoogleFont :=
  match as_string (getProp (lit "name") v), as_string (getProp (lit "link") v) with
  | Some n, Some l => Some (mkGoogleFont n l)
  | _, _ => None
  end.

Definition local_of_json (v : json) : option LocalFont :=
  match as_string (getProp (lit "name") v), as_string (getProp (lit "data") v) with
  | Some n, Some d => Some (mkLocalFont n d)
  | _, _ => None
  end.

Fixpoint traverse {A B} (f : A -> option B) (l : list A) : option (list B) :=
  match l with
  | [] => Some []
  | x :: l' =>
      match f x, traverse f l' with
      | Some y, Some ys => Some (y :: ys)
      | _, _ => None
      end
  end.

Definition as_array {B} (f : json -> option B) (v : json) : option (list B) :=
  match v with JArray items => traverse f items | _ => None end.

Definition settings_of_json (v : json) : option Settings :=
  let f := getProp (lit "fonts") v in
  match as_array google_of_json (getProp (lit "google") f),
        as_array local_of_json (getProp (lit "local") f),
        as_activeFont (getProp (lit "activeFont") v),
        as_bool (getProp (lit "autoLoad") v),
        as_bool (getProp (lit "overrideThemeFont") v),
        as_bool (getProp (lit "notifications") v) with
  | Some g, Some l, Some a, Some al, Some o, Some n =>
      Some (mkSettings (mkFonts g l) a al o n)
  | _, _, _, _, _, _ => None
  end.

(** ** The document

    Elements are kept in a store; a node handle is an index into it.  The
    tree is the sequence of the nodes under [document.head] followed by
    the other nodes of the document, in tree order.  An element that was
    created and not attached, or that was removed, stays in the store.
    Of the root element's inline style only the custom property the
    extension writes is kept. *)

Inductive Tag := LinkTag | StyleTag | OtherTag.

Record Element := mkElement {
  tagName : Tag;
  elem_id : jsstring;
  rel : jsstring;
  href : jsstring;
  innerHTML : jsstring
}.

Definition node := nat.

Record Document := mkDocument {
  nodes : list Element;
  head : list node;
  body : list node;
  custom_font_family : option jsstring   (* [--custom-font-family] *)
}.

Definition with_nodes (ns : list Element) (d : Document) : Document :=
  mkDocument ns (head d) (body d) (custom_font_family d).

Definition with_tree (h b : list node) (d : Document) : Document :=
  mkDocument (nodes d) h b (custom_font_family d).

Definition tree (d : Document) : list node := head d ++ body d.

Definition has_id (d : Document) (i : jsstring) (n : node) : bool :=
  match nth_error (nodes d) n with
  | Some e => strict_eq (elem_id e) i
  | None => false
  end.

(** [document.getElementById(i)]: the first element of the tree, in tree
    order, whose id is [i]. *)
Definition getElementById (i : jsstring) (d : Document) : option node :=
  find (has_id d i) (tree d).

(** [document.createElement(tag)]: a fresh, detached element. *)
Definition createElement (t : Tag) (d : Document) : node * Document :=
  (List.length (nodes d), with_nodes (nodes d ++ [mkElement t [] [] [] []]) d).

Fixpoint update_nth {A} (n : nat) (f : A -> A) (l : list A) : list A :=
  match l, n with
  | [], _ => []
  | x :: l', O => f x :: l'
  | x :: l', S n' => x :: update_nth n' f l'
  end.

Definition update_node (n : node) (f : Element -> Element) (d : Document) : Document :=
  with_nodes (update_nth n f (nodes d)) d.

Definition set_id (n : node) (i : jsstring) : Document -> Document :=
  update_node n (fun e => mkElement (tagName e) i (rel e) (href e) (innerHTML e)).

Definition set_rel (n : node) (r : jsstring) : Document -> Document :=
  update_node n (fun e => mkElement (tagName e) (elem_id e) r (href e) (innerHTML e)).

Definition set_href (n : node) (h : jsstring) : Document -> Document :=
  update_node n (fun e => mkElement (tagName e) (elem_id e) (rel e) h (innerHTML e)).

Definition set_innerHTML (n : node) (t : jsstring) : Document -> Document :=
  update_node n (fun e => mkElement (tagName e) (elem_id e) (rel e) (href e) t).

(** [document.head.appendChild(n)], for a node that is not in the tree. *)
Definition head_appendChild (n : node) (d : Document) : Document :=
  with_tree (head d ++ [n]) (body d) d.

(** [n.remove()] *)
Definition remove_node (n : node) (d : Document) : Document :=
  with_tree (filter (fun m => negb (Nat.eqb m n)) (head d))
            (filter (fun m => negb (Nat.eqb m n)) (body d)) d.

(** [$('#i').remove()]: jQuery resolves an id selector to the one element
    [getElementById] finds, and does nothing when there is none. *)
Definition jquery_remove_by_id (i : jsstring) (d : Document) : Document :=
  match getElementById i d with
  | Some n => remove_node n d
  | None => d
  end.

(** [document.documentElement.style.setProperty('--custom-font-family', v)]
    and [removeProperty('--custom-font-family')]. *)
Definition setProperty (v : jsstring) (d : Document) : Document :=
  mkDocument (nodes d) (head d) (body d) (Some v).

Definition removeProperty (d : Document) : Document :=
  mkDocument (nodes d) (head d) (body d) None.

(** ** Calls to the host *)

Inductive ToastType := success | error.

Inductive Field := google_font_name | google_font_link | local_font_name | local_font_file.

Inductive Event :=
| Toast (type : ToastType) (message : jsstring)    (* [toastr[type](message)] *)
| SaveSettings                                      (* [saveSettingsDebounced()] *)
| RenderFontList                                    (* [renderFontList()] *)
| SetVal (field : Field) (value : jsstring)         (* [$('#field').val(value)] *)
| FilenameDisplay (text color : jsstring).          (* [filenameDisplay.text(..).css('color', ..)] *)

(** ** The state the handlers run in *)

Record World := mkWorld {
  settings : Settings;
  fontStyleElement : option node;    (* the module variable; [null] is [None] *)
  document : Document;
  trace : list Event                 (* oldest call first *)
}.

Definition with_settings (s : Settings) (w : World) : World :=
  mkWorld s (fontStyleElement w) (document w) (trace w).

Definition with_document (d : Document) (w : World) : World :=
  mkWorld (settings w) (fontStyleElement w) d (trace w).

Definition emit (e : Event) (w : World) : World :=
  mkWorld (settings w) (fontStyleElement w) (document w) (trace w ++ [e]).

Definition saveSettingsDebounced : World -> World := emit SaveSettings.

(** [renderFontList] only reads the settings and rebuilds the list and
    the dropdown of the settings panel; it is recorded as one call. *)
Definition renderFontList : World -> World := emit RenderFontList.

Definition notify (message : jsstring) (type : ToastType) (w : World) : World :=
  if notifications (settings w) then emit (Toast type message) w else w.

(** ** Applying a font *)

(** What [applyFont] can be called with: the value of the dropdown or
    [settings.activeFont], either of which may be [null]. *)
Inductive jsvalue := js_null | js_undefined | js_string (s : jsstring).

(** [!v] is false exactly for a non-empty string. *)
Definition truthy (v : jsvalue) : option jsstring :=
  match v with
  | js_string (c :: s) => Some (c :: s)
  | _ => None
  end.

Definition overrideStyleId : jsstring := lit "st-custom-fonts-override-style".

Definition localDefsId : jsstring := lit "st-custom-fonts-local-defs".

Definition selectors : jsstring :=
  lit "body, select, .font-family-reset, .swipes-counter, textarea, #send_textarea, .text_pole, button, .menu_button".

Definition linkId (fontName : jsstring) : jsstring :=
  lit "google-font-" ++ replace_whitespace fontName.

(** The [<link>] block: insert the font's stylesheet unless an element
    with its id is already in the document. *)
Definition ensureLink (font : GoogleFont) (d : Document) : Document :=
  match getElementById (linkId (name font)) d with
  | Some _ => d
  | None =>
      let (linkElement, d1) := createElement LinkTag d in
      let d2 := set_id linkElement (linkId (name font)) d1 in
      let d3 := set_rel linkElement (lit "stylesheet") d2 in
      let d4 := set_href linkElement (link font) d3 in
      head_appendChild linkElement d4
  end.

Definition fontFamilyValue (fontName : jsstring) : jsstring :=
  dquote ++ fontName ++ dquote ++ lit ", 'Noto Color Emoji', sans-serif".

Definition overrideRule : jsstring :=
  selectors ++ lit " { font-family: var(--custom-font-family) !important; }".

Definition applyFont (fontName : jsvalue) (w : World) : World :=
  match truthy fontName with
  | None => w
  | Some fontName =>
      let isGoogleFont := some_named fontName (google (fonts (settings w))) in
      let isLocalFont := some_named fontName (local (fonts (settings w))) in
      if negb isGoogleFont && negb isLocalFont then
        notify (lit "Font " ++ dquote ++ fontName ++ dquote ++ lit " not found.") error w
      else
        let d1 :=
          if isGoogleFont then
            match find_named fontName (google (fonts (settings w))) with
            | Some font => ensureLink font (document w)
            | None => document w   (* not reached: [some] found one *)
            end
          else document w in
        let d2 := setProperty (fontFamilyValue fontName) d1 in
        let overrideStyleElement := getElementById overrideStyleId d2 in
        if negb (overrideThemeFont (settings w)) then
          match overrideStyleElement with
          | Some n => with_document (remove_node n d2) w
          | None => with_document d2 w
          end
        else
          let (n, d3) :=
            match overrideStyleElement with
            | Some n => (n, d2)
            | None =>
                let (n, d) := createElement StyleTag d2 in
                (n, head_appendChild n (set_id n overrideStyleId d))
            end in
          let d4 := set_innerHTML n overrideRule d3 in
          let w1 := with_document d4 w in
          let w2 := with_settings (with_activeFont (Some fontName) (settings w1)) w1 in
          notify (lit "Applied font: " ++ fontName) success (saveSettingsDebounced w2)
  end.

(** ** The embedded [@font-face] rules *)

Definition fontFaceRule (font : LocalFont) : jsstring :=
  newline ++ spaces 8 ++ lit "@font-face {" ++
  newline ++ spaces 12 ++ lit "font-family: " ++ dquote ++ name font ++ dquote ++ lit ";" ++
  newline ++ spaces 12 ++ lit "src: url(" ++ data font ++ lit ");" ++
  newline ++ spaces 8 ++ lit "}" ++
  newline ++ spaces 4.

Definition fontFaceRules (l : list LocalFont) : jsstring :=
  join newline (List.map fontFaceRule l).

Definition injectLocalFontStyles (w : World) : World :=
  let (n, d) :=
    match fontStyleElement w with
    | Some n => (n, document w)
    | None =>
        let (n, d) := createElement StyleTag (document w) in
        (n, head_appendChild n (set_id n localDefsId d))
    end in
  mkWorld (settings w) (Some n)
          (set_innerHTML n (fontFaceRules (local (fonts (settings w)))) d)
          (trace w).

(** ** Adding fonts *)

Definition googleApiPrefix : jsstring := lit "https://fonts.googleapis.com/css".

Definition alreadyExists (name : jsstring) : jsstring :=
  lit "A font named " ++ dquote ++ name ++ dquote ++ lit " already exists.".

Definition push_google (f : GoogleFont) (s : Settings) : Settings :=
  with_fonts (mkFonts (google (fonts s) ++ [f]) (local (fonts s))) s.

Definition push_local (f : LocalFont) (s : Settings) : Settings :=
  with_fonts (mkFonts (google (fonts s)) (local (fonts s) ++ [f])) s.

(** [addGoogleFont], given the contents of the two input fields. *)
Definition addGoogleFont (name_field link_field : jsstring) (w : World) : World :=
  let name := trim name_field in
  let link := trim link_field in
  if is_empty name || is_empty link then
    notify (lit "Both name and link are required for Google Fonts.") error w
  else if some_named name (google (fonts (settings w)))
          || some_named name (local (fonts (settings w))) then
    notify (alreadyExists name) error w
  else if negb (startsWith link googleApiPrefix) then
    notify (lit "Please use a valid Google Fonts API link.") error w
  else
    let w1 := with_settings (push_google (mkGoogleFont name link) (settings w)) w in
    let w2 := saveSettingsDebounced w1 in
    let w3 := notify (lit "Added Google Font: " ++ name) success w2 in
    let w4 := renderFontList w3 in
    emit (SetVal google_font_link []) (emit (SetVal google_font_name []) w4).

(** A chosen file, as what reading it will yield: the data URL handed to
    [onload], or a failure handed to [onerror]. *)
Inductive File := Readable (result : jsstring) | Unreadable.

Definition red : jsstring := lit "#ff5555".

(** [reader.onload], with the [name] its closure captured. *)
Definition reader_onload (name result : jsstring) (w : World) : World :=
  let w1 := with_settings (push_local (mkLocalFont name result) (settings w)) w in
  let w2 := injectLocalFontStyles w1 in
  let w3 := saveSettingsDebounced w2 in
  let w4 := notify (lit "Added local font: " ++ name) success w3 in
  let w5 := renderFontList w4 in
  let w6 := emit (SetVal local_font_name []) w5 in
  let w7 := emit (FilenameDisplay (lit "No file selected.") []) w6 in
  emit (SetVal local_font_file []) w7.

Definition reader_onerror (w : World) : World :=
  emit (FilenameDisplay (lit "File read error.") red)
       (notify (lit "Failed to read font file.") error w).

(** [handleLocalFontFile], given [event.target.files[0]] and the contents
    of the name field.  It returns, besides the new state, the read it
    started: the captured name and the file. *)
Definition handleLocalFontFile (file : option File) (name_field : jsstring) (w : World)
  : World * option (jsstring * File) :=
  let name := trim name_field in
  match file with
  | None => (w, None)
  | Some f =>
      if is_empty name then
        (notify (lit "Please provide a name for the local font first.") error
                (emit (FilenameDisplay (lit "Please enter a name first.") red) w), None)
      else if some_named name (google (fonts (settings w)))
              || some_named name (local (fonts (settings w))) then
        (notify (alreadyExists name) error
                (emit (FilenameDisplay (lit "Name already exists.") red) w), None)
      else (w, Some (name, f))
  end.

(** The completion of a started read. *)
Definition reader_complete (pending : jsstring * File) (w : World) : World :=
  match pending with
  | (name, Readable result) => reader_onload name result w
  | (_, Unreadable) => reader_onerror w
  end.

(** Adding a local font as one operation: the handler, then the
    completion of the read it started with no other handler in between. *)
Definition addLocalFont (file : option File) (name_field : jsstring) (w : World) : World :=
  match handleLocalFontFile file name_field w with
  | (w', Some pending) => reader_complete pending w'
  | (w', None) => w'
  end.

(** ** Removing a font

    [fontName] is a string, as the function documents its parameter. *)

Definition removeFont (fontName : jsstring) (w : World) : World :=
  let wasActive :=
    match activeFont (settings w) with
    | Some a => strict_eq a fontName
    | None => false
    end in
  let initialLength := List.length (local (fonts (settings w))) in
  let local' := filter_not_named fontName (local (fonts (settings w))) in
  let w1 := with_settings (with_fonts (mkFonts (google (fonts (settings w))) local') (settings w)) w in
  let w2 := if List.length local' <? initialLength then injectLocalFontStyles w1 else w1 in
  let google' := filter_not_named fontName (google (fonts (settings w2))) in
  let w3 := with_settings (with_fonts (mkFonts google' (local (fonts (settings w2)))) (settings w2)) w2 in
  let w4 :=
    if wasActive then
      let w' := with_settings (with_activeFont None (settings w3)) w3 in
      with_document (jquery_remove_by_id overrideStyleId (removeProperty (document w'))) w'
    else w3 in
  let w5 := saveSettingsDebounced w4 in
  let w6 := notify (lit "Removed font: " ++ fontName) success w5 in
  renderFontList w6.

(** ** The delete buttons

    The click handler of a row's button calls
    [removeFont($(this).data('font-name'))], and jQuery's [.data] does not
    hand over the text of the attribute [data-font-name] as it is: the
    texts [true], [false] and [null] become the boolean or [null], a text
    that is the decimal form of a number becomes that number, a text in
    braces or brackets that parses as JSON becomes the object or array,
    and only the other texts remain strings.  What [removeFont] receives
    from a click is thus one of the following. *)
Inductive jsdata :=
| data_string (s : jsstring)
| data_null
| data_other (text : jsstring).   (* a boolean, number, object or array, and what [`${...}`] makes of it *)

(** [settings.activeFont === fontName] *)
Definition activeFont_is (fontName : jsdata) (s : Settings) : bool :=
  match activeFont s, fontName with
  | Some a, data_string n => strict_eq a n
  | None, data_null => true
  | _, _ => false
  end.

(** [list.filter(f => f.name !== fontName)]: a name is a string, and no
    string is [===] to a value of another type. *)
Definition filter_not_data {A} `{Named A} (fontName : jsdata) (l : list A) : list A :=
  filter (fun f => match fontName with
                   | data_string n => negb (strict_eq (name f) n)
                   | _ => true
                   end) l.

(** [`${fontName}`] *)
Definition data_text (fontName : jsdata) : jsstring :=
  match fontName with
  | data_string s => s
  | data_null => lit "null"
  | data_other text => text
  end.

(** [removeFont] once more, on whatever a click hands over. *)
Definition removeFont_data (fontName : jsdata) (w : World) : World :=
  let wasActive := activeFont_is fontName (settings w) in
  let initialLength := List.length (local (fonts (settings w))) in
  let local' := filter_not_data fontName (local (fonts (settings w))) in
  let w1 := with_settings (with_fonts (mkFonts (google (fonts (settings w))) local') (settings w)) w in
  let w2 := if List.length local' <? initialLength then injectLocalFontStyles w1 else w1 in
  let google' := filter_not_data fontName (google (fonts (settings w2))) in
  let w3 := with_settings (with_fonts (mkFonts google' (local (fonts (settings w2)))) (settings w2)) w2 in
  let w4 :=
    if wasActive then
      let w' := with_settings (with_activeFont None (settings w3)) w3 in
      with_document (jquery_remove_by_id overrideStyleId (removeProperty (document w'))) w'
    else w3 in
  let w5 := saveSettingsDebounced w4 in
  let w6 := notify (lit "Removed font: " ++ data_text fontName) success w5 in
  renderFontList w6.

(** ** The settings checkboxes *)

Definition on_auto_load_font (checked : bool) (w : World) : World :=
  let s := settings w in
  saveSettingsDebounced
    (with_settings (mkSettings (fonts s) (activeFont s) checked (overrideThemeFont s) (notifications s)) w).

Definition activeFont_value (s : Settings) : jsvalue :=
  match activeFont s with Some n => js_string n | None => js_null end.

Definition on_override_theme_font (checked : bool) (w : World) : World :=
  let s := settings w in
  let w1 := saveSettingsDebounced
              (with_settings (mkSettings (fonts s) (activeFont s) (autoLoad s) checked (notifications s)) w) in
  applyFont (activeFont_value (settings w1)) w1.

Definition on_notifications_enabled (checked : bool) (w : World) : World :=
  let s := settings w in
  saveSettingsDebounced
    (with_settings (mkSettings (fonts s) (activeFont s) (autoLoad s) (overrideThemeFont s) checked) w).

(** ** What the properties are stated with *)

(** The names of all registered fonts: the remote ones, then the local ones. *)
Definition all_names (s : Settings) : list jsstring :=
  List.map name (google (fonts s)) ++ List.map name (local (fonts s)).

(** [n] names an entry of one of the two sequences. *)
Definition known (n : jsstring) (s : Settings) : bool :=
  some_named n (google (fonts s)) || some_named n (local (fonts s)).

(** No name occurs twice, within a sequence or across the two. *)
Definition names_unique (s : Settings) : Prop := NoDup (all_names s).

(** The active font, when there is one, is a registered font. *)
Definition active_known (s : Settings) : Prop :=
  forall a, activeFont s = Some a -> In a (all_names s).

Definition registry_inv (s : Settings) : Prop := names_unique s /\ active_known s.

(** The toast a call [notify(message, type)] shows under settings [s]. *)
Definition shown (s : Settings) (type : ToastType) (message : jsstring) : list Event :=
  if notifications s then [Toast type message] else [].

Definition is_error_toast (e : Event) : bool :=
  match e with Toast error _ => true | _ => false end.

Definition is_success_toast (e : Event) : bool :=
  match e with Toast success _ => true | _ => false end.

(** The element behind node [m], provided its id is [i]. *)
Definition elem_with_id (d : Document) (i : jsstring) (m : node) : option Element :=
  match nth_error (nodes d) m with
  | Some e => if strict_eq (elem_id e) i then Some e else None
  | None => None
  end.

Fixpoint filter_map {A B} (f : A -> option B) (l : list A) : list B :=
  match l with
  | [] => []
  | x :: l' =>
      match f x with
      | Some y => y :: filter_map f l'
      | None => filter_map f l'
      end
  end.

(** The elements of the document whose id is [i], in tree order. *)
Definition elements_with_id (i : jsstring) (d : Document) : list Element :=
  filter_map (elem_with_id d i) (tree d).

(** Every node of the tree is an element of the store. *)
Definition doc_wf (d : Document) : Prop :=
  Forall (fun m => m < List.length (nodes d)) (tree d).

(** Node [n] is in the tree and its element has the id [i]. *)
Definition carries (d : Document) (i : jsstring) (n : node) : Prop :=
  In n (tree d) /\
  exists e, nth_error (nodes d) n = Some e /\ elem_id e = i.

(** [fontStyleElement], once set, is the attached style element the
    extension created under the id [st-custom-fonts-local-defs]. *)
Definition style_wf (w : World) : Prop :=
  forall n, fontStyleElement w = Some n -> carries (document w) localDefsId n.

Definition World_wf (w : World) : Prop := doc_wf (document w) /\ style_wf w.

(** The document [d] once a new element [e] has been created and appended
    to the head: what [createElement], the assignments to the element's
    fields and [appendChild] amount to together. *)
Definition attached (e : Element) (d : Document) : Document :=
  mkDocument (nodes d ++ [e]) (head d ++ [List.length (nodes d)]) (body d)
             (custom_font_family d).

(** The text of the embedded style block. *)
Definition styleContent (w : World) : option jsstring :=
  match fontStyleElement w with
  | Some n => option_map innerHTML (nth_error (nodes (document w)) n)
  | None => None
  end.

(** The stylesheet link [applyFont] inserts for a remote font. *)
Definition linkElementFor (font : GoogleFont) : Element :=
  mkElement LinkTag (linkId (name font)) (lit "stylesheet") (link font) [].

(** How often the text [pat] occurs in [s], overlaps included. *)
Fixpoint count_sub (pat s : jsstring) : nat :=
  (if startsWith s pat then 1 else 0)
  + match s with
    | [] => 0
    | _ :: s' => count_sub pat s'
    end.

(** The keyword every [@font-face] rule starts with. *)
Definition fontFaceKeyword : jsstring := lit "@font-face".

(** [k] calls of a handler in a row. *)
Fixpoint repeatedly (k : nat) (h : World -> World) (w : World) : World :=
  match k with
  | O => w
  | S k' => h (repeatedly k' h w)
  end.

(** ** Sample states *)

Definition inter : GoogleFont :=
  mkGoogleFont (lit "Inter") (lit "https://fonts.googleapis.com/css?family=Inter").

Definition comic : LocalFont :=
  mkLocalFont (lit "Comic") (lit "data:font/woff2;base64,d09GMg==").

Definition empty_document : Document := mkDocument [] [] [] None.

(** A fresh page: nothing registered, the default flags. *)
Definition world0 : World :=
  mkWorld (mkSettings (mkFonts [] []) None true false true) None empty_document [].

(** One remote and one local font, the defaults otherwise (so the theme
    override is off). *)
Definition world1 : World :=
  mkWorld (mkSettings (mkFonts [inter] [comic]) None true false true) None empty_document [].

(** The same with the theme override on. *)
Definition world2 : World :=
  mkWorld (mkSettings (mkFonts [inter] [comic]) None true true true) None empty_document [].

(** [world2] after the startup injection and after applying Inter. *)
Definition world3 : World :=
  applyFont (js_string (lit "Inter")) (injectLocalFontStyles world2).

(** [world3] after applying Comic. *)
Definition world4 : World := applyFont (js_string (lit "Comic")) world3.

(** ** The file input's second listener *)

(** A file of the input, with its name. *)
Definition NamedFile : Type := (jsstring * File)%type.

(** The listener that shows the chosen file's name. *)
Definition filenameListener (files : list NamedFile) (w : World) : World :=
  let filename :=
    match files with
    | (file_name, _) :: _ => file_name
    | [] => lit "No file selected."
    end in
  emit (FilenameDisplay filename []) w.

(** A [change] of the file input: [handleLocalFontFile], then the
    listener above, in the order in which they were bound. *)
Definition local_font_file_change (files : list NamedFile) (name_field : jsstring) (w : World)
  : World * option (jsstring * File) :=
  let (w1, started) := handleLocalFontFile (option_map snd (hd_error files)) name_field w in
  (filenameListener files w1, started).

(** ** The initial setup and the delayed auto-apply *)

(** [settings.autoLoad && settings.activeFont] *)
Definition wantsAutoApply (s : Settings) : bool :=
  autoLoad s && match activeFont s with Some (_ :: _) => true | _ => false end.

(** The end of the initialisation function, once the settings are loaded
    and the listeners bound: the state it leaves, and whether it set the
    timer. *)
Definition initialSetup (w : World) : World * bool :=
  let w1 := renderFontList (injectLocalFontStyles w) in
  (w1, wantsAutoApply (settings w1)).

(** The timer's callback, which reads [settings.activeFont] when it runs. *)
Definition autoApply (w : World) : World :=
  applyFont (activeFont_value (settings w)) w.

(** ** The page as the event loop drives it

    Besides the state of the module, the reads that were started and have
    not called back yet, and whether the startup timer is still to fire. *)

Record Page := mkPage {
  world : World;
  reads : list (jsstring * File);
  timer : bool
}.

Inductive UIEvent :=
| ClickAddGoogleFont (name_field link_field : jsstring)
| ChangeLocalFontFile (files : list NamedFile) (name_field : jsstring)
| ReadCompletes (k : nat)             (* the [k]-th pending read calls back *)
| ClickDelete (fontName : jsdata)     (* with the clicked button's [.data('font-name')] *)
| ClickApply (value : jsvalue)
| InputAutoLoad (checked : bool)
| InputOverrideThemeFont (checked : bool)
| InputNotifications (checked : bool)
| TimerFires.

Fixpoint remove_nth {A} (k : nat) (l : list A) : list A :=
  match l, k with
  | [], _ => []
  | _ :: l', O => l'
  | x :: l', S k' => x :: remove_nth k' l'
  end.

Definition with_world (w : World) (p : Page) : Page := mkPage w (reads p) (timer p).

Definition step (p : Page) (e : UIEvent) : Page :=
  match e with
  | ClickAddGoogleFont name_field link_field =>
      with_world (addGoogleFont name_field link_field (world p)) p
  | ChangeLocalFontFile files name_field =>
      let (w, started) := local_font_file_change files name_field (world p) in
      mkPage w (reads p ++ match started with Some r => [r] | None => [] end) (timer p)
  | ReadCompletes k =>
      match nth_error (reads p) k with
      | Some r => mkPage (reader_complete r (world p)) (remove_nth k (reads p)) (timer p)
      | None => p
      end
  | ClickDelete fontName => with_world (removeFont_data fontName (world p)) p
  | ClickApply value => with_world (applyFont value (world p)) p
  | InputAutoLoad checked => with_world (on_auto_load_font checked (world p)) p
  | InputOverrideThemeFont checked => with_world (on_override_theme_font checked (world p)) p
  | InputNotifications checked => with_world (on_notifications_enabled checked (world p)) p
  | TimerFires =>
      if timer p then mkPage (autoApply (world p)) (reads p) false else p
  end.

Definition run (p : Page) (events : list UIEvent) : Page := fold_left step events p.

(** The page right after the initialisation function, for loaded
    settings [s] and the host's document [d]. *)
Definition startup (s : Settings) (d : Document) : Page :=
  let (w, scheduled) := initialSetup (mkWorld s None d []) in
  mkPage w [] scheduled.

(** ** What [renderFontList] puts in the settings panel *)

(** An entry of [allFonts]: the font with its [type] added. *)
Inductive ListedFont := GoogleListed (f : GoogleFont) | LocalListed (f : LocalFont).

#[export] Instance ListedFont_Named : Named ListedFont :=
  fun x => match x with GoogleListed f => name f | LocalListed f => name f end.

Definition font_type (x : ListedFont) : jsstring :=
  match x with GoogleListed _ => lit "Google" | LocalListed _ => lit "Local" end.

Record SelectOption := mkOption { option_text : jsstring; option_value : jsstring }.

Record Panel := mkPanel {
  select_options : list SelectOption;   (* the children of [#font_select] *)
  select_val : option jsstring;         (* the argument of [select.val], when called *)
  container : list jsstring             (* the children of [#font_list_container], as markup *)
}.

Definition quoted (s : jsstring) : jsstring := dquote ++ s ++ dquote.

Definition placeholderOption : SelectOption := mkOption (lit "Select a font...") [].

Definition emptyStateHtml : jsstring :=
  lit "<p style=" ++ quoted (lit "text-align:center; color: var(--text-color-secondary);")
  ++ lit ">No custom fonts added yet.</p>".

Definition itemHtml (font : ListedFont) : jsstring :=
  newline ++ spaces 12 ++ lit "<div class=" ++ quoted (lit "cf-font-item") ++ lit ">" ++
  newline ++ spaces 16 ++ lit "<div>" ++
  newline ++ spaces 20 ++ lit "<span class=" ++ quoted (lit "cf-font-type") ++ lit ">"
          ++ font_type font ++ lit "</span>" ++
  newline ++ spaces 20 ++ lit "<span class=" ++ quoted (lit "cf-font-name") ++ lit ">"
          ++ name font ++ lit "</span>" ++
  newline ++ spaces 16 ++ lit "</div>" ++
  newline ++ spaces 16 ++ lit "<button class=" ++ quoted (lit "cf-delete-button")
          ++ lit " data-font-name=" ++ quoted (name font)
          ++ lit " title=" ++ quoted (lit "Delete font") ++ lit ">" ++
  newline ++ spaces 20 ++ lit "<i class=" ++ quoted (lit "fa-solid fa-trash-can") ++ lit "></i>" ++
  newline ++ spaces 16 ++ lit "</button>" ++
  newline ++ spaces 12 ++ lit "</div>" ++
  newline ++ spaces 8.

Section Rendering.

(** [a.localeCompare(b)], which the host's locale decides: negative,
    zero or positive. *)
Variable localeCompare : jsstring -> jsstring -> Z.

(** [list.sort((a, b) => a.name.localeCompare(b.name))]: the sort is
    stable, so for a consistent comparison its result is the one an
    insertion from the right gives. *)
Fixpoint insert_sorted (x : ListedFont) (l : list ListedFont) : list ListedFont :=
  match l with
  | [] => [x]
  | y :: l' =>
      if (localeCompare (name x) (name y) <=? 0)%Z then x :: l
      else y :: insert_sorted x l'
  end.

Definition sort_by_name (l : list ListedFont) : list ListedFont :=
  fold_right insert_sorted [] l.

Definition allFonts (s : Settings) : list ListedFont :=
  sort_by_name (List.map GoogleListed (google (fonts s))
                ++ List.map LocalListed (local (fonts s))).

Definition fontListPanel (s : Settings) : Panel :=
  match allFonts s with
  | [] => mkPanel [placeholderOption] None [emptyStateHtml]
  | font :: rest =>
      mkPanel (placeholderOption
                 :: List.map (fun f => mkOption (name f) (name f)) (font :: rest))
              (match activeFont s with
               | Some (c :: a) => Some (c :: a)
               | _ => None
               end)
              (List.map itemHtml (font :: rest))
  end.

End Rendering.

(** ** What the further properties are stated with *)

(** A name as the add handlers register it: not empty, and with no
    white space left at either end. *)
Definition clean_name (n : jsstring) : Prop := n <> [] /\ trim n = n.

(** Every entry has a clean name, and every remote entry a trimmed link
    to the Google Fonts API. *)
Definition entries_clean (s : Settings) : Prop :=
  Forall (fun f => clean_name (name f) /\ trim (link f) = link f
                   /\ startsWith (link f) googleApiPrefix = true)
         (google (fonts s)) /\
  Forall (fun f : LocalFont => clean_name (name f)) (local (fonts s)).

Definition reads_clean (p : Page) : Prop :=
  Forall (fun r : jsstring * File => clean_name (fst r)) (reads p).

(** At most one element carries the id of the override style. *)
Definition override_unique (d : Document) : Prop :=
  List.length (elements_with_id overrideStyleId d) <= 1.

(** The embedded style block holds the rules of the local sequence. *)
Definition styles_in_sync (w : World) : Prop :=
  styleContent w = Some (fontFaceRules (local (fonts (settings w)))).

(** The page is well formed and has at most one override style. *)
Definition page_wf (p : Page) : Prop :=
  World_wf (world p) /\ override_unique (document (world p)).

(** The registered entries are clean, and so are the names of the reads
    that are still pending. *)
Definition page_clean (p : Page) : Prop :=
  entries_clean (settings (world p)) /\ reads_clean p.

(** The calls to the host made between [w] and a later state [w']. *)
Definition new_events (w w' : World) : list Event :=
  skipn (List.length (trace w)) (trace w').

Definition is_toast (e : Event) : bool :=
  match e with Toast _ _ => true | _ => false end.

(** What a handler adds to the trace from [w] to [w']: no toast when
    toasts are off, and a save whenever it changed the settings. *)
Definition accounted (w w' : World) : Prop :=
  exists evs,
    trace w' = trace w ++ evs /\
    (notifications (settings w) = false -> existsb is_toast evs = false) /\
    (settings w' <> settings w -> In SaveSettings evs).

(** The element [getElementById] finds under the override style's id. *)
Definition overrideStyle (d : Document) : option Element :=
  match getElementById overrideStyleId d with
  | Some n => nth_error (nodes d) n
  | None => None
  end.

(** What the filename display shows after the calls of a trace: the
    text and colour of the last write to it. *)
Definition filenameShown (t : list Event) : option (jsstring * jsstring) :=
  fold_left (fun shown e =>
               match e with
               | FilenameDisplay text color => Some (text, color)
               | _ => shown
               end) t None.

(** A comparison to test the sort with: by length. *)
Definition compare_length (a b : jsstring) : Z :=
  (Z.of_nat (List.length a) - Z.of_nat (List.length b))%Z.

(** ** Further sample states *)

Definition lato : GoogleFont :=
  mkGoogleFont (lit "Lato") (lit "https://fonts.googleapis.com/css2?family=Lato").

(** Inter, Lato and Comic registered, Inter active, the override on. *)
Definition settings5 : Settings :=
  mkSettings (mkFonts [inter; lato] [comic]) (Some (lit "Inter")) true true true.

Definition page5 : Page := startup settings5 empty_document.

(** [world3] with the theme override switched off in the settings, the
    override style still being in the document. *)
Definition world3_override_off : World :=
  with_settings (mkSettings (fonts (settings world3)) (activeFont (settings world3))
                            true false true) world3.

(* ================================================================== *)
(** * Part II: properties                                              *)
(* ================================================================== *)

(** ** Strings and names *)

Lemma strict_eq_true (a b : jsstring) : strict_eq a b = true <-> a = b.
Proof.
  revert b; induction a as [|x a IH]; intros [|y b]; simpl; split;
    try congruence; try discriminate.
  - intros H. apply andb_true_iff in H as [H1 H2].
    apply N.eqb_eq in H1. apply IH in H2. congruence.
  - intros H. inversion H; subst. rewrite N.eqb_refl. simpl.
    apply IH. reflexivity.
Qed.

Lemma strict_eq_refl (a : jsstring) : strict_eq a a = true.
Proof. apply strict_eq_true. reflexivity. Qed.

Lemma strict_eq_false (a b : jsstring) : strict_eq a b = false <-> a <> b.
Proof.
  rewrite <- strict_eq_true. destruct (strict_eq a b); split; congruence.
Qed.

Lemma some_named_In {A} `{Named A} (n : jsstring) (l : list A) :
  some_named n l = true <-> In n (List.map name l).
Proof.
  unfold some_named. rewrite existsb_exists, in_map_iff.
  split; intros [f [H1 H2]]; exists f.
  - apply strict_eq_true in H2. auto.
  - split; [assumption | apply strict_eq_true; assumption].
Qed.

Lemma some_named_not_In {A} `{Named A} (n : jsstring) (l : list A) :
  some_named n l = false <-> ~ In n (List.map name l).
Proof.
  rewrite <- some_named_In. destruct (some_named n l); split; congruence.
Qed.

Lemma known_In (n : jsstring) (s : Settings) : known n s = true <-> In n (all_names s).
Proof.
  unfold known, all_names.
  rewrite orb_true_iff, in_app_iff, !some_named_In. reflexivity.
Qed.

Lemma known_not_In (n : jsstring) (s : Settings) : known n s = false <-> ~ In n (all_names s).
Proof.
  rewrite <- known_In. destruct (known n s); split; congruence.
Qed.

Lemma map_filter_not_named {A} `{Named A} (n : jsstring) (l : list A) :
  List.map name (filter_not_named n l)
  = filter (fun x => negb (strict_eq x n)) (List.map name l).
Proof.
  unfold filter_not_named. induction l as [|f l IH]; simpl; [reflexivity|].
  destruct (strict_eq (name f) n); simpl; rewrite IH; reflexivity.
Qed.

Lemma filter_not_named_absent {A} `{Named A} (n : jsstring) (l : list A) :
  some_named n l = false -> filter_not_named n l = l.
Proof.
  unfold filter_not_named, some_named. induction l as [|f l IH]; simpl; [reflexivity|].
  intros E. apply orb_false_iff in E as [E1 E2].
  rewrite E1. simpl. rewrite IH by assumption. reflexivity.
Qed.

Lemma filter_not_named_shorter {A} `{Named A} (n : jsstring) (l : list A) :
  some_named n l = true ->
  (List.length (filter_not_named n l) <? List.length l) = true.
Proof.
  unfold filter_not_named, some_named. intros E. apply Nat.ltb_lt.
  induction l as [|f l IH]; simpl in *; [discriminate|].
  pose proof (filter_length_le (fun f => negb (strict_eq (name f) n)) l) as Hle.
  destruct (strict_eq (name f) n); simpl in *; [lia|].
  specialize (IH E). lia.
Qed.

Lemma some_named_filter_not_named {A} `{Named A} (n : jsstring) (l : list A) :
  some_named n (filter_not_named n l) = false.
Proof.
  apply some_named_not_In. rewrite map_filter_not_named.
  intros Hin. apply filter_In in Hin as [_ Hne].
  rewrite strict_eq_refl in Hne. discriminate.
Qed.

Example trim_strips_both_ends :
  trim (9 :: 32 :: 160 :: lit "Open Sans" ++ [32; 10; 8232; 65279])%N = lit "Open Sans".
Proof. reflexivity. Qed.

Example trim_all_blank : trim (lit "   ") = [].
Proof. reflexivity. Qed.

Example replace_whitespace_keeps_the_rest :
  replace_whitespace (lit "Open Sans 3") = lit "Open-Sans-3".
Proof. reflexivity. Qed.

Example startsWith_api_prefix :
  startsWith (lit "https://fonts.googleapis.com/css2?family=Inter") googleApiPrefix = true /\
  startsWith (lit "http://fonts.googleapis.com/css") googleApiPrefix = false.
Proof. split; reflexivity. Qed.

Example join_three : join (lit ", ") [lit "a"; lit "b"; lit "c"] = lit "a, b, c".
Proof. reflexivity. Qed.

Example index_key_decimal : index_key 0 = lit "0" /\ index_key 120 = lit "120".
Proof. split; reflexivity. Qed.

(** ** The trace and the frame of the small steps *)

Lemma notify_settings m t w : settings (notify m t w) = settings w.
Proof. unfold notify. destruct (notifications (settings w)); reflexivity. Qed.

Lemma notify_document m t w : document (notify m t w) = document w.
Proof. unfold notify. destruct (notifications (settings w)); reflexivity. Qed.

Lemma notify_fontStyleElement m t w : fontStyleElement (notify m t w) = fontStyleElement w.
Proof. unfold notify. destruct (notifications (settings w)); reflexivity. Qed.

Lemma notify_trace m t w : trace (notify m t w) = trace w ++ shown (settings w) t m.
Proof.
  unfold notify, shown. destruct (notifications (settings w)); simpl;
    [reflexivity | rewrite app_nil_r; reflexivity].
Qed.

Lemma injectLocalFontStyles_settings w : settings (injectLocalFontStyles w) = settings w.
Proof.
  unfold injectLocalFontStyles. destruct (fontStyleElement w); reflexivity.
Qed.

Lemma injectLocalFontStyles_trace w : trace (injectLocalFontStyles w) = trace w.
Proof.
  unfold injectLocalFontStyles. destruct (fontStyleElement w); reflexivity.
Qed.

Create Rewrite HintDb world.
#[local] Hint Rewrite notify_settings notify_document notify_fontStyleElement
  notify_trace injectLocalFontStyles_settings injectLocalFontStyles_trace : world.

Ltac world_simpl := repeat (simpl; autorewrite with world).

(** ** Applying a font: the two early exits *)

(** C10. Called with [null], [undefined] or the empty string, [applyFont]
    returns at once: it hands back the very state it was given, so nothing
    of the document or the settings changes, nothing is saved and no toast
    of either kind is shown. *)
Theorem applyFont_falsy_is_noop (w : World) :
  applyFont js_null w = w /\
  applyFont js_undefined w = w /\
  applyFont (js_string []) w = w.
Proof. repeat split. Qed.

Lemma applyFont_unknown (w : World) (fontName : jsstring) :
  fontName <> [] ->
  known fontName (settings w) = false ->
  applyFont (js_string fontName) w
  = notify (lit "Font " ++ dquote ++ fontName ++ dquote ++ lit " not found.") error w.
Proof.
  intros Hne Hk. unfold known in Hk. apply orb_false_iff in Hk as [Hg Hl].
  destruct fontName as [|c s]; [congruence|].
  unfold applyFont. cbn [truthy]. rewrite Hg, Hl. reflexivity.
Qed.

(** C4. For a non-empty name that is in neither sequence, [applyFont] does
    one thing only, the call to [notify] with type [error]: the settings
    (so also [activeFont]), the document (no link, no custom property, no
    override style) and [fontStyleElement] are what they were, and the
    trace grows by that toast alone, so nothing is saved. *)
Theorem applyFont_unknown_name (w : World) (fontName : jsstring) :
  fontName <> [] ->
  known fontName (settings w) = false ->
  let w' := applyFont (js_string fontName) w in
  let message := lit "Font " ++ dquote ++ fontName ++ dquote ++ lit " not found." in
  w' = notify message error w /\
  settings w' = settings w /\
  document w' = document w /\
  fontStyleElement w' = fontStyleElement w /\
  trace w' = trace w ++ shown (settings w) error message /\
  (notifications (settings w) = true -> trace w' = trace w ++ [Toast error message]).
Proof.
  intros Hne Hk w' message. subst w'.
  rewrite (applyFont_unknown w Hne Hk). fold message.
  repeat split; world_simpl; try reflexivity.
  intros Hn. unfold shown. rewrite Hn. reflexivity.
Qed.

Lemma applyFont_unknown_name_witness :
  let w' := applyFont (js_string (lit "Ghost")) world1 in
  document w' = document world1 /\
  trace w' = [Toast error (lit "Font " ++ dquote ++ lit "Ghost" ++ dquote ++ lit " not found.")].
Proof.
  assert (Hne : lit "Ghost" <> []) by discriminate.
  assert (Hk : known (lit "Ghost") (settings world1) = false) by reflexivity.
  destruct (applyFont_unknown_name world1 Hne Hk) as (_ & _ & Hd & _ & _ & Ht).
  split; [exact Hd | exact (Ht eq_refl)].
Defined.

(** ** Applying a registered font *)

(** With the theme override on, a registered font becomes the active
    font, the settings are saved and a success toast is shown. *)
Lemma applyFont_override_on (w : World) (fontName : jsstring) :
  fontName <> [] ->
  known fontName (settings w) = true ->
  overrideThemeFont (settings w) = true ->
  let w' := applyFont (js_string fontName) w in
  settings w' = with_activeFont (Some fontName) (settings w) /\
  fontStyleElement w' = fontStyleElement w /\
  trace w' = trace w ++ [SaveSettings]
               ++ shown (settings w) success (lit "Applied font: " ++ fontName).
Proof.
  intros Hne Hk Ho. destruct fontName as [|c s]; [congruence|].
  unfold known in Hk. unfold applyFont. cbn [truthy].
  replace (negb _ && negb _) with false
    by (symmetry; rewrite <- negb_orb, Hk; reflexivity).
  rewrite Ho. cbn [negb].
  match goal with |- context [getElementById overrideStyleId ?d] =>
    destruct (getElementById overrideStyleId d) end;
    world_simpl; rewrite <- ?app_assoc; repeat split; reflexivity.
Qed.

(** With the theme override off, the early return leaves the settings and
    the trace alone: the font does not become active, nothing is saved
    and no toast is shown. *)
Lemma applyFont_override_off (w : World) (fontName : jsstring) :
  fontName <> [] ->
  known fontName (settings w) = true ->
  overrideThemeFont (settings w) = false ->
  let w' := applyFont (js_string fontName) w in
  settings w' = settings w /\
  fontStyleElement w' = fontStyleElement w /\
  trace w' = trace w /\
  custom_font_family (document w') = Some (fontFamilyValue fontName).
Proof.
  intros Hne Hk Ho. destruct fontName as [|c s]; [congruence|].
  unfold known in Hk. unfold applyFont. cbn [truthy].
  replace (negb _ && negb _) with false
    by (symmetry; rewrite <- negb_orb, Hk; reflexivity).
  rewrite Ho. cbn [negb].
  match goal with |- context [getElementById overrideStyleId ?d] =>
    destruct (getElementById overrideStyleId d) end;
    repeat split; reflexivity.
Qed.

(** C1. On a state with Inter registered and the theme override off (the
    default), applying Inter sets the custom property and then returns:
    [activeFont] is still [null], and neither a save nor a toast happened,
    although toasts are enabled.  The same call on the state with the
    override on does all three. *)
Theorem applyFont_override_off_skips_state_update :
  known (lit "Inter") (settings world1) = true /\
  overrideThemeFont (settings world1) = false /\
  notifications (settings world1) = true /\
  (let w' := applyFont (js_string (lit "Inter")) world1 in
   custom_font_family (document w') = Some (fontFamilyValue (lit "Inter")) /\
   activeFont (settings w') = None /\
   trace w' = []) /\
  (let w' := applyFont (js_string (lit "Inter")) world2 in
   activeFont (settings w') = Some (lit "Inter") /\
   trace w' = [SaveSettings; Toast success (lit "Applied font: Inter")]).
Proof. vm_compute. repeat split. Qed.

Lemma applyFont_settings (v : jsvalue) (w : World) :
  settings (applyFont v w) = settings w \/
  exists fontName, known fontName (settings w) = true /\
    settings (applyFont v w) = with_activeFont (Some fontName) (settings w).
Proof.
  destruct v as [| |[|c s]]; try (left; reflexivity).
  set (fontName := (c :: s)).
  assert (Hne : fontName <> []) by discriminate.
  destruct (known fontName (settings w)) eqn:Hk.
  - destruct (overrideThemeFont (settings w)) eqn:Ho.
    + right. exists fontName. split; [assumption|].
      apply (applyFont_override_on w Hne Hk Ho).
    + left. apply (applyFont_override_off w Hne Hk Ho).
  - left. rewrite (applyFont_unknown w Hne Hk). apply notify_settings.
Qed.

(** ** Adding fonts *)

(** C3. When the (trimmed) name is already used by a font of either kind,
    both ways of adding stop at a check: [addGoogleFont] only calls
    [notify] with type [error]; [handleLocalFontFile], given a file, only
    writes the red message next to the file input and calls [notify] with
    type [error], and starts no read.  In both cases the settings, hence
    both sequences, are exactly what they were. *)
Theorem add_with_used_name_rejected (w : World) (name_field : jsstring) :
  known (trim name_field) (settings w) = true ->
  (forall link_field,
     let w' := addGoogleFont name_field link_field w in
     settings w' = settings w /\
     exists message, trace w' = trace w ++ shown (settings w) error message) /\
  (forall file,
     let w' := addLocalFont (Some file) name_field w in
     settings w' = settings w /\
     exists text message,
       trace w' = trace w ++ FilenameDisplay text red :: shown (settings w) error message).
Proof.
  intros Hk. unfold known in Hk. split.
  - intros link_field. unfold addGoogleFont.
    destruct (is_empty (trim name_field) || is_empty (trim link_field)).
    + world_simpl. split; [reflexivity | eexists; reflexivity].
    + rewrite Hk. world_simpl. split; [reflexivity | eexists; reflexivity].
  - intros file. unfold addLocalFont, handleLocalFontFile.
    destruct (is_empty (trim name_field)).
    + world_simpl. split; [reflexivity|].
      do 2 eexists. rewrite <- app_assoc. reflexivity.
    + rewrite Hk. world_simpl. split; [reflexivity|].
      do 2 eexists. rewrite <- app_assoc. reflexivity.
Qed.

Lemma add_with_used_name_rejected_witness :
  fonts (settings (addGoogleFont (lit " Comic ") googleApiPrefix world1))
  = fonts (settings world1) /\
  fonts (settings (addLocalFont (Some (Readable (lit "data:,"))) (lit "Inter") world1))
  = fonts (settings world1).
Proof.
  split.
  - assert (Hk : known (trim (lit " Comic ")) (settings world1) = true) by reflexivity.
    destruct (add_with_used_name_rejected world1 (lit " Comic ") Hk) as [Hg _].
    destruct (Hg googleApiPrefix) as [Hs _]. rewrite Hs. reflexivity.
  - assert (Hk : known (trim (lit "Inter")) (settings world1) = true) by reflexivity.
    destruct (add_with_used_name_rejected world1 (lit "Inter") Hk) as [_ Hl].
    destruct (Hl (Readable (lit "data:,"))) as [Hs _]. rewrite Hs. reflexivity.
Defined.

Lemma addGoogleFont_settings (name_field link_field : jsstring) (w : World) :
  settings (addGoogleFont name_field link_field w) = settings w \/
  (known (trim name_field) (settings w) = false /\
   settings (addGoogleFont name_field link_field w)
   = push_google (mkGoogleFont (trim name_field) (trim link_field)) (settings w)).
Proof.
  unfold addGoogleFont, known.
  destruct (is_empty (trim name_field) || is_empty (trim link_field));
    [left; apply notify_settings|].
  destruct (some_named _ _ || some_named _ _);
    [left; apply notify_settings|].
  destruct (negb _); [left; apply notify_settings|].
  right. split; [reflexivity|]. world_simpl. reflexivity.
Qed.

Lemma reader_onload_settings (n result : jsstring) (w : World) :
  settings (reader_onload n result w) = push_local (mkLocalFont n result) (settings w).
Proof. unfold reader_onload. world_simpl. reflexivity. Qed.

Lemma addLocalFont_settings (file : option File) (name_field : jsstring) (w : World) :
  settings (addLocalFont file name_field w) = settings w \/
  (known (trim name_field) (settings w) = false /\
   exists result,
     settings (addLocalFont file name_field w)
     = push_local (mkLocalFont (trim name_field) result) (settings w)).
Proof.
  unfold addLocalFont, handleLocalFontFile, known.
  destruct file as [f|]; [|left; reflexivity].
  destruct (is_empty (trim name_field)); [left; world_simpl; reflexivity|].
  destruct (some_named _ _ || some_named _ _); [left; world_simpl; reflexivity|].
  destruct f as [result|]; cbn [reader_complete].
  - right. split; [reflexivity|]. exists result. apply reader_onload_settings.
  - left. unfold reader_onerror. world_simpl. reflexivity.
Qed.

(** ** Removing a font *)

Lemma removeFont_settings (fontName : jsstring) (w : World) :
  settings (removeFont fontName w)
  = let s := settings w in
    mkSettings
      (mkFonts (filter_not_named fontName (google (fonts s)))
               (filter_not_named fontName (local (fonts s))))
      (match activeFont s with
       | Some a => if strict_eq a fontName then None else Some a
       | None => None
       end)
      (autoLoad s) (overrideThemeFont s) (notifications s).
Proof.
  destruct w as [[f a al o n] fse d tr]. unfold removeFont. cbn -[Nat.ltb].
  destruct (List.length _ <? List.length _);
    destruct a as [a|]; try destruct (strict_eq a fontName);
    world_simpl; reflexivity.
Qed.

Lemma removeFont_trace (fontName : jsstring) (w : World) :
  trace (removeFont fontName w)
  = trace w ++ [SaveSettings]
      ++ shown (settings w) success (lit "Removed font: " ++ fontName)
      ++ [RenderFontList].
Proof.
  destruct w as [[f a al o n] fse d tr]. unfold removeFont. cbn -[Nat.ltb].
  destruct (List.length _ <? List.length _);
    destruct a as [a|]; try destruct (strict_eq a fontName);
    world_simpl; unfold shown; simpl; rewrite <- ?app_assoc; reflexivity.
Qed.

(** C5, as the code has it. Removing a name that is in neither sequence
    is not reported as an error: both sequences stay as they are, the
    settings are saved, [notify] is called with type [success] and the
    message [Removed font: name], and the list is rendered again. *)
Theorem removeFont_unknown_name (w : World) (fontName : jsstring) :
  known fontName (settings w) = false ->
  let w' := removeFont fontName w in
  fonts (settings w') = fonts (settings w) /\
  trace w' = trace w ++ [SaveSettings]
               ++ shown (settings w) success (lit "Removed font: " ++ fontName)
               ++ [RenderFontList] /\
  (forall e, In e (trace w') -> is_error_toast e = true -> In e (trace w)).
Proof.
  intros Hk w'. subst w'. unfold known in Hk. apply orb_false_iff in Hk as [Hg Hl].
  split; [|split].
  - rewrite removeFont_settings. cbn.
    rewrite (filter_not_named_absent _ _ Hg), (filter_not_named_absent _ _ Hl).
    destruct (fonts (settings w)); reflexivity.
  - apply removeFont_trace.
  - intros e Hin He. rewrite removeFont_trace in Hin.
    apply in_app_iff in Hin as [Hin|Hin]; [assumption|].
    unfold shown in Hin. destruct (notifications (settings w)); simpl in Hin;
      intuition (subst; discriminate).
Qed.

Lemma removeFont_unknown_name_witness :
  trace (removeFont (lit "Ghost") world1)
  = [SaveSettings; Toast success (lit "Removed font: Ghost"); RenderFontList].
Proof.
  assert (Hk : known (lit "Ghost") (settings world1) = false) by reflexivity.
  destruct (removeFont_unknown_name world1 (lit "Ghost") Hk) as (_ & Ht & _).
  exact Ht.
Defined.

(** C5, as stated, fails: with toasts enabled and Ghost registered
    nowhere, [removeFont] shows a success toast and no error toast. *)
Lemma removeFont_unknown_reports_success :
  known (lit "Ghost") (settings world1) = false /\
  notifications (settings world1) = true /\
  In (Toast success (lit "Removed font: Ghost")) (trace (removeFont (lit "Ghost") world1)) /\
  ~ (exists message, In (Toast error message) (trace (removeFont (lit "Ghost") world1))).
Proof.
  repeat split.
  - vm_compute. auto.
  - intros [message Hin]. vm_compute in Hin.
    intuition discriminate.
Qed.

(** ** The registry invariant *)

Lemma all_names_push_google (f : GoogleFont) (s : Settings) :
  Permutation (name f :: all_names s) (all_names (push_google f s)).
Proof.
  unfold all_names, push_google. simpl. rewrite map_app. simpl.
  rewrite <- app_assoc. simpl. apply Permutation_middle.
Qed.

Lemma all_names_push_local (f : LocalFont) (s : Settings) :
  Permutation (name f :: all_names s) (all_names (push_local f s)).
Proof.
  unfold all_names, push_local. simpl. rewrite map_app. simpl.
  rewrite app_assoc. apply Permutation_cons_append.
Qed.

Lemma registry_inv_push (s s' : Settings) (n : jsstring) :
  Permutation (n :: all_names s) (all_names s') ->
  activeFont s' = activeFont s ->
  known n s = false ->
  registry_inv s -> registry_inv s'.
Proof.
  intros Hp Ha Hk [Hu Hact]. apply known_not_In in Hk. split.
  - unfold names_unique. apply (Permutation_NoDup Hp). constructor; assumption.
  - intros a Hs. rewrite Ha in Hs.
    apply (Permutation_in _ Hp). right. apply Hact. assumption.
Qed.

Lemma all_names_removeFont (fontName : jsstring) (w : World) :
  all_names (settings (removeFont fontName w))
  = filter (fun x => negb (strict_eq x fontName)) (all_names (settings w)).
Proof.
  rewrite removeFont_settings. unfold all_names. cbn.
  rewrite !map_filter_not_named, filter_app. reflexivity.
Qed.

Lemma registry_inv_with_activeFont (s : Settings) (n : jsstring) :
  known n s = true -> registry_inv s -> registry_inv (with_activeFont (Some n) s).
Proof.
  intros Hk [Hu _]. split; [exact Hu|].
  intros a Ha. cbn in Ha. injection Ha as <-. apply known_In in Hk. exact Hk.
Qed.

(** Handlers that run one after the other keep the invariant.  Started
    in a state where no font name occurs twice (within or across the two
    sequences) and where the active font, if any, is a registered one,
    each of these ends in such a state: [addGoogleFont], [removeFont],
    [applyFont], and the handler of the file input when the read it
    started completes before any other handler runs. *)
Lemma operations_preserve_registry_inv (w : World) :
  registry_inv (settings w) ->
  (forall name_field link_field,
     registry_inv (settings (addGoogleFont name_field link_field w))) /\
  (forall file name_field,
     registry_inv (settings (addLocalFont file name_field w))) /\
  (forall fontName, registry_inv (settings (removeFont fontName w))) /\
  (forall fontName, registry_inv (settings (applyFont fontName w))).
Proof.
  intros Hinv. split; [|split; [|split]].
  - intros name_field link_field.
    destruct (addGoogleFont_settings name_field link_field w) as [E|[Hk E]];
      rewrite E; [exact Hinv|].
    eapply registry_inv_push; [apply all_names_push_google | reflexivity | | exact Hinv].
    exact Hk.
  - intros file name_field.
    destruct (addLocalFont_settings file name_field w) as [E|[Hk [r E]]];
      rewrite E; [exact Hinv|].
    eapply registry_inv_push; [apply all_names_push_local | reflexivity | | exact Hinv].
    exact Hk.
  - intros fontName. split.
    + unfold names_unique. rewrite all_names_removeFont.
      apply NoDup_filter. apply Hinv.
    + intros a Ha. rewrite all_names_removeFont. apply filter_In.
      rewrite removeFont_settings in Ha. cbn in Ha.
      destruct (activeFont (settings w)) as [b|] eqn:Hb; [|discriminate].
      destruct (strict_eq b fontName) eqn:Hne; [discriminate|].
      injection Ha as <-. split.
      * apply Hinv. exact Hb.
      * rewrite Hne. reflexivity.
  - intros fontName.
    destruct (applyFont_settings fontName w) as [E|[n [Hk E]]]; rewrite E;
      [exact Hinv | apply registry_inv_with_activeFont; assumption].
Qed.

(** ** The document: lists, the store, lookups by id *)

Section ListFacts.
Context {A B : Type}.

Lemma filter_map_app (f : A -> option B) (l1 l2 : list A) :
  filter_map f (l1 ++ l2) = filter_map f l1 ++ filter_map f l2.
Proof.
  induction l1 as [|x l1 IH]; simpl; [reflexivity|].
  destruct (f x); simpl; rewrite IH; reflexivity.
Qed.

Lemma filter_map_ext_in (f g : A -> option B) (l : list A) :
  (forall x, In x l -> f x = g x) -> filter_map f l = filter_map g l.
Proof.
  induction l as [|x l IH]; simpl; intros H; [reflexivity|].
  rewrite (H x) by auto. rewrite IH by auto. reflexivity.
Qed.

Lemma filter_map_filter_none (f : A -> option B) (p : A -> bool) (l : list A) :
  (forall x, In x l -> p x = false -> f x = None) ->
  filter_map f (filter p l) = filter_map f l.
Proof.
  induction l as [|x l IH]; simpl; intros H; [reflexivity|].
  destruct (p x) eqn:Hp; simpl.
  - rewrite IH by auto. reflexivity.
  - rewrite (H x) by auto. apply IH. auto.
Qed.

Lemma filter_map_nil_filter (f : A -> option B) (p : A -> bool) (l : list A) :
  filter_map f l = [] -> filter_map f (filter p l) = [].
Proof.
  induction l as [|x l IH]; simpl; [reflexivity|].
  destruct (f x) eqn:Hf; [discriminate|]. intros H.
  destruct (p x); simpl; [rewrite Hf|]; auto.
Qed.

Lemma find_app_split (p : A -> bool) (l1 l2 : list A) :
  find p (l1 ++ l2) = match find p l1 with Some x => Some x | None => find p l2 end.
Proof.
  induction l1 as [|x l1 IH]; simpl; [reflexivity|].
  destruct (p x); [reflexivity | exact IH].
Qed.

Lemma find_ext_in (p q : A -> bool) (l : list A) :
  (forall x, In x l -> p x = q x) -> find p l = find q l.
Proof.
  induction l as [|x l IH]; simpl; intros H; [reflexivity|].
  rewrite (H x) by auto. rewrite IH by auto. reflexivity.
Qed.

Lemma find_filter_keep (p q : A -> bool) (l : list A) :
  (forall x, In x l -> p x = true -> q x = true) ->
  find p (filter q l) = find p l.
Proof.
  induction l as [|x l IH]; simpl; intros H; [reflexivity|].
  destruct (p x) eqn:Hp.
  - rewrite (H x) by auto. simpl. rewrite Hp. reflexivity.
  - destruct (q x); simpl; [rewrite Hp|]; apply IH; auto.
Qed.

Lemma nth_error_update_nth (f : A -> A) (n m : nat) (l : list A) :
  nth_error (update_nth n f l) m
  = if m =? n then option_map f (nth_error l m) else nth_error l m.
Proof.
  revert n m. induction l as [|x l IH]; intros n m.
  - destruct n, m; simpl; try destruct (_ =? _); reflexivity.
  - destruct n as [|n], m as [|m]; simpl; try reflexivity. apply IH.
Qed.

Lemma length_update_nth (f : A -> A) (n : nat) (l : list A) :
  List.length (update_nth n f l) = List.length l.
Proof.
  revert n. induction l as [|x l IH]; intros [|n]; simpl; auto.
Qed.

Lemma update_nth_last (f : A -> A) (l : list A) (x : A) :
  update_nth (List.length l) f (l ++ [x]) = l ++ [f x].
Proof. induction l as [|y l IH]; simpl; [reflexivity | rewrite IH; reflexivity]. Qed.

Lemma update_nth_twice (f g : A -> A) (n : nat) (l : list A) :
  update_nth n f (update_nth n g l) = update_nth n (fun x => f (g x)) l.
Proof.
  revert n. induction l as [|x l IH]; intros [|n]; simpl; try reflexivity.
  rewrite IH. reflexivity.
Qed.
End ListFacts.

Lemma has_id_elem (d : Document) (i : jsstring) (m : node) :
  has_id d i m = match elem_with_id d i m with Some _ => true | None => false end.
Proof.
  unfold has_id, elem_with_id. destruct (nth_error (nodes d) m) as [e|]; [|reflexivity].
  destruct (strict_eq (elem_id e) i); reflexivity.
Qed.

Lemma elem_with_id_id (d : Document) (i : jsstring) (m : node) (e : Element) :
  elem_with_id d i m = Some e -> nth_error (nodes d) m = Some e /\ elem_id e = i.
Proof.
  unfold elem_with_id. destruct (nth_error (nodes d) m) as [e'|]; [|discriminate].
  destruct (strict_eq (elem_id e') i) eqn:E; [|discriminate].
  intros H; injection H as <-. apply strict_eq_true in E. auto.
Qed.

Lemma getElementById_has_id (d : Document) (i : jsstring) (n : node) :
  getElementById i d = Some n -> In n (tree d) /\ has_id d i n = true.
Proof. unfold getElementById. apply find_some. Qed.

Lemma getElementById_None (d : Document) (i : jsstring) :
  getElementById i d = None <-> elements_with_id i d = [].
Proof.
  unfold getElementById, elements_with_id.
  induction (tree d) as [|m l IH]; simpl; [tauto|].
  rewrite has_id_elem. destruct (elem_with_id d i m); [|exact IH].
  split; discriminate.
Qed.

(** Two documents that agree on the tree and, on its nodes, on the
    elements under id [i], answer alike for [i]. *)
Lemma same_under_id (i : jsstring) (d d' : Document) :
  head d' = head d -> body d' = body d ->
  (forall m, In m (tree d) -> elem_with_id d' i m = elem_with_id d i m) ->
  elements_with_id i d' = elements_with_id i d /\
  getElementById i d' = getElementById i d.
Proof.
  intros Hh Hb H. unfold elements_with_id, getElementById, tree in *.
  rewrite Hh, Hb. split.
  - apply filter_map_ext_in. exact H.
  - apply find_ext_in. intros m Hm. rewrite !has_id_elem, H by exact Hm. reflexivity.
Qed.

(** Rewriting a field other than the id of a node that does not carry
    the id [i] is invisible under [i]. *)
Lemma update_node_other_id (i : jsstring) (n : node) (f : Element -> Element) (d : Document) :
  (forall e, elem_id (f e) = elem_id e) ->
  elem_with_id d i n = None ->
  elements_with_id i (update_node n f d) = elements_with_id i d /\
  getElementById i (update_node n f d) = getElementById i d.
Proof.
  intros Hf Hn. apply same_under_id; try reflexivity.
  intros m _. unfold elem_with_id in *. cbn. rewrite nth_error_update_nth.
  destruct (Nat.eqb_spec m n) as [->|]; [|reflexivity].
  destruct (nth_error (nodes d) n) as [e|]; cbn; [|reflexivity].
  rewrite Hf. destruct (strict_eq (elem_id e) i); [discriminate | reflexivity].
Qed.

Lemma update_node_doc_wf (n : node) (f : Element -> Element) (d : Document) :
  doc_wf d -> doc_wf (update_node n f d).
Proof.
  unfold doc_wf. cbn. rewrite length_update_nth. auto.
Qed.

(** Removing a node that carries another id is invisible under [i]. *)
Lemma remove_node_other_id (i j : jsstring) (n : node) (d : Document) :
  has_id d j n = true -> i <> j ->
  elements_with_id i (remove_node n d) = elements_with_id i d /\
  getElementById i (remove_node n d) = getElementById i d.
Proof.
  intros Hn Hij.
  assert (Hnone : forall m, (negb (m =? n)) = false -> elem_with_id d i m = None).
  { intros m Hm. apply negb_false_iff, Nat.eqb_eq in Hm. subst m.
    unfold has_id in Hn. unfold elem_with_id.
    destruct (nth_error (nodes d) n) as [e|]; [|reflexivity].
    apply strict_eq_true in Hn.
    destruct (strict_eq (elem_id e) i) eqn:E; [|reflexivity].
    apply strict_eq_true in E. congruence. }
  unfold elements_with_id, getElementById, remove_node, tree. cbn.
  rewrite <- !filter_app. split.
  - apply filter_map_filter_none. intros m _ Hm.
    change (elem_with_id d i m = None). auto.
  - change (find (has_id d i) (filter (fun m => negb (m =? n)) (head d ++ body d))
            = find (has_id d i) (head d ++ body d)).
    apply find_filter_keep. intros m _ Hm.
    destruct (negb (m =? n)) eqn:E; [reflexivity|].
    rewrite has_id_elem, (Hnone m E) in Hm. discriminate.
Qed.

Lemma remove_node_doc_wf (n : node) (d : Document) : doc_wf d -> doc_wf (remove_node n d).
Proof.
  unfold doc_wf, remove_node, tree. cbn. rewrite <- filter_app.
  intros H. apply Forall_forall. intros m Hm. apply filter_In in Hm as [Hm _].
  rewrite Forall_forall in H. auto.
Qed.

(** Creating an element, setting its fields and appending it to the head. *)
Lemma create_style_attached (i : jsstring) (d : Document) :
  head_appendChild (fst (createElement StyleTag d))
    (set_id (fst (createElement StyleTag d)) i (snd (createElement StyleTag d)))
  = attached (mkElement StyleTag i [] [] []) d.
Proof.
  unfold attached, head_appendChild, set_id, update_node, createElement, with_tree, with_nodes.
  cbn. rewrite update_nth_last. reflexivity.
Qed.

Lemma ensureLink_attached (font : GoogleFont) (d : Document) :
  getElementById (linkId (name font)) d = None ->
  ensureLink font d = attached (linkElementFor font) d.
Proof.
  intros H. unfold ensureLink. rewrite H.
  unfold attached, head_appendChild, set_href, set_rel, set_id, update_node,
    createElement, with_tree, with_nodes.
  cbn. rewrite !update_nth_twice, update_nth_last. reflexivity.
Qed.

Lemma ensureLink_present (font : GoogleFont) (d : Document) :
  getElementById (linkId (name font)) d <> None -> ensureLink font d = d.
Proof.
  intros H. unfold ensureLink.
  destruct (getElementById (linkId (name font)) d); [reflexivity | congruence].
Qed.

Lemma elem_with_id_attached_old (e : Element) (d : Document) (i : jsstring) (m : node) :
  m < List.length (nodes d) -> elem_with_id (attached e d) i m = elem_with_id d i m.
Proof.
  intros Hm. unfold elem_with_id, attached. cbn.
  rewrite nth_error_app1 by exact Hm. reflexivity.
Qed.

Lemma elem_with_id_attached_new (e : Element) (d : Document) (i : jsstring) :
  elem_with_id (attached e d) i (List.length (nodes d))
  = if strict_eq (elem_id e) i then Some e else None.
Proof.
  unfold elem_with_id, attached. cbn.
  rewrite nth_error_app2 by lia. rewrite Nat.sub_diag. reflexivity.
Qed.

Lemma attached_doc_wf (e : Element) (d : Document) : doc_wf d -> doc_wf (attached e d).
Proof.
  unfold doc_wf, attached, tree. cbn. rewrite length_app. cbn.
  rewrite !Forall_app. intros [Hh Hb]. repeat split.
  - eapply Forall_impl; [|exact Hh]. cbn. intros; lia.
  - repeat constructor. lia.
  - eapply Forall_impl; [|exact Hb]. cbn. intros; lia.
Qed.

Lemma elements_with_id_attached (e : Element) (d : Document) (i : jsstring) :
  doc_wf d ->
  elements_with_id i (attached e d)
  = filter_map (elem_with_id d i) (head d)
      ++ (if strict_eq (elem_id e) i then [e] else [])
      ++ filter_map (elem_with_id d i) (body d).
Proof.
  unfold doc_wf, tree. rewrite Forall_app, !Forall_forall. intros [Hh Hb].
  unfold elements_with_id, tree. cbn [attached head body].
  rewrite !filter_map_app. cbn [filter_map].
  rewrite elem_with_id_attached_new.
  rewrite (filter_map_ext_in (elem_with_id (attached e d) i) (elem_with_id d i) (head d))
    by (intros m Hm; apply elem_with_id_attached_old; auto).
  rewrite (filter_map_ext_in (elem_with_id (attached e d) i) (elem_with_id d i) (body d))
    by (intros m Hm; apply elem_with_id_attached_old; auto).
  rewrite <- app_assoc. destruct (strict_eq (elem_id e) i); reflexivity.
Qed.

Lemma getElementById_attached (e : Element) (d : Document) (i : jsstring) :
  doc_wf d ->
  getElementById i (attached e d)
  = match find (has_id d i) (head d) with
    | Some m => Some m
    | None => if strict_eq (elem_id e) i then Some (List.length (nodes d))
              else find (has_id d i) (body d)
    end.
Proof.
  unfold doc_wf, tree. rewrite Forall_app, !Forall_forall. intros [Hh Hb].
  assert (Hold : forall m, m < List.length (nodes d) ->
                           has_id (attached e d) i m = has_id d i m).
  { intros m Hm. rewrite !has_id_elem, elem_with_id_attached_old by exact Hm. reflexivity. }
  unfold getElementById, tree. cbn [attached head body].
  rewrite !find_app_split. cbn [find].
  rewrite (find_ext_in (has_id (attached e d) i) (has_id d i) (head d)) by auto.
  rewrite (find_ext_in (has_id (attached e d) i) (has_id d i) (body d)) by auto.
  rewrite (has_id_elem (attached e d)), elem_with_id_attached_new.
  destruct (find (has_id d i) (head d)); [reflexivity|].
  destruct (strict_eq (elem_id e) i); reflexivity.
Qed.

(** Attaching an element with another id is invisible under [i]. *)
Lemma attached_other_id (e : Element) (d : Document) (i : jsstring) :
  doc_wf d -> elem_id e <> i ->
  elements_with_id i (attached e d) = elements_with_id i d /\
  getElementById i (attached e d) = getElementById i d.
Proof.
  intros Hwf Hne. apply strict_eq_false in Hne.
  rewrite elements_with_id_attached, getElementById_attached by exact Hwf.
  rewrite Hne. cbn. unfold elements_with_id, getElementById, tree.
  rewrite filter_map_app, find_app_split. split; reflexivity.
Qed.

(** Attaching an element under an id nobody carries makes it the one
    element of that id. *)
Lemma attached_fresh_id (e : Element) (d : Document) :
  doc_wf d -> getElementById (elem_id e) d = None ->
  elements_with_id (elem_id e) (attached e d) = [e].
Proof.
  intros Hwf Hnone. apply getElementById_None in Hnone.
  unfold elements_with_id, tree in Hnone. rewrite filter_map_app in Hnone.
  apply app_eq_nil in Hnone as [Hh Hb].
  rewrite elements_with_id_attached by exact Hwf.
  rewrite Hh, Hb, strict_eq_refl. reflexivity.
Qed.

Lemma set_innerHTML_attached (e : Element) (t : jsstring) (d : Document) :
  set_innerHTML (List.length (nodes d)) t (attached e d)
  = attached (mkElement (tagName e) (elem_id e) (rel e) (href e) t) d.
Proof.
  unfold set_innerHTML, update_node, attached, with_nodes. cbn.
  rewrite update_nth_last. reflexivity.
Qed.

Lemma has_id_other (d : Document) (i j : jsstring) (n : node) :
  has_id d j n = true -> i <> j -> elem_with_id d i n = None.
Proof.
  unfold has_id, elem_with_id. destruct (nth_error (nodes d) n) as [e|]; [|reflexivity].
  intros Hj Hij. apply strict_eq_true in Hj.
  destruct (strict_eq (elem_id e) i) eqn:E; [|reflexivity].
  apply strict_eq_true in E. congruence.
Qed.

(** ** The stylesheet link of a remote font *)

Lemma some_named_find {A} `{Named A} (n : jsstring) (l : list A) :
  some_named n l = match find_named n l with Some _ => true | None => false end.
Proof.
  unfold some_named, find_named. induction l as [|f l IH]; simpl; [reflexivity|].
  destruct (strict_eq (name f) n); [reflexivity | exact IH].
Qed.

Lemma find_named_name {A} `{Named A} (n : jsstring) (l : list A) (f : A) :
  find_named n l = Some f -> name f = n.
Proof.
  unfold find_named. intros Hf. apply find_some in Hf as [_ Hf].
  apply strict_eq_true. exact Hf.
Qed.

Lemma linkId_not_override (fontName : jsstring) : linkId fontName <> overrideStyleId.
Proof. discriminate. Qed.

Lemma ensureLink_doc_wf (font : GoogleFont) (d : Document) :
  doc_wf d -> doc_wf (ensureLink font d).
Proof.
  intros Hwf. destruct (getElementById (linkId (name font)) d) eqn:E.
  - rewrite ensureLink_present by congruence. exact Hwf.
  - rewrite ensureLink_attached by exact E. apply attached_doc_wf. exact Hwf.
Qed.

(** The document [applyFont] leaves for a registered font: the link
    block, the custom property, then the override style. *)
Lemma applyFont_document (w : World) (fontName : jsstring) :
  fontName <> [] ->
  known fontName (settings w) = true ->
  document (applyFont (js_string fontName) w)
  = let d1 := match find_named fontName (google (fonts (settings w))) with
              | Some font => ensureLink font (document w)
              | None => document w
              end in
    let d2 := setProperty (fontFamilyValue fontName) d1 in
    if overrideThemeFont (settings w) then
      match getElementById overrideStyleId d2 with
      | Some n => set_innerHTML n overrideRule d2
      | None => attached (mkElement StyleTag overrideStyleId [] [] overrideRule) d2
      end
    else
      match getElementById overrideStyleId d2 with
      | Some n => remove_node n d2
      | None => d2
      end.
Proof.
  intros Hne Hk. destruct fontName as [|c s]; [congruence|].
  unfold known in Hk. unfold applyFont. cbn [truthy].
  set (fontName := c :: s) in *.
  replace (negb _ && negb _) with false
    by (symmetry; rewrite <- negb_orb, Hk; reflexivity).
  rewrite (some_named_find fontName (google (fonts (settings w)))).
  replace (if match find_named fontName (google (fonts (settings w))) with
              | Some _ => true | None => false end
           then match find_named fontName (google (fonts (settings w))) with
                | Some font => ensureLink font (document w)
                | None => document w
                end
           else document w)
    with (match find_named fontName (google (fonts (settings w))) with
          | Some font => ensureLink font (document w)
          | None => document w
          end)
    by (destruct (find_named _ _); reflexivity).
  cbv zeta.
  set (d2 := setProperty (fontFamilyValue fontName) _).
  destruct (overrideThemeFont (settings w)); cbn [negb];
    destruct (getElementById overrideStyleId d2) as [n|].
  - cbv beta iota zeta. rewrite notify_document. reflexivity.
  - unfold createElement. cbv beta iota zeta. rewrite notify_document.
    etransitivity;
      [| exact (set_innerHTML_attached (mkElement StyleTag overrideStyleId [] [] []) overrideRule d2)].
    rewrite <- create_style_attached. reflexivity.
  - reflexivity.
  - reflexivity.
Qed.

(** What [applyFont] does after its link block is invisible under any
    id other than that of the override style. *)
Lemma applyFont_after_link (w : World) (fontName i : jsstring) :
  doc_wf (document w) ->
  fontName <> [] ->
  known fontName (settings w) = true ->
  i <> overrideStyleId ->
  let d1 := match find_named fontName (google (fonts (settings w))) with
            | Some font => ensureLink font (document w)
            | None => document w
            end in
  let w' := applyFont (js_string fontName) w in
  elements_with_id i (document w') = elements_with_id i d1 /\
  getElementById i (document w') = getElementById i d1 /\
  doc_wf (document w').
Proof.
  intros Hwf Hne Hk Hi d1 w'.
  assert (Hwf1 : doc_wf d1).
  { subst d1. destruct (find_named _ _); [apply ensureLink_doc_wf|]; exact Hwf. }
  subst w'. rewrite (applyFont_document w Hne Hk). fold d1. cbv zeta.
  set (d2 := setProperty (fontFamilyValue fontName) d1).
  assert (Hwf2 : doc_wf d2) by exact Hwf1.
  change (elements_with_id i d1) with (elements_with_id i d2).
  change (getElementById i d1) with (getElementById i d2).
  destruct (overrideThemeFont (settings w));
    destruct (getElementById overrideStyleId d2) as [n|] eqn:Hov.
  - apply getElementById_has_id in Hov as [_ Hov].
    destruct (update_node_other_id i n
                (fun e => mkElement (tagName e) (elem_id e) (rel e) (href e) overrideRule) d2)
      as [He Hg]; [reflexivity | eapply has_id_other; eassumption |].
    repeat split; [exact He | exact Hg | apply update_node_doc_wf; exact Hwf2].
  - destruct (@attached_other_id (mkElement StyleTag overrideStyleId [] [] overrideRule) d2 i)
      as [He Hg]; [exact Hwf2 | cbn [elem_id]; congruence |].
    repeat split; [exact He | exact Hg | apply attached_doc_wf; exact Hwf2].
  - apply getElementById_has_id in Hov as [_ Hov].
    destruct (@remove_node_other_id i overrideStyleId n d2 Hov Hi) as [He Hg].
    repeat split; [exact He | exact Hg | apply remove_node_doc_wf; exact Hwf2].
  - repeat split. exact Hwf2.
Qed.

Lemma applyFont_fonts (v : jsvalue) (w : World) :
  fonts (settings (applyFont v w)) = fonts (settings w).
Proof.
  destruct (applyFont_settings v w) as [E|[n [_ E]]]; rewrite E; reflexivity.
Qed.

Lemma applyFont_doc_wf (v : jsvalue) (w : World) :
  doc_wf (document w) -> doc_wf (document (applyFont v w)).
Proof.
  intros Hwf. destruct v as [| |[|c s]]; try exact Hwf.
  assert (Hne : c :: s <> []) by discriminate.
  destruct (known (c :: s) (settings w)) eqn:Hk.
  - assert (Hi : @nil code_unit <> overrideStyleId) by discriminate.
    apply (applyFont_after_link w Hwf Hne Hk Hi).
  - rewrite (applyFont_unknown w Hne Hk), notify_document. exact Hwf.
Qed.

Lemma find_named_known (w : World) (fontName : jsstring) (font : GoogleFont) :
  find_named fontName (google (fonts (settings w))) = Some font ->
  known fontName (settings w) = true.
Proof.
  intros Hf. unfold known. rewrite some_named_find, Hf. reflexivity.
Qed.

(** The id is derived from the name alone, but not injectively: names
    that differ only by white space against hyphens share one link. *)
Example linkId_shared :
  linkId (lit "Open Sans") = linkId (lit "Open-Sans").
Proof. reflexivity. Qed.

(** One application, seen under the id of the font's link. *)
Lemma applyFont_link_once (w : World) (fontName : jsstring) (font : GoogleFont) :
  doc_wf (document w) ->
  fontName <> [] ->
  find_named fontName (google (fonts (settings w))) = Some font ->
  let w' := applyFont (js_string fontName) w in
  elements_with_id (linkId fontName) (document w')
  = match getElementById (linkId fontName) (document w) with
    | Some _ => elements_with_id (linkId fontName) (document w)
    | None => [linkElementFor font]
    end.
Proof.
  intros Hwf Hne Hf w'. subst w'.
  pose proof (find_named_known w fontName Hf) as Hk.
  pose proof (find_named_name _ _ Hf) as Hn.
  destruct (applyFont_after_link w Hwf Hne Hk (@linkId_not_override fontName))
    as (He & _ & _).
  rewrite He, Hf. clear He. subst fontName.
  destruct (getElementById (linkId (name font)) (document w)) eqn:Hg.
  - rewrite ensureLink_present by congruence. reflexivity.
  - rewrite ensureLink_attached by exact Hg.
    apply (@attached_fresh_id (linkElementFor font) (document w) Hwf Hg).
Qed.

Lemma repeatedly_applyFont_frame (k : nat) (v : jsvalue) (w : World) :
  doc_wf (document w) ->
  doc_wf (document (repeatedly k (applyFont v) w)) /\
  fonts (settings (repeatedly k (applyFont v) w)) = fonts (settings w).
Proof.
  intros Hwf. induction k as [|k [IHwf IHf]]; cbn [repeatedly]; [split; auto|].
  split; [apply applyFont_doc_wf; exact IHwf | rewrite applyFont_fonts; exact IHf].
Qed.



(** ** The embedded style block *)

Lemma injectLocalFontStyles_existing (w : World) (n : node) :
  fontStyleElement w = Some n ->
  injectLocalFontStyles w
  = mkWorld (settings w) (Some n)
            (set_innerHTML n (fontFaceRules (local (fonts (settings w)))) (document w))
            (trace w).
Proof. intros H. unfold injectLocalFontStyles. rewrite H. reflexivity. Qed.

Lemma injectLocalFontStyles_first (w : World) :
  fontStyleElement w = None ->
  injectLocalFontStyles w
  = mkWorld (settings w) (Some (List.length (nodes (document w))))
            (attached (mkElement StyleTag localDefsId [] []
                                 (fontFaceRules (local (fonts (settings w)))))
                      (document w))
            (trace w).
Proof.
  intros H. unfold injectLocalFontStyles. rewrite H.
  unfold createElement. cbv beta iota zeta. f_equal.
  etransitivity;
    [| exact (set_innerHTML_attached (mkElement StyleTag localDefsId [] [] [])
                (fontFaceRules (local (fonts (settings w)))) (document w))].
  rewrite <- create_style_attached. reflexivity.
Qed.

Lemma injectLocalFontStyles_wf (w : World) : World_wf w -> World_wf (injectLocalFontStyles w).
Proof.
  intros [Hd Hs]. destruct (fontStyleElement w) as [n|] eqn:Hn.
  - rewrite (injectLocalFontStyles_existing w Hn). split; cbn.
    + apply update_node_doc_wf. exact Hd.
    + intros n' Hn'. cbn in Hn'. injection Hn' as <-.
      destruct (Hs n Hn) as [Hin [e [He Hid]]]. split; [exact Hin|].
      cbn. rewrite nth_error_update_nth, Nat.eqb_refl, He. cbn.
      eexists. split; [reflexivity | exact Hid].
  - rewrite (injectLocalFontStyles_first w Hn). split; cbn.
    + apply attached_doc_wf. exact Hd.
    + intros n' Hn'. cbn in Hn'. injection Hn' as <-. split.
      * unfold tree. cbn. rewrite !in_app_iff. cbn. auto.
      * cbn. rewrite nth_error_app2 by lia. rewrite Nat.sub_diag. cbn.
        eexists. split; reflexivity.
Qed.

Lemma injectLocalFontStyles_content (w : World) :
  World_wf w ->
  styleContent (injectLocalFontStyles w) = Some (fontFaceRules (local (fonts (settings w)))).
Proof.
  intros [Hd Hs]. unfold styleContent. destruct (fontStyleElement w) as [n|] eqn:Hn.
  - rewrite (injectLocalFontStyles_existing w Hn). cbn.
    destruct (Hs n Hn) as [_ [e [He _]]].
    rewrite nth_error_update_nth, Nat.eqb_refl, He. reflexivity.
  - rewrite (injectLocalFontStyles_first w Hn). cbn.
    rewrite nth_error_app2 by lia. rewrite Nat.sub_diag. reflexivity.
Qed.

Lemma injectLocalFontStyles_idempotent (w : World) :
  injectLocalFontStyles (injectLocalFontStyles w) = injectLocalFontStyles w.
Proof.
  destruct (fontStyleElement w) as [n|] eqn:Hn.
  - rewrite (injectLocalFontStyles_existing w Hn).
    rewrite (@injectLocalFontStyles_existing _ n) by reflexivity. cbn. f_equal.
    unfold set_innerHTML, update_node, with_nodes. cbn. f_equal.
    rewrite update_nth_twice. reflexivity.
  - rewrite (injectLocalFontStyles_first w Hn).
    rewrite (@injectLocalFontStyles_existing _ (List.length (nodes (document w))))
      by reflexivity.
    cbn [settings document trace]. f_equal.
    apply (set_innerHTML_attached
             (mkElement StyleTag localDefsId [] [] (fontFaceRules (local (fonts (settings w)))))).
Qed.

(** [injectLocalFontStyles] is invisible under every id but its own. *)
Lemma injectLocalFontStyles_other_id (w : World) (i : jsstring) :
  World_wf w -> i <> localDefsId ->
  elements_with_id i (document (injectLocalFontStyles w)) = elements_with_id i (document w) /\
  getElementById i (document (injectLocalFontStyles w)) = getElementById i (document w) /\
  custom_font_family (document (injectLocalFontStyles w)) = custom_font_family (document w).
Proof.
  intros [Hd Hs] Hi. destruct (fontStyleElement w) as [n|] eqn:Hn.
  - rewrite (injectLocalFontStyles_existing w Hn). cbn [document].
    destruct (Hs n Hn) as [_ [e [He Hid]]].
    destruct (update_node_other_id i n
                (fun e => mkElement (tagName e) (elem_id e) (rel e) (href e)
                                    (fontFaceRules (local (fonts (settings w)))))
                (document w)) as [H1 H2].
    + reflexivity.
    + unfold elem_with_id. rewrite He.
      destruct (strict_eq (elem_id e) i) eqn:E; [|reflexivity].
      apply strict_eq_true in E. congruence.
    + repeat split; assumption.
  - rewrite (injectLocalFontStyles_first w Hn). cbn [document].
    destruct (@attached_other_id
                (mkElement StyleTag localDefsId [] [] (fontFaceRules (local (fonts (settings w)))))
                (document w) i Hd) as [H1 H2]; [cbn [elem_id]; congruence|].
    repeat split; assumption.
Qed.

Lemma removeFont_document (fontName : jsstring) (w : World) :
  let w1 := with_settings
              (with_fonts (mkFonts (google (fonts (settings w)))
                                   (filter_not_named fontName (local (fonts (settings w)))))
                          (settings w)) w in
  let w2 := if List.length (filter_not_named fontName (local (fonts (settings w))))
               <? List.length (local (fonts (settings w)))
            then injectLocalFontStyles w1 else w1 in
  fontStyleElement (removeFont fontName w) = fontStyleElement w2 /\
  document (removeFont fontName w)
  = match activeFont (settings w) with
    | Some a => if strict_eq a fontName
                then jquery_remove_by_id overrideStyleId (removeProperty (document w2))
                else document w2
    | None => document w2
    end.
Proof.
  intros w1 w2. unfold removeFont. fold w1. fold w2.
  destruct (activeFont (settings w)) as [a|]; [destruct (strict_eq a fontName)|];
    cbv beta iota zeta; unfold renderFontList, saveSettingsDebounced;
    cbn [fontStyleElement document emit with_settings with_document];
    rewrite ?notify_fontStyleElement, ?notify_document;
    cbn [fontStyleElement document emit with_settings with_document];
    split; reflexivity.
Qed.

Lemma nodes_jquery_remove_by_id (i : jsstring) (d : Document) :
  nodes (jquery_remove_by_id i d) = nodes d.
Proof. unfold jquery_remove_by_id. destruct (getElementById i d); reflexivity. Qed.

Lemma removeFont_local_content (fontName : jsstring) (w : World) :
  World_wf w ->
  some_named fontName (local (fonts (settings w))) = true ->
  styleContent (removeFont fontName w)
  = Some (fontFaceRules (filter_not_named fontName (local (fonts (settings w))))).
Proof.
  intros Hwf Hl.
  destruct (removeFont_document fontName w) as [Hf Hd].
  rewrite (filter_not_named_shorter _ _ Hl) in Hf, Hd.
  set (w1 := with_settings _ w) in *.
  assert (Hwf1 : World_wf w1) by exact Hwf.
  transitivity (styleContent (injectLocalFontStyles w1));
    [| exact (injectLocalFontStyles_content Hwf1)].
  unfold styleContent. rewrite Hf.
  destruct (fontStyleElement (injectLocalFontStyles w1)) as [n|]; [|reflexivity].
  rewrite Hd.
  destruct (activeFont (settings w)) as [a|]; [destruct (strict_eq a fontName)|];
    rewrite ?nodes_jquery_remove_by_id; reflexivity.
Qed.

(** *** Counting the rules of the block *)

(** A code unit that does not occur in [pat] separates its occurrences:
    none of them straddles it. *)
Lemma startsWith_separator (pat v t : jsstring) (c : code_unit) :
  ~ In c pat -> startsWith (v ++ c :: t) pat = startsWith v pat.
Proof.
  revert v. induction pat as [|q pat IH]; intros v Hc; [destruct v; reflexivity|].
  destruct v as [|x v]; cbn [app startsWith].
  - destruct (N.eqb_spec c q) as [->|_]; [|reflexivity].
    exfalso. apply Hc. left. reflexivity.
  - rewrite IH; [reflexivity|]. intros Hin. apply Hc. right. exact Hin.
Qed.

Lemma count_sub_nil (pat : jsstring) : pat <> [] -> count_sub pat [] = 0.
Proof. destruct pat; [congruence | reflexivity]. Qed.

Lemma count_sub_separator (pat u t : jsstring) (c : code_unit) :
  pat <> [] -> ~ In c pat ->
  count_sub pat (u ++ c :: t) = count_sub pat u + count_sub pat t.
Proof.
  intros Hp Hc. induction u as [|x u IH].
  - rewrite (count_sub_nil Hp). cbn [app count_sub plus].
    pose proof (@startsWith_separator pat [] t c Hc) as E. cbn [app] in E. rewrite E.
    destruct pat; [congruence | reflexivity].
  - cbn [app count_sub].
    pose proof (@startsWith_separator pat (x :: u) t c Hc) as E. cbn [app] in E.
    rewrite E, IH. lia.
Qed.

(** The rule of an entry, cut at the quotes around the name and at the
    parentheses around the data. *)
Lemma fontFaceRule_parts (font : LocalFont) (rest : jsstring) :
  fontFaceRule font ++ rest
  = (newline ++ spaces 8 ++ lit "@font-face {" ++ newline ++ spaces 12 ++ lit "font-family: ")
    ++ 34%N :: (name font
    ++ 34%N :: ((lit ";" ++ newline ++ spaces 12 ++ lit "src: url")
    ++ 40%N :: (data font
    ++ 41%N :: ((lit ";" ++ newline ++ spaces 8 ++ lit "}" ++ newline ++ spaces 4) ++ rest)))).
Proof. unfold fontFaceRule. rewrite <- !app_assoc. reflexivity. Qed.

Lemma fontFaceKeyword_not_empty : fontFaceKeyword <> [].
Proof. discriminate. Qed.

Lemma fontFaceKeyword_separators (c : code_unit) :
  In c [10%N; 34%N; 40%N; 41%N] -> ~ In c fontFaceKeyword.
Proof.
  intros Hc Hin. vm_compute in Hin. cbn [In] in Hc.
  intuition (subst; discriminate).
Qed.

Lemma count_fontFaceRule (font : LocalFont) (rest : jsstring) :
  count_sub fontFaceKeyword (name font) = 0 ->
  count_sub fontFaceKeyword (data font) = 0 ->
  count_sub fontFaceKeyword (fontFaceRule font ++ rest)
  = 1 + count_sub fontFaceKeyword
          ((lit ";" ++ newline ++ spaces 8 ++ lit "}" ++ newline ++ spaces 4) ++ rest).
Proof.
  intros Hn Hd. rewrite fontFaceRule_parts.
  pose proof fontFaceKeyword_not_empty as Hp.
  rewrite (@count_sub_separator fontFaceKeyword _ _ _ Hp (@fontFaceKeyword_separators 34%N ltac:(cbn; tauto))).
  rewrite (@count_sub_separator fontFaceKeyword _ _ _ Hp (@fontFaceKeyword_separators 34%N ltac:(cbn; tauto))).
  rewrite (@count_sub_separator fontFaceKeyword _ _ _ Hp (@fontFaceKeyword_separators 40%N ltac:(cbn; tauto))).
  rewrite (@count_sub_separator fontFaceKeyword _ _ _ Hp (@fontFaceKeyword_separators 41%N ltac:(cbn; tauto))).
  rewrite Hn, Hd. reflexivity.
Qed.

Lemma count_fontFaceRules (l : list LocalFont) :
  Forall (fun font : LocalFont =>
            count_sub fontFaceKeyword (name font) = 0 /\
            count_sub fontFaceKeyword (data font) = 0) l ->
  count_sub fontFaceKeyword (fontFaceRules l) = List.length l.
Proof.
  unfold fontFaceRules. induction l as [|font l IH]; intros H; [reflexivity|].
  inversion H as [|? ? [Hn Hd] Hl]; subst. specialize (IH Hl).
  pose proof fontFaceKeyword_not_empty as Hp.
  destruct l as [|font' l].
  - cbn [List.map join List.length].
    rewrite <- (app_nil_r (fontFaceRule font)), (@count_fontFaceRule font _ Hn Hd), app_nil_r.
    reflexivity.
  - change (join newline (List.map fontFaceRule (font :: font' :: l)))
      with (fontFaceRule font ++ 10%N :: join newline (List.map fontFaceRule (font' :: l))).
    rewrite (@count_fontFaceRule font _ Hn Hd).
    rewrite (@count_sub_separator fontFaceKeyword _ _ _ Hp (@fontFaceKeyword_separators 10%N ltac:(cbn; tauto))).
    rewrite IH. reflexivity.
Qed.

(** The rules as the template literal of the source spells them. *)
Lemma fontFaceRules_text (l : list LocalFont) :
  fontFaceRules l
  = join newline
      (List.map (fun font : LocalFont =>
                   lit "
        @font-face {
            font-family: " ++ dquote ++ name font ++ dquote ++ lit ";
            src: url(" ++ data font ++ lit ");
        }
    ") l).
Proof. reflexivity. Qed.


Lemma world3_wf : World_wf world3.
Proof.
  split.
  - repeat constructor.
  - intros n Hn. injection Hn as <-. split; [left; reflexivity|].
    eexists. split; reflexivity.
Qed.



(** ** Removing the active font *)

Lemma remove_found_unique (d : Document) (i : jsstring) (n : node) (l : list node) :
  find (has_id d i) l = Some n ->
  List.length (filter_map (elem_with_id d i) l) <= 1 ->
  filter_map (elem_with_id d i) (filter (fun m => negb (m =? n)) l) = [].
Proof.
  induction l as [|m l IH]; cbn [find filter_map filter]; [discriminate|].
  rewrite has_id_elem. destruct (elem_with_id d i m) as [e|] eqn:Hm.
  - intros Hn Hlen. injection Hn as <-. rewrite Nat.eqb_refl. cbn [negb].
    cbn in Hlen. apply filter_map_nil_filter.
    destruct (filter_map (elem_with_id d i) l); [reflexivity | cbn in Hlen; lia].
  - intros Hn Hlen. destruct (negb (m =? n)); cbn [filter_map]; rewrite ?Hm; auto.
Qed.

Lemma jquery_remove_by_id_unique (i : jsstring) (d : Document) :
  List.length (elements_with_id i d) <= 1 ->
  elements_with_id i (jquery_remove_by_id i d) = [].
Proof.
  intros Hlen. unfold jquery_remove_by_id.
  destruct (getElementById i d) as [n|] eqn:Hg.
  - unfold elements_with_id, remove_node, tree in *. cbn [head body with_tree nodes].
    rewrite <- filter_app.
    change (filter_map (elem_with_id d i)
              (filter (fun m => negb (m =? n)) (head d ++ body d)) = []).
    apply remove_found_unique; assumption.
  - apply getElementById_None. exact Hg.
Qed.

Lemma jquery_remove_by_id_detaches (i : jsstring) (d : Document) (n : node) :
  getElementById i d = Some n -> ~ In n (tree (jquery_remove_by_id i d)).
Proof.
  intros Hg Hin. unfold jquery_remove_by_id in Hin. rewrite Hg in Hin.
  unfold remove_node, tree in Hin. cbn in Hin. rewrite <- filter_app in Hin.
  apply filter_In in Hin as [_ Hne]. rewrite Nat.eqb_refl in Hne. discriminate.
Qed.

Lemma overrideStyleId_not_localDefsId : overrideStyleId <> localDefsId.
Proof. discriminate. Qed.

(** The document of [removeFont] before its active-font block, seen
    under the id of the override style. *)
Lemma removeFont_before_active_block (fontName : jsstring) (w : World) :
  World_wf w ->
  let w1 := with_settings
              (with_fonts (mkFonts (google (fonts (settings w)))
                                   (filter_not_named fontName (local (fonts (settings w)))))
                          (settings w)) w in
  let w2 := if List.length (filter_not_named fontName (local (fonts (settings w))))
               <? List.length (local (fonts (settings w)))
            then injectLocalFontStyles w1 else w1 in
  elements_with_id overrideStyleId (document w2)
  = elements_with_id overrideStyleId (document w) /\
  getElementById overrideStyleId (document w2) = getElementById overrideStyleId (document w) /\
  custom_font_family (document w2) = custom_font_family (document w).
Proof.
  intros Hwf w1 w2. subst w2. destruct (_ <? _); [|repeat split].
  assert (Hwf1 : World_wf w1) by exact Hwf.
  apply (injectLocalFontStyles_other_id Hwf1 overrideStyleId_not_localDefsId).
Qed.



Lemma world3_registry_inv : registry_inv (settings world3).
Proof.
  split.
  - unfold names_unique. vm_compute. repeat constructor; cbn; intuition discriminate.
  - intros a Ha. vm_compute in Ha. injection Ha as <-. vm_compute. auto.
Qed.

Lemma operations_preserve_registry_inv_witness :
  registry_inv (settings (addGoogleFont (lit "Roboto")
                            (lit "https://fonts.googleapis.com/css2?family=Roboto") world3)) /\
  registry_inv (settings (addLocalFont (Some (Readable (lit "data:font/ttf;base64,AAEAAAA=")))
                            (lit "Mine") world3)) /\
  registry_inv (settings (removeFont (lit "Inter") world3)) /\
  registry_inv (settings (applyFont (js_string (lit "Comic")) world3)).
Proof.
  destruct (operations_preserve_registry_inv world3 world3_registry_inv)
    as (Hg & Hl & Hr & Ha).
  split; [apply Hg | split; [apply Hl | split; [apply Hr | apply Ha]]].
Defined.

(** Between the handler's check and the completion of the read, the
    check is not repeated: [reader.onload] keeps the invariant as long as
    the name is still free when it runs. *)
Lemma reader_onload_preserves_registry_inv (n result : jsstring) (w : World) :
  known n (settings w) = false ->
  registry_inv (settings w) ->
  registry_inv (settings (reader_onload n result w)).
Proof.
  intros Hk Hinv. rewrite reader_onload_settings.
  eapply registry_inv_push; [apply all_names_push_local | reflexivity | exact Hk | exact Hinv].
Qed.

(** ** Loading the settings *)

Lemma lookup_app (k : jsstring) (a b : list (jsstring * json)) :
  lookup k (a ++ b)
  = match lookup k b with Some v => Some v | None => lookup k a end.
Proof.
  induction a as [|[k' v] a IH]; cbn [app lookup].
  - destruct (lookup k b); reflexivity.
  - rewrite IH. destruct (lookup k b); reflexivity.
Qed.

Lemma getOwn_spread (k : jsstring) (a b : json) :
  getOwn k (spread a b)
  = match getOwn k b with Some v => Some v | None => getOwn k a end.
Proof. unfold getOwn, spread. cbn [ownProps]. apply lookup_app. Qed.

Lemma getOwn_setProp (k k' : jsstring) (v o : json) :
  getOwn k (setProp k' v o) = if strict_eq k' k then Some v else getOwn k o.
Proof.
  unfold getOwn, setProp. cbn [ownProps]. rewrite lookup_app. cbn [lookup].
  destruct (strict_eq k' k); reflexivity.
Qed.

Lemma traverse_google (l : list GoogleFont) :
  traverse google_of_json (List.map json_of_google l) = Some l.
Proof.
  induction l as [|[n h] l IH]; cbn [List.map traverse]; [reflexivity|].
  rewrite IH. reflexivity.
Qed.

Lemma traverse_local (l : list LocalFont) :
  traverse local_of_json (List.map json_of_local l) = Some l.
Proof.
  induction l as [|[n h] l IH]; cbn [List.map traverse]; [reflexivity|].
  rewrite IH. reflexivity.
Qed.

Lemma settings_roundtrip (s : Settings) :
  settings_of_json (loadSettings (json_of_settings s)) = Some s.
Proof.
  destruct s as [[g l] a al o n]. unfold settings_of_json.
  set (v := loadSettings _).
  replace (getProp (lit "google") (getProp (lit "fonts") v))
    with (JArray (List.map json_of_google g)) by reflexivity.
  replace (getProp (lit "local") (getProp (lit "fonts") v))
    with (JArray (List.map json_of_local l)) by reflexivity.
  replace (getProp (lit "activeFont") v) with (json_of_activeFont a) by reflexivity.
  replace (getProp (lit "autoLoad") v) with (JBool al) by reflexivity.
  replace (getProp (lit "overrideThemeFont") v) with (JBool o) by reflexivity.
  replace (getProp (lit "notifications") v) with (JBool n) by reflexivity.
  cbn [as_array as_bool]. rewrite traverse_google, traverse_local.
  destruct a; reflexivity.
Qed.

(** C7. Whatever value [persisted] the host hands back, the loaded
    settings take each top-level field from [persisted] where it has it
    and from the defaults where it has not; their [fonts] take each
    sub-field from [persisted.fonts] where that has it and from the
    default fonts otherwise (in particular when [persisted] has no
    [fonts] at all); the defaults are empty [google] and [local],
    [activeFont] null, [autoLoad] true, [overrideThemeFont] false and
    [notifications] true.  Consequently a saved settings object loads
    back as itself. *)
Theorem loadSettings_merges_over_defaults (persisted : json) :
  (forall k,
     getOwn k (loadSettings persisted)
     = if strict_eq (lit "fonts") k
       then Some (getProp (lit "fonts") (loadSettings persisted))
       else match getOwn k persisted with
            | Some v => Some v
            | None => getOwn k defaultSettings
            end) /\
  (forall k,
     getOwn k (getProp (lit "fonts") (loadSettings persisted))
     = match getOwn k (getProp (lit "fonts") persisted) with
       | Some v => Some v
       | None => getOwn k defaultFonts
       end) /\
  (getOwn (lit "google") defaultFonts = Some (JArray []) /\
   getOwn (lit "local") defaultFonts = Some (JArray []) /\
   getOwn (lit "activeFont") defaultSettings = Some JNull /\
   getOwn (lit "autoLoad") defaultSettings = Some (JBool true) /\
   getOwn (lit "overrideThemeFont") defaultSettings = Some (JBool false) /\
   getOwn (lit "notifications") defaultSettings = Some (JBool true)) /\
  (forall s : Settings, settings_of_json (loadSettings (json_of_settings s)) = Some s).
Proof.
  assert (Hfonts : getProp (lit "fonts") (loadSettings persisted)
                   = spread defaultFonts
                       (match getOwn (lit "fonts") persisted with
                        | Some v => v
                        | None => defaultFonts
                        end)).
  { unfold loadSettings, getProp at 1. rewrite getOwn_setProp, strict_eq_refl.
    f_equal. unfold getProp. rewrite getOwn_spread.
    destruct (getOwn (lit "fonts") persisted); reflexivity. }
  split; [|split; [|split]].
  - intros k. rewrite Hfonts. unfold loadSettings. rewrite getOwn_setProp.
    destruct (strict_eq (lit "fonts") k).
    + do 2 f_equal. unfold getProp. rewrite getOwn_spread.
      destruct (getOwn (lit "fonts") persisted); reflexivity.
    + apply getOwn_spread.
  - intros k. rewrite Hfonts, getOwn_spread. unfold getProp.
    destruct (getOwn (lit "fonts") persisted) as [v|]; [reflexivity|].
    cbn [getOwn ownProps lookup]. destruct (getOwn k defaultFonts); reflexivity.
  - repeat split.
  - exact settings_roundtrip.
Qed.

Example loadSettings_nothing_persisted :
  settings_of_json (loadSettings JUndefined)
  = Some (mkSettings (mkFonts [] []) None true false true).
Proof. reflexivity. Qed.

Example loadSettings_partial :
  settings_of_json
    (loadSettings
       (JObject [ (lit "fonts", JObject [ (lit "local", JArray [json_of_local comic]) ]);
                  (lit "overrideThemeFont", JBool true) ]))
  = Some (mkSettings (mkFonts [] [comic]) None true true true).
Proof. reflexivity. Qed.

(** ** Well-formedness of the state is kept by every handler *)

Lemma carries_update_node (d : Document) (i : jsstring) (n m : node) (f : Element -> Element) :
  (forall e, elem_id (f e) = elem_id e) ->
  carries d i n -> carries (update_node m f d) i n.
Proof.
  intros Hf [Hin [e [He Hid]]]. split; [exact Hin|].
  cbn. rewrite nth_error_update_nth, He.
  destruct (n =? m); cbn; eexists; (split; [reflexivity|]); rewrite ?Hf; exact Hid.
Qed.

Lemma carries_attached (d : Document) (i : jsstring) (n : node) (e : Element) :
  carries d i n -> carries (attached e d) i n.
Proof.
  intros [Hin [e' [He Hid]]]. split.
  - unfold tree in *. cbn. rewrite in_app_iff in Hin. rewrite !in_app_iff. tauto.
  - exists e'. split; [|exact Hid]. cbn.
    rewrite nth_error_app1; [exact He|].
    apply nth_error_Some. congruence.
Qed.

Lemma carries_remove_node (d : Document) (i j : jsstring) (n m : node) :
  has_id d j m = true -> i <> j ->
  carries d i n -> carries (remove_node m d) i n.
Proof.
  intros Hm Hij [Hin [e [He Hid]]]. split; [|exists e; split; assumption].
  unfold tree, remove_node in *. cbn. rewrite <- filter_app. apply filter_In.
  split; [exact Hin|]. apply negb_true_iff, Nat.eqb_neq. intros ->.
  unfold has_id in Hm. rewrite He in Hm. apply strict_eq_true in Hm. congruence.
Qed.

Lemma carries_ensureLink (d : Document) (i : jsstring) (n : node) (font : GoogleFont) :
  carries d i n -> carries (ensureLink font d) i n.
Proof.
  intros H. destruct (getElementById (linkId (name font)) d) eqn:E.
  - rewrite ensureLink_present by congruence. exact H.
  - rewrite ensureLink_attached by exact E. apply carries_attached. exact H.
Qed.

Lemma localDefsId_not_overrideStyleId : localDefsId <> overrideStyleId.
Proof. discriminate. Qed.

Lemma World_wf_same_page (w w' : World) :
  document w' = document w -> fontStyleElement w' = fontStyleElement w ->
  World_wf w -> World_wf w'.
Proof.
  unfold World_wf, style_wf. intros -> ->. auto.
Qed.

Lemma applyFont_fontStyleElement (v : jsvalue) (w : World) :
  fontStyleElement (applyFont v w) = fontStyleElement w.
Proof.
  destruct v as [| |[|c s]]; try reflexivity.
  assert (Hne : c :: s <> []) by discriminate.
  destruct (known (c :: s) (settings w)) eqn:Hk.
  - destruct (overrideThemeFont (settings w)) eqn:Ho.
    + apply (applyFont_override_on w Hne Hk Ho).
    + apply (applyFont_override_off w Hne Hk Ho).
  - rewrite (applyFont_unknown w Hne Hk). apply notify_fontStyleElement.
Qed.

Lemma applyFont_wf (v : jsvalue) (w : World) : World_wf w -> World_wf (applyFont v w).
Proof.
  intros [Hd Hs]. split; [apply applyFont_doc_wf; exact Hd|].
  intros n Hn. rewrite applyFont_fontStyleElement in Hn. specialize (Hs n Hn).
  destruct v as [| |[|c s]]; try exact Hs.
  assert (Hne : c :: s <> []) by discriminate.
  destruct (known (c :: s) (settings w)) eqn:Hk.
  - rewrite (applyFont_document w Hne Hk). cbv zeta.
    set (d1 := match find_named _ _ with Some font => _ | None => _ end).
    assert (H1 : carries d1 localDefsId n).
    { subst d1. destruct (find_named _ _); [apply carries_ensureLink|]; exact Hs. }
    set (d2 := setProperty _ d1).
    assert (H2 : carries d2 localDefsId n) by exact H1.
    destruct (overrideThemeFont (settings w));
      destruct (getElementById overrideStyleId d2) as [m|] eqn:Hov.
    + apply carries_update_node; [reflexivity | exact H2].
    + apply carries_attached. exact H2.
    + apply getElementById_has_id in Hov as [_ Hov].
      apply (@carries_remove_node d2 localDefsId overrideStyleId n m Hov
               localDefsId_not_overrideStyleId H2).
    + exact H2.
  - rewrite (applyFont_unknown w Hne Hk), notify_document. exact Hs.
Qed.

Lemma removeFont_wf (fontName : jsstring) (w : World) :
  World_wf w -> World_wf (removeFont fontName w).
Proof.
  intros Hwf. destruct (removeFont_document fontName w) as [Hf Hd].
  set (w1 := with_settings _ w) in *.
  set (w2 := if _ <? _ then _ else _) in *.
  assert (Hwf2 : World_wf w2).
  { subst w2. destruct (_ <? _); [apply injectLocalFontStyles_wf|]; exact Hwf. }
  destruct Hwf2 as [Hd2 Hs2].
  assert (Hrem : doc_wf (jquery_remove_by_id overrideStyleId (removeProperty (document w2)))
                 /\ forall n, carries (document w2) localDefsId n ->
                      carries (jquery_remove_by_id overrideStyleId
                                 (removeProperty (document w2))) localDefsId n).
  { unfold jquery_remove_by_id.
    destruct (getElementById overrideStyleId (removeProperty (document w2))) as [m|] eqn:Hov.
    - apply getElementById_has_id in Hov as [_ Hov]. split.
      + apply remove_node_doc_wf. exact Hd2.
      + intros n Hn.
        apply (@carries_remove_node _ localDefsId overrideStyleId n m Hov
                 localDefsId_not_overrideStyleId Hn).
    - split; [exact Hd2 | auto]. }
  destruct Hrem as [Hrd Hrc].
  split.
  - rewrite Hd. destruct (activeFont (settings w)) as [a|]; [destruct (strict_eq a fontName)|];
      assumption.
  - intros n Hn. rewrite Hf in Hn. specialize (Hs2 n Hn). rewrite Hd.
    destruct (activeFont (settings w)) as [a|]; [destruct (strict_eq a fontName)|]; auto.
Qed.

Lemma addGoogleFont_wf (name_field link_field : jsstring) (w : World) :
  World_wf w -> World_wf (addGoogleFont name_field link_field w).
Proof.
  apply World_wf_same_page; unfold addGoogleFont;
    destruct (is_empty _ || is_empty _); world_simpl; try reflexivity;
    destruct (some_named _ _ || some_named _ _); world_simpl; try reflexivity;
    destruct (negb _); world_simpl; reflexivity.
Qed.

Lemma addLocalFont_wf (file : option File) (name_field : jsstring) (w : World) :
  World_wf w -> World_wf (addLocalFont file name_field w).
Proof.
  intros Hwf. unfold addLocalFont, handleLocalFontFile.
  destruct file as [f|]; [|exact Hwf].
  destruct (is_empty (trim name_field)).
  { revert Hwf. apply World_wf_same_page; world_simpl; reflexivity. }
  destruct (some_named _ _ || some_named _ _).
  { revert Hwf. apply World_wf_same_page; world_simpl; reflexivity. }
  destruct f as [result|]; cbn [reader_complete].
  - unfold reader_onload.
    set (w1 := with_settings _ w).
    assert (Hwf1 : World_wf (injectLocalFontStyles w1))
      by (apply injectLocalFontStyles_wf; exact Hwf).
    revert Hwf1. apply World_wf_same_page; world_simpl; reflexivity.
  - revert Hwf. apply World_wf_same_page; unfold reader_onerror; world_simpl; reflexivity.
Qed.

(** A page the extension has not touched yet is well formed as soon as
    its tree only mentions elements it has. *)
Lemma fresh_page_wf (s : Settings) (d : Document) (t : list Event) :
  doc_wf d -> World_wf (mkWorld s None d t).
Proof. intros Hd. split; [exact Hd | intros n Hn; discriminate]. Qed.

(** ** The gap between the check and the read *)

(** Whenever the name has been registered since the check,
    [reader.onload] leaves it registered twice. *)
Lemma reader_onload_duplicates_known_name (n result : jsstring) (w : World) :
  known n (settings w) = true -> ~ names_unique (settings (reader_onload n result w)).
Proof.
  intros Hk Hu. rewrite reader_onload_settings in Hu. unfold names_unique in Hu.
  apply (Permutation_NoDup (Permutation_sym (all_names_push_local (mkLocalFont n result) _)))
    in Hu.
  inversion Hu as [|x l Hn _]. apply Hn. apply known_In. exact Hk.
Qed.

(** C2, as the code has it.  [handleLocalFontFile] checks the name when
    the file is chosen, and [reader.onload] appends the entry when the
    read completes, without looking at the lists again.  On a fresh page:
    a file is chosen under the name Lato, which is free, so a read
    starts; before it completes the remote font Lato is added, which is
    accepted as the name is still free; then the read completes.  The
    invariant holds at the start and after each of the two handlers, and
    the completion leaves Lato registered twice, once in each sequence. *)
Theorem read_completion_registers_duplicate :
  let file := Readable (lit "data:font/ttf;base64,AAEAAAA=") in
  let started := handleLocalFontFile (Some file) (lit "Lato") world0 in
  let w1 := addGoogleFont (lit "Lato") (lit "https://fonts.googleapis.com/css?family=Lato")
                          (fst started) in
  let w2 := reader_complete (lit "Lato", file) w1 in
  registry_inv (settings world0) /\
  started = (world0, Some (lit "Lato", file)) /\
  registry_inv (settings w1) /\
  List.map name (google (fonts (settings w2))) = [lit "Lato"] /\
  List.map name (local (fonts (settings w2))) = [lit "Lato"] /\
  ~ names_unique (settings w2).
Proof.
  cbv zeta. split; [|split; [reflexivity|split; [|split; [reflexivity|split; [reflexivity|]]]]].
  - split; [constructor | intros a Ha; discriminate].
  - split; [|intros a Ha; discriminate].
    unfold names_unique. vm_compute. repeat constructor. cbn. tauto.
  - unfold names_unique. intros Hu.
    assert (E : all_names
                  (settings
                     (reader_complete
                        (lit "Lato", Readable (lit "data:font/ttf;base64,AAEAAAA="))
                        (addGoogleFont (lit "Lato")
                           (lit "https://fonts.googleapis.com/css?family=Lato")
                           (fst (handleLocalFontFile
                                   (Some (Readable (lit "data:font/ttf;base64,AAEAAAA=")))
                                   (lit "Lato") world0)))))
                = [lit "Lato"; lit "Lato"]) by reflexivity.
    rewrite E in Hu. inversion Hu as [|x l Hn _]. apply Hn. left. reflexivity.
Qed.

(** ** A run from an empty configuration *)

(** From nothing: switch the theme override on, register Inter, apply
    it.  The font is appended and becomes active, its stylesheet link and
    the override style are the two elements of the head, the custom
    property carries the name with the fallback stack, and the override
    style holds the rule over the fixed selectors. *)
Example register_then_apply :
  let w1 := on_override_theme_font true world0 in
  let w2 := addGoogleFont (lit "Inter")
              (lit "https://fonts.googleapis.com/css?family=Inter") w1 in
  let w3 := applyFont (js_string (lit "Inter")) w2 in
  google (fonts (settings w2)) = [inter] /\
  activeFont (settings w3) = Some (lit "Inter") /\
  custom_font_family (document w3)
  = Some (dquote ++ lit "Inter" ++ dquote ++ lit ", 'Noto Color Emoji', sans-serif") /\
  List.map (fun n => nth_error (nodes (document w3)) n) (head (document w3))
  = [ Some (linkElementFor inter);
      Some (mkElement StyleTag overrideStyleId [] [] overrideRule) ] /\
  trace w3 = [ SaveSettings;
               SaveSettings; Toast success (lit "Added Google Font: Inter"); RenderFontList;
               SetVal google_font_name []; SetVal google_font_link [];
               SaveSettings; Toast success (lit "Applied font: Inter") ].
Proof. vm_compute. repeat split. Qed.

(* ================================================================== *)
(** * Part III: further properties of the handlers                     *)
(* ================================================================== *)

(** ** Adding a remote font *)

Lemma startsWith_prefix_not_empty (l : jsstring) :
  startsWith l googleApiPrefix = true -> is_empty l = false.
Proof. destruct l; [discriminate | reflexivity]. Qed.

Lemma is_empty_false (l : jsstring) : l <> [] -> is_empty l = false.
Proof. destruct l; [congruence | reflexivity]. Qed.

Lemma addGoogleFont_accepted (w : World) (name_field link_field : jsstring) :
  trim name_field <> [] ->
  known (trim name_field) (settings w) = false ->
  startsWith (trim link_field) googleApiPrefix = true ->
  addGoogleFont name_field link_field w
  = emit (SetVal google_font_link [])
      (emit (SetVal google_font_name [])
         (renderFontList
            (notify (lit "Added Google Font: " ++ trim name_field) success
               (saveSettingsDebounced
                  (with_settings
                     (push_google (mkGoogleFont (trim name_field) (trim link_field))
                                  (settings w)) w))))).
Proof.
  intros Hn Hk Hl. unfold addGoogleFont. unfold known in Hk.
  rewrite (is_empty_false Hn), (startsWith_prefix_not_empty _ Hl), Hk, Hl.
  reflexivity.
Qed.



(** X2. An empty name or link (white space only counts as empty), and a
    link that does not start with the API prefix, are refused: the
    settings, the document and [fontStyleElement] stay as they are and
    the only call made is [notify] with type [error]; the message is the
    one about required fields in the first case, and for a fresh name
    the one about the link in the second. *)
Theorem addGoogleFont_refuses_bad_input (w : World) (name_field link_field : jsstring) :
  is_empty (trim name_field) || is_empty (trim link_field)
  || negb (startsWith (trim link_field) googleApiPrefix) = true ->
  let w' := addGoogleFont name_field link_field w in
  settings w' = settings w /\
  document w' = document w /\
  fontStyleElement w' = fontStyleElement w /\
  (exists message, trace w' = trace w ++ shown (settings w) error message) /\
  (is_empty (trim name_field) || is_empty (trim link_field) = true ->
   trace w' = trace w ++ shown (settings w) error
                (lit "Both name and link are required for Google Fonts.")) /\
  (is_empty (trim name_field) || is_empty (trim link_field) = false ->
   known (trim name_field) (settings w) = false ->
   trace w' = trace w ++ shown (settings w) error
                (lit "Please use a valid Google Fonts API link.")).
Proof.
  intros Hbad w'. subst w'. unfold addGoogleFont, known.
  destruct (is_empty (trim name_field) || is_empty (trim link_field)) eqn:He.
  - world_simpl. repeat split; try reflexivity; try discriminate.
    eexists; reflexivity.
  - rewrite orb_false_l in Hbad. rewrite Hbad.
    destruct (some_named _ _ || some_named _ _) eqn:Hk; world_simpl;
      repeat split; try reflexivity; try discriminate; eexists; reflexivity.
Qed.

Lemma addGoogleFont_refuses_bad_input_witness :
  settings (addGoogleFont (lit "Lato") (lit "https://example.org/lato.css") world1)
  = settings world1 /\
  trace (addGoogleFont (lit "   ") (link lato) world1)
  = [Toast error (lit "Both name and link are required for Google Fonts.")].
Proof.
  split.
  - destruct (addGoogleFont_refuses_bad_input world1 (lit "Lato")
                (lit "https://example.org/lato.css") eq_refl) as [Hs _].
    exact Hs.
  - destruct (addGoogleFont_refuses_bad_input world1 (lit "   ") (link lato) eq_refl)
      as (_ & _ & _ & _ & Ht & _).
    exact (Ht eq_refl).
Defined.

(** ** Adding a local font *)

Lemma addLocalFont_started (w : World) (file : File) (name_field : jsstring) :
  trim name_field <> [] ->
  known (trim name_field) (settings w) = false ->
  handleLocalFontFile (Some file) name_field w = (w, Some (trim name_field, file)).
Proof.
  intros Hn Hk. unfold handleLocalFontFile. unfold known in Hk.
  rewrite (is_empty_false Hn), Hk. reflexivity.
Qed.

Lemma styleContent_same_page (w w' : World) :
  document w' = document w -> fontStyleElement w' = fontStyleElement w ->
  styleContent w' = styleContent w.
Proof. unfold styleContent. intros -> ->. reflexivity. Qed.

Lemma reader_onload_page (n result : jsstring) (w : World) :
  let w1 := with_settings (push_local (mkLocalFont n result) (settings w)) w in
  document (reader_onload n result w) = document (injectLocalFontStyles w1) /\
  fontStyleElement (reader_onload n result w) = fontStyleElement (injectLocalFontStyles w1).
Proof. unfold reader_onload. world_simpl. split; reflexivity. Qed.

Lemma reader_onload_trace (n result : jsstring) (w : World) :
  trace (reader_onload n result w)
  = trace w ++ [SaveSettings]
      ++ shown (settings w) success (lit "Added local font: " ++ n)
      ++ [RenderFontList; SetVal local_font_name [];
          FilenameDisplay (lit "No file selected.") []; SetVal local_font_file []].
Proof.
  unfold reader_onload. world_simpl. unfold shown. cbn. rewrite <- !app_assoc.
  destruct (notifications (settings w)); reflexivity.
Qed.

Lemma reader_onload_content (n result : jsstring) (w : World) :
  World_wf w ->
  styleContent (reader_onload n result w)
  = Some (fontFaceRules (local (fonts (settings w)) ++ [mkLocalFont n result])).
Proof.
  intros Hwf. destruct (reader_onload_page n result w) as [Hd Hf].
  rewrite (styleContent_same_page _ _ Hd Hf).
  set (w1 := with_settings _ w).
  assert (Hwf1 : World_wf w1) by exact Hwf.
  exact (injectLocalFontStyles_content Hwf1).
Qed.

(** X3. A readable file chosen under a non-empty fresh name is added
    once its read completes: the entry, made of the trimmed name and the
    data URL read, is appended to the local sequence, the remote
    sequence is untouched, and the embedded style block is rebuilt from
    the new sequence; the settings are saved, a success toast is shown,
    the list is rendered again and the name field, the filename display
    and the file input are reset, in this order. *)
Theorem addLocalFont_appends (w : World) (name_field result : jsstring) :
  World_wf w ->
  trim name_field <> [] ->
  known (trim name_field) (settings w) = false ->
  let w' := addLocalFont (Some (Readable result)) name_field w in
  let entry := mkLocalFont (trim name_field) result in
  local (fonts (settings w')) = local (fonts (settings w)) ++ [entry] /\
  google (fonts (settings w')) = google (fonts (settings w)) /\
  activeFont (settings w') = activeFont (settings w) /\
  styleContent w' = Some (fontFaceRules (local (fonts (settings w)) ++ [entry])) /\
  trace w' = trace w ++ [SaveSettings]
               ++ shown (settings w) success (lit "Added local font: " ++ trim name_field)
               ++ [RenderFontList; SetVal local_font_name [];
                   FilenameDisplay (lit "No file selected.") []; SetVal local_font_file []].
Proof.
  intros Hwf Hn Hk w' entry. subst w'. unfold addLocalFont.
  rewrite (addLocalFont_started w (Readable result) _ Hn Hk). cbn [reader_complete].
  rewrite reader_onload_settings.
  split; [reflexivity|]. split; [reflexivity|]. split; [reflexivity|].
  split; [apply (reader_onload_content _ _ Hwf) | apply reader_onload_trace].
Qed.

Lemma world1_wf : World_wf world1.
Proof. apply fresh_page_wf. constructor. Qed.

Lemma addLocalFont_appends_witness :
  List.map name
    (local (fonts (settings (addLocalFont (Some (Readable (lit "data:font/ttf;base64,AAEAAAA=")))
                               (lit " Mine ") world1))))
  = [lit "Comic"; lit "Mine"].
Proof.
  assert (Hn : trim (lit " Mine ") <> []) by discriminate.
  assert (Hk : known (trim (lit " Mine ")) (settings world1) = false) by reflexivity.
  destruct (addLocalFont_appends (lit " Mine ") (lit "data:font/ttf;base64,AAEAAAA=")
              world1_wf Hn Hk) as [Hl _].
  rewrite Hl. reflexivity.
Defined.

(** X4. When the read of the chosen file fails, nothing is added: the
    settings and the document are what they were, [notify] is called
    with type [error] and the message about the failed read, and the
    filename display then shows the read error in red. *)
Theorem addLocalFont_read_failure (w : World) (name_field : jsstring) :
  trim name_field <> [] ->
  known (trim name_field) (settings w) = false ->
  let w' := addLocalFont (Some Unreadable) name_field w in
  settings w' = settings w /\
  document w' = document w /\
  fontStyleElement w' = fontStyleElement w /\
  trace w' = trace w ++ shown (settings w) error (lit "Failed to read font file.")
               ++ [FilenameDisplay (lit "File read error.") red].
Proof.
  intros Hn Hk w'. subst w'. unfold addLocalFont.
  rewrite (addLocalFont_started w Unreadable _ Hn Hk). cbn [reader_complete].
  unfold reader_onerror. world_simpl. rewrite <- app_assoc. repeat split.
Qed.

Lemma addLocalFont_read_failure_witness :
  trace (addLocalFont (Some Unreadable) (lit "Mine") world1)
  = [Toast error (lit "Failed to read font file.");
     FilenameDisplay (lit "File read error.") red].
Proof.
  assert (Hn : trim (lit "Mine") <> []) by discriminate.
  assert (Hk : known (trim (lit "Mine")) (settings world1) = false) by reflexivity.
  destruct (addLocalFont_read_failure world1 (lit "Mine") Hn Hk) as (_ & _ & _ & Ht).
  exact Ht.
Defined.

(** ** The filename display *)

Lemma filenameShown_last (t : list Event) (text color : jsstring) :
  filenameShown (t ++ [FilenameDisplay text color]) = Some (text, color).
Proof. unfold filenameShown. rewrite fold_left_app. reflexivity. Qed.

(** X5. After a [change] of the file input the filename display shows
    the name of the first file, or "No file selected." when there is
    none, in the default colour, whatever the name check said: the red
    message of a refused name is written first and replaced at once by
    the second listener.  The settings and the document are untouched,
    and a read is started exactly when [handleLocalFontFile] starts one. *)
Theorem local_font_file_change_display
  (w : World) (files : list NamedFile) (name_field : jsstring) :
  let result := local_font_file_change files name_field w in
  filenameShown (trace (fst result))
  = Some (match files with (file_name, _) :: _ => file_name
                      | [] => lit "No file selected." end, []) /\
  settings (fst result) = settings w /\
  document (fst result) = document w /\
  snd result = snd (handleLocalFontFile (option_map snd (hd_error files)) name_field w).
Proof.
  cbv zeta. unfold local_font_file_change.
  destruct (handleLocalFontFile (option_map snd (hd_error files)) name_field w)
    as [w1 started] eqn:Hh.
  cbn [fst snd]. unfold filenameListener. cbn [trace emit settings document].
  split; [apply filenameShown_last|].
  unfold handleLocalFontFile in Hh.
  destruct (option_map snd (hd_error files)); [|injection Hh as <- <-; repeat split].
  destruct (is_empty (trim name_field));
    [injection Hh as <- <-; world_simpl; repeat split|].
  destruct (some_named _ _ || some_named _ _);
    injection Hh as <- <-; world_simpl; repeat split.
Qed.

(** The refused name leaves no trace on the display. *)
Example refused_name_message_is_overwritten :
  let result := local_font_file_change [(lit "comic.woff2", Readable (lit "data:,"))]
                                       (lit "Comic") world1 in
  trace (fst result)
  = [FilenameDisplay (lit "Name already exists.") red;
     Toast error (alreadyExists (lit "Comic"));
     FilenameDisplay (lit "comic.woff2") []] /\
  snd result = None.
Proof. split; reflexivity. Qed.

(** ** Removing a font, and adding then removing *)

Lemma some_named_filter_other {A} `{Named A} (n m : jsstring) (l : list A) :
  n <> m -> some_named n (filter_not_named m l) = some_named n l.
Proof.
  intros Hne. unfold some_named, filter_not_named.
  induction l as [|f l IH]; cbn [filter existsb]; [reflexivity|].
  destruct (strict_eq (name f) m) eqn:Em; cbn [negb existsb].
  - apply strict_eq_true in Em.
    assert (En : strict_eq (name f) n = false) by (apply strict_eq_false; congruence).
    rewrite En. exact IH.
  - rewrite IH. reflexivity.
Qed.

(** X6. After [removeFont], the name is in neither sequence any more,
    even if several entries bore it; each sequence is the old one
    without the entries of that name, the others staying in their
    order, so every other name is known exactly if it was. *)
Theorem removeFont_forgets_name (w : World) (fontName : jsstring) :
  let w' := removeFont fontName w in
  known fontName (settings w') = false /\
  google (fonts (settings w')) = filter_not_named fontName (google (fonts (settings w))) /\
  local (fonts (settings w')) = filter_not_named fontName (local (fonts (settings w))) /\
  (forall n, n <> fontName -> known n (settings w') = known n (settings w)).
Proof.
  cbv zeta. rewrite removeFont_settings. cbv zeta. unfold known. cbn [fonts google local].
  split; [|split; [reflexivity|split; [reflexivity|]]].
  - rewrite !some_named_filter_not_named. reflexivity.
  - intros n Hn. rewrite !some_named_filter_other by exact Hn. reflexivity.
Qed.

Lemma filter_not_named_app {A} `{Named A} (n : jsstring) (l1 l2 : list A) :
  filter_not_named n (l1 ++ l2) = filter_not_named n l1 ++ filter_not_named n l2.
Proof. unfold filter_not_named. apply filter_app. Qed.

Lemma removeFont_undoes_push (w w0 : World) (n : jsstring) (g : list GoogleFont) (l : list LocalFont) :
  known n (settings w0) = false ->
  active_known (settings w0) ->
  filter_not_named n g = google (fonts (settings w0)) ->
  filter_not_named n l = local (fonts (settings w0)) ->
  settings w = with_fonts (mkFonts g l) (settings w0) ->
  settings (removeFont n w) = settings w0.
Proof.
  intros Hk Hact Hg Hl Hs. rewrite removeFont_settings, Hs. cbv zeta.
  cbn [with_fonts fonts google local activeFont autoLoad overrideThemeFont notifications].
  rewrite Hg, Hl.
  assert (Ha : match activeFont (settings w0) with
               | Some a => if strict_eq a n then None else Some a
               | None => None
               end = activeFont (settings w0)).
  { destruct (activeFont (settings w0)) as [a|] eqn:Ea; [|reflexivity].
    destruct (strict_eq a n) eqn:E; [|reflexivity].
    apply strict_eq_true in E. subst a.
    apply known_not_In in Hk. elim Hk. apply Hact. exact Ea. }
  rewrite Ha. destruct (settings w0) as [[g0 l0] a0 al0 o0 n0]. reflexivity.
Qed.

(** X7. Adding a font and removing it again gives back the settings one
    started from, for a remote font and for a local one alike, provided
    the add was accepted and the active font, if any, is a registered
    one. *)
Theorem add_then_remove_restores_settings
  (w : World) (name_field link_field result : jsstring) :
  trim name_field <> [] ->
  known (trim name_field) (settings w) = false ->
  active_known (settings w) ->
  (startsWith (trim link_field) googleApiPrefix = true ->
   settings (removeFont (trim name_field) (addGoogleFont name_field link_field w))
   = settings w) /\
  settings (removeFont (trim name_field)
              (addLocalFont (Some (Readable result)) name_field w))
  = settings w.
Proof.
  intros Hn Hk Hact.
  pose proof Hk as Hk'. unfold known in Hk'. apply orb_false_iff in Hk' as [Hkg Hkl].
  split.
  - intros Hl.
    apply (@removeFont_undoes_push _ w (trim name_field)
             (google (fonts (settings w)) ++ [mkGoogleFont (trim name_field) (trim link_field)])
             (local (fonts (settings w))) Hk Hact).
    + rewrite filter_not_named_app, (filter_not_named_absent _ _ Hkg).
      unfold filter_not_named. cbn. rewrite strict_eq_refl. cbn. apply app_nil_r.
    + apply (filter_not_named_absent _ _ Hkl).
    + rewrite (addGoogleFont_accepted w _ _ Hn Hk Hl). world_simpl. reflexivity.
  - apply (@removeFont_undoes_push _ w (trim name_field)
             (google (fonts (settings w)))
             (local (fonts (settings w)) ++ [mkLocalFont (trim name_field) result]) Hk Hact).
    + apply (filter_not_named_absent _ _ Hkg).
    + rewrite filter_not_named_app, (filter_not_named_absent _ _ Hkl).
      unfold filter_not_named. cbn. rewrite strict_eq_refl. cbn. apply app_nil_r.
    + unfold addLocalFont. rewrite (addLocalFont_started w (Readable result) _ Hn Hk).
      cbn [reader_complete]. apply reader_onload_settings.
Qed.

Lemma add_then_remove_restores_settings_witness :
  settings (removeFont (lit "Lato") (addGoogleFont (lit "Lato ") (link lato) world1))
  = settings world1.
Proof.
  assert (Hn : trim (lit "Lato ") <> []) by discriminate.
  assert (Hk : known (trim (lit "Lato ")) (settings world1) = false) by reflexivity.
  assert (Ha : active_known (settings world1)) by (intros a Ha; discriminate).
  destruct (add_then_remove_restores_settings world1 (lit "Lato ") (link lato) [] Hn Hk Ha)
    as [Hg _].
  exact (Hg eq_refl).
Defined.

(** ** The override style and the custom property *)

Lemma has_id_update_node (d : Document) (i : jsstring) (n m : node) (f : Element -> Element) :
  (forall e, elem_id (f e) = elem_id e) ->
  has_id (update_node n f d) i m = has_id d i m.
Proof.
  intros Hf. unfold has_id. cbn. rewrite nth_error_update_nth.
  destruct (m =? n); [|reflexivity].
  destruct (nth_error (nodes d) m); cbn; [rewrite Hf|]; reflexivity.
Qed.

Lemma getElementById_update_node (d : Document) (i : jsstring) (n : node) (f : Element -> Element) :
  (forall e, elem_id (f e) = elem_id e) ->
  getElementById i (update_node n f d) = getElementById i d.
Proof.
  intros Hf. unfold getElementById. cbn.
  apply find_ext_in. intros m _. apply has_id_update_node. exact Hf.
Qed.

Lemma elements_with_id_update_node_length
  (d : Document) (i : jsstring) (n : node) (f : Element -> Element) :
  (forall e, elem_id (f e) = elem_id e) ->
  List.length (elements_with_id i (update_node n f d)) = List.length (elements_with_id i d).
Proof.
  intros Hf. unfold elements_with_id.
  change (tree (update_node n f d)) with (tree d).
  induction (tree d) as [|m l IH]; cbn [filter_map]; [reflexivity|].
  pose proof (has_id_update_node d i n m f Hf) as Hm. rewrite !has_id_elem in Hm.
  destruct (elem_with_id (update_node n f d) i m), (elem_with_id d i m);
    try discriminate; cbn [List.length]; rewrite IH; reflexivity.
Qed.

(** The link block of [applyFont] is invisible under the override id. *)
Lemma link_block_override (w : World) (fontName : jsstring) :
  doc_wf (document w) ->
  let d1 := match find_named fontName (google (fonts (settings w))) with
            | Some font => ensureLink font (document w)
            | None => document w
            end in
  doc_wf d1 /\
  elements_with_id overrideStyleId d1 = elements_with_id overrideStyleId (document w) /\
  getElementById overrideStyleId d1 = getElementById overrideStyleId (document w) /\
  custom_font_family d1 = custom_font_family (document w).
Proof.
  intros Hwf d1. subst d1.
  destruct (find_named fontName (google (fonts (settings w)))) as [font|];
    [|repeat split; exact Hwf].
  split; [apply ensureLink_doc_wf; exact Hwf|].
  destruct (getElementById (linkId (name font)) (document w)) eqn:E.
  - rewrite ensureLink_present by congruence. repeat split.
  - rewrite ensureLink_attached by exact E.
    destruct (@attached_other_id (linkElementFor font) (document w) overrideStyleId Hwf)
      as [He Hg]; [apply linkId_not_override|].
    repeat split; assumption.
Qed.

Lemma applyFont_override_on_document (w : World) (fontName : jsstring) :
  doc_wf (document w) ->
  fontName <> [] ->
  known fontName (settings w) = true ->
  overrideThemeFont (settings w) = true ->
  let w' := applyFont (js_string fontName) w in
  custom_font_family (document w') = Some (fontFamilyValue fontName) /\
  (exists e, overrideStyle (document w') = Some e /\
             elem_id e = overrideStyleId /\ innerHTML e = overrideRule) /\
  (getElementById overrideStyleId (document w) = None ->
   elements_with_id overrideStyleId (document w')
   = [mkElement StyleTag overrideStyleId [] [] overrideRule]) /\
  (forall n, getElementById overrideStyleId (document w) = Some n ->
             getElementById overrideStyleId (document w') = Some n) /\
  List.length (elements_with_id overrideStyleId (document w'))
  = Nat.max 1 (List.length (elements_with_id overrideStyleId (document w))).
Proof.
  intros Hwf Hne Hk Ho w'. subst w'.
  rewrite (applyFont_document w Hne Hk), Ho. cbv zeta.
  destruct (link_block_override w fontName Hwf) as (Hwf1 & He1 & Hg1 & _).
  set (d1 := match find_named _ _ with Some font => _ | None => _ end) in *.
  set (d2 := setProperty (fontFamilyValue fontName) d1).
  assert (Hwf2 : doc_wf d2) by exact Hwf1.
  change (elements_with_id overrideStyleId d1)
    with (elements_with_id overrideStyleId d2) in He1.
  change (getElementById overrideStyleId d1)
    with (getElementById overrideStyleId d2) in Hg1.
  rewrite <- He1, <- Hg1.
  set (f := fun e => mkElement (tagName e) (elem_id e) (rel e) (href e) overrideRule).
  destruct (getElementById overrideStyleId d2) as [n|] eqn:Hov.
  - change (set_innerHTML n overrideRule d2) with (update_node n f d2).
    assert (Hg : getElementById overrideStyleId (update_node n f d2) = Some n)
      by (rewrite getElementById_update_node by reflexivity; exact Hov).
    apply getElementById_has_id in Hov as [_ Hov]. unfold has_id in Hov.
    destruct (nth_error (nodes d2) n) as [e|] eqn:En; [|discriminate].
    apply strict_eq_true in Hov.
    split; [reflexivity|]. split; [|split; [discriminate|split]].
    + exists (f e). unfold overrideStyle. rewrite Hg. cbn [nodes update_node with_nodes].
      rewrite nth_error_update_nth, Nat.eqb_refl, En. repeat split. exact Hov.
    + intros m Hm. injection Hm as <-. exact Hg.
    + rewrite elements_with_id_update_node_length by reflexivity.
      assert (Hpos : elements_with_id overrideStyleId d2 <> []).
      { intros Hnil. apply getElementById_None in Hnil.
        unfold getElementById in Hnil. apply find_none with (x := n) in Hnil.
        - unfold has_id in Hnil. rewrite En in Hnil.
          apply strict_eq_false in Hnil. congruence.
        - unfold getElementById in Hg. cbn in Hg. apply find_some in Hg. apply Hg. }
      destruct (elements_with_id overrideStyleId d2); [congruence | cbn; lia].
  - set (e0 := mkElement StyleTag overrideStyleId [] [] overrideRule).
    assert (Hfresh : elements_with_id overrideStyleId (attached e0 d2) = [e0])
      by (apply (@attached_fresh_id e0 d2 Hwf2 Hov)).
    split; [reflexivity|]. split; [|split; [|split]].
    + exists e0. unfold overrideStyle.
      rewrite (getElementById_attached e0 overrideStyleId Hwf2).
      unfold getElementById, tree in Hov. rewrite find_app_split in Hov.
      destruct (find (has_id d2 overrideStyleId) (head d2)); [discriminate|].
      cbn [elem_id e0]. rewrite strict_eq_refl. cbn [attached nodes].
      rewrite nth_error_app2 by lia. rewrite Nat.sub_diag. repeat split.
    + intros _. exact Hfresh.
    + discriminate.
    + rewrite Hfresh. apply getElementById_None in Hov. rewrite Hov. reflexivity.
Qed.

Lemma applyFont_override_off_document (w : World) (fontName : jsstring) :
  doc_wf (document w) ->
  fontName <> [] ->
  known fontName (settings w) = true ->
  overrideThemeFont (settings w) = false ->
  let w' := applyFont (js_string fontName) w in
  custom_font_family (document w') = Some (fontFamilyValue fontName) /\
  (forall n, getElementById overrideStyleId (document w) = Some n ->
             ~ In n (tree (document w'))) /\
  (override_unique (document w) ->
   elements_with_id overrideStyleId (document w') = []) /\
  List.length (elements_with_id overrideStyleId (document w'))
  <= List.length (elements_with_id overrideStyleId (document w)).
Proof.
  intros Hwf Hne Hk Ho w'. subst w'.
  rewrite (applyFont_document w Hne Hk), Ho. cbv zeta.
  destruct (link_block_override w fontName Hwf) as (Hwf1 & He1 & Hg1 & _).
  set (d1 := match find_named _ _ with Some font => _ | None => _ end) in *.
  set (d2 := setProperty (fontFamilyValue fontName) d1).
  change (elements_with_id overrideStyleId d1)
    with (elements_with_id overrideStyleId d2) in He1.
  change (getElementById overrideStyleId d1)
    with (getElementById overrideStyleId d2) in Hg1.
  change (match getElementById overrideStyleId d2 with
          | Some n => remove_node n d2
          | None => d2
          end) with (jquery_remove_by_id overrideStyleId d2).
  rewrite <- He1, <- Hg1.
  split; [unfold jquery_remove_by_id; destruct (getElementById _ _); reflexivity|].
  split; [intros n Hn; apply jquery_remove_by_id_detaches; exact Hn|].
  split; [intros Hu; apply jquery_remove_by_id_unique; rewrite He1; exact Hu|].
  unfold jquery_remove_by_id. destruct (getElementById overrideStyleId d2) as [n|]; [|lia].
  unfold elements_with_id, remove_node, tree. cbn [nodes head body with_tree].
  rewrite <- filter_app.
  change (List.length (filter_map (elem_with_id d2 overrideStyleId)
                         (filter (fun m => negb (m =? n)) (head d2 ++ body d2)))
          <= List.length (filter_map (elem_with_id d2 overrideStyleId) (head d2 ++ body d2))).
  induction (head d2 ++ body d2) as [|m l IH]; cbn [filter filter_map]; [lia|].
  destruct (negb (m =? n)); cbn [filter_map];
    destruct (elem_with_id d2 overrideStyleId m); cbn [List.length]; lia.
Qed.

(** X8. With the theme override on, applying a registered font makes it
    the active font, saves the settings and shows a success toast, sets
    the custom property to the quoted name followed by the fallback
    stack, and leaves the element found under the override style's id
    holding the rule over the fixed selectors: an existing element is
    rewritten in place, and when there was none exactly one is created. *)
Theorem applyFont_with_override (w : World) (fontName : jsstring) :
  doc_wf (document w) ->
  fontName <> [] ->
  known fontName (settings w) = true ->
  overrideThemeFont (settings w) = true ->
  let w' := applyFont (js_string fontName) w in
  activeFont (settings w') = Some fontName /\
  fonts (settings w') = fonts (settings w) /\
  trace w' = trace w ++ [SaveSettings]
               ++ shown (settings w) success (lit "Applied font: " ++ fontName) /\
  custom_font_family (document w')
  = Some (dquote ++ fontName ++ dquote ++ lit ", 'Noto Color Emoji', sans-serif") /\
  (exists e, overrideStyle (document w') = Some e /\
             elem_id e = overrideStyleId /\ innerHTML e = overrideRule) /\
  (getElementById overrideStyleId (document w) = None ->
   elements_with_id overrideStyleId (document w')
   = [mkElement StyleTag overrideStyleId [] [] overrideRule]) /\
  (forall n, getElementById overrideStyleId (document w) = Some n ->
             getElementById overrideStyleId (document w') = Some n).
Proof.
  intros Hwf Hne Hk Ho w'. subst w'.
  destruct (applyFont_override_on w Hne Hk Ho) as (Hs & _ & Ht).
  destruct (applyFont_override_on_document w Hwf Hne Hk Ho) as (Hc & He & Hnew & Hold & _).
  rewrite Hs. repeat split; try assumption.
Qed.

Lemma world2_injected_wf : doc_wf (document (injectLocalFontStyles world2)).
Proof. repeat constructor. Qed.

Lemma applyFont_with_override_witness :
  elements_with_id overrideStyleId (document world3)
  = [mkElement StyleTag overrideStyleId [] [] overrideRule].
Proof.
  assert (Hne : lit "Inter" <> []) by discriminate.
  destruct (applyFont_with_override (injectLocalFontStyles world2) world2_injected_wf
              Hne eq_refl eq_refl) as (_ & _ & _ & _ & _ & Hnew & _).
  exact (Hnew eq_refl).
Defined.

(** X9. With the theme override off, applying a registered font still
    sets the custom property, and detaches the element found under the
    override style's id, so that no override style is left when there
    was at most one. *)
Theorem applyFont_without_override (w : World) (fontName : jsstring) :
  doc_wf (document w) ->
  fontName <> [] ->
  known fontName (settings w) = true ->
  overrideThemeFont (settings w) = false ->
  let w' := applyFont (js_string fontName) w in
  custom_font_family (document w')
  = Some (dquote ++ fontName ++ dquote ++ lit ", 'Noto Color Emoji', sans-serif") /\
  (forall n, getElementById overrideStyleId (document w) = Some n ->
             ~ In n (tree (document w'))) /\
  (override_unique (document w) ->
   elements_with_id overrideStyleId (document w') = [] /\
   overrideStyle (document w') = None).
Proof.
  intros Hwf Hne Hk Ho w'. subst w'.
  destruct (applyFont_override_off_document w Hwf Hne Hk Ho) as (Hc & Hdet & Hnone & _).
  split; [exact Hc|]. split; [exact Hdet|].
  intros Hu. specialize (Hnone Hu). split; [exact Hnone|].
  unfold overrideStyle. apply getElementById_None in Hnone. rewrite Hnone. reflexivity.
Qed.

Lemma world3_doc_wf : doc_wf (document world3).
Proof. repeat constructor. Qed.

Lemma applyFont_without_override_witness :
  overrideStyle (document world3_override_off)
  = Some (mkElement StyleTag overrideStyleId [] [] overrideRule) /\
  overrideStyle (document (applyFont (js_string (lit "Comic")) world3_override_off)) = None.
Proof.
  split; [reflexivity|].
  assert (Hwf : doc_wf (document world3_override_off)) by exact world3_doc_wf.
  assert (Hne : lit "Comic" <> []) by discriminate.
  destruct (@applyFont_without_override world3_override_off (lit "Comic")
              Hwf Hne eq_refl eq_refl) as (_ & _ & Hnone).
  apply Hnone. unfold override_unique. vm_compute. lia.
Defined.

(** ** What the handlers leave in the document *)

(** X10. Applying a font that is not in the remote sequence inserts no
    stylesheet link: under every id but that of the override style the
    elements of the document are what they were. *)
Theorem applyFont_local_font_inserts_no_link (w : World) (fontName i : jsstring) :
  doc_wf (document w) ->
  fontName <> [] ->
  some_named fontName (google (fonts (settings w))) = false ->
  some_named fontName (local (fonts (settings w))) = true ->
  i <> overrideStyleId ->
  elements_with_id i (document (applyFont (js_string fontName) w))
  = elements_with_id i (document w).
Proof.
  intros Hwf Hne Hg Hl Hi.
  assert (Hk : known fontName (settings w) = true)
    by (unfold known; rewrite Hl; apply orb_true_r).
  destruct (applyFont_after_link w Hwf Hne Hk Hi) as (He & _ & _).
  rewrite He. rewrite some_named_find in Hg.
  destruct (find_named fontName (google (fonts (settings w)))); [discriminate | reflexivity].
Qed.

Lemma applyFont_local_font_inserts_no_link_witness :
  elements_with_id (linkId (lit "Comic"))
    (document (applyFont (js_string (lit "Comic")) world3)) = [].
Proof.
  assert (Hne : lit "Comic" <> []) by discriminate.
  assert (Hi : linkId (lit "Comic") <> overrideStyleId) by discriminate.
  rewrite (@applyFont_local_font_inserts_no_link world3 (lit "Comic") (linkId (lit "Comic"))
             world3_doc_wf Hne eq_refl eq_refl Hi).
  reflexivity.
Defined.

Lemma jquery_remove_by_id_other_id (i j : jsstring) (d : Document) :
  i <> j ->
  elements_with_id i (jquery_remove_by_id j d) = elements_with_id i d /\
  getElementById i (jquery_remove_by_id j d) = getElementById i d.
Proof.
  intros Hij. unfold jquery_remove_by_id.
  destruct (getElementById j d) as [n|] eqn:Hg; [|split; reflexivity].
  apply getElementById_has_id in Hg as [_ Hg].
  apply (@remove_node_other_id i j n d Hg Hij).
Qed.



(** ** Applying twice *)

Lemma update_nth_fixed {A} (f : A -> A) (n : nat) (l : list A) (x : A) :
  nth_error l n = Some x -> f x = x -> update_nth n f l = l.
Proof.
  revert n. induction l as [|y l IH]; intros [|n]; cbn; try discriminate.
  - intros H Hf. injection H as ->. rewrite Hf. reflexivity.
  - intros H Hf. rewrite (IH n H Hf). reflexivity.
Qed.

Lemma set_innerHTML_fixed (d : Document) (n : node) (e : Element) :
  nth_error (nodes d) n = Some e -> set_innerHTML n (innerHTML e) d = d.
Proof.
  intros He. unfold set_innerHTML, update_node, with_nodes.
  rewrite (@update_nth_fixed _ _ n (nodes d) e He); [destruct d; reflexivity|].
  destruct e; reflexivity.
Qed.

Lemma setProperty_fixed (d : Document) (v : jsstring) :
  custom_font_family d = Some v -> setProperty v d = d.
Proof. destruct d. cbn. intros ->. reflexivity. Qed.

Lemma jquery_remove_by_id_fixed (i : jsstring) (d : Document) :
  elements_with_id i d = [] -> jquery_remove_by_id i d = d.
Proof.
  intros H. apply getElementById_None in H. unfold jquery_remove_by_id. rewrite H.
  reflexivity.
Qed.

Lemma applyFont_overrideThemeFont (v : jsvalue) (w : World) :
  overrideThemeFont (settings (applyFont v w)) = overrideThemeFont (settings w) /\
  notifications (settings (applyFont v w)) = notifications (settings w) /\
  autoLoad (settings (applyFont v w)) = autoLoad (settings w).
Proof.
  destruct (applyFont_settings v w) as [E|[n [_ E]]]; rewrite E; repeat split.
Qed.

(** The link block finds its link once the font was applied. *)
Lemma link_block_after_apply (w : World) (fontName : jsstring) :
  doc_wf (document w) ->
  fontName <> [] ->
  known fontName (settings w) = true ->
  let w' := applyFont (js_string fontName) w in
  match find_named fontName (google (fonts (settings w'))) with
  | Some font => ensureLink font (document w')
  | None => document w'
  end = document w'.
Proof.
  intros Hwf Hne Hk w'. subst w'. rewrite applyFont_fonts.
  destruct (find_named fontName (google (fonts (settings w)))) as [font|] eqn:Hf;
    [|reflexivity].
  apply ensureLink_present.
  rewrite (find_named_name _ _ Hf). intros Hnone.
  apply getElementById_None in Hnone.
  rewrite (applyFont_link_once w Hwf Hne Hf) in Hnone.
  destruct (getElementById (linkId fontName) (document w)) eqn:Hg; [|discriminate].
  apply getElementById_None in Hnone. congruence.
Qed.

(** X12. Applying the same font a second time changes nothing in the
    settings and nothing in the document: no second link, no second
    override style, the same custom property.  (With the override off
    this needs that the document has at most one override style, which
    the extension itself never exceeds.) *)
Theorem applyFont_twice (w : World) (value : jsvalue) :
  doc_wf (document w) ->
  (overrideThemeFont (settings w) = false -> override_unique (document w)) ->
  let once := applyFont value w in
  let twice := applyFont value once in
  settings twice = settings once /\
  document twice = document once /\
  fontStyleElement twice = fontStyleElement once.
Proof.
  intros Hwf Hu once twice. subst twice once.
  split; [|split; [|rewrite !applyFont_fontStyleElement; reflexivity]].
  - destruct value as [| |[|c s]]; try reflexivity.
    assert (Hne : c :: s <> []) by discriminate.
    set (fontName := c :: s) in *.
    destruct (known fontName (settings w)) eqn:Hk.
    + assert (Hk' : known fontName (settings (applyFont (js_string fontName) w)) = true)
        by (unfold known; rewrite applyFont_fonts; exact Hk).
      destruct (applyFont_overrideThemeFont (js_string fontName) w) as (Ho' & _ & _).
      destruct (overrideThemeFont (settings w)) eqn:Ho.
      * destruct (applyFont_override_on _ Hne Hk' Ho') as (Hs2 & _).
        destruct (applyFont_override_on w Hne Hk Ho) as (Hs1 & _).
        rewrite Hs2, Hs1. reflexivity.
      * apply (applyFont_override_off _ Hne Hk' Ho').
    + assert (Hk' : known fontName (settings (applyFont (js_string fontName) w)) = false)
        by (unfold known; rewrite applyFont_fonts; exact Hk).
      rewrite (applyFont_unknown _ Hne Hk'). apply notify_settings.
  - destruct value as [| |[|c s]]; try reflexivity.
    assert (Hne : c :: s <> []) by discriminate.
    set (fontName := c :: s) in *.
    destruct (known fontName (settings w)) eqn:Hk.
    + set (w' := applyFont (js_string fontName) w).
      assert (Hk' : known fontName (settings w') = true)
        by (unfold known, w'; rewrite applyFont_fonts; exact Hk).
      destruct (applyFont_overrideThemeFont (js_string fontName) w) as (Ho' & _ & _).
      fold w' in Ho'.
      rewrite (applyFont_document w' Hne Hk'). cbv zeta.
      pose proof (link_block_after_apply w Hwf Hne Hk) as Hlink.
      cbv zeta in Hlink. fold w' in Hlink. rewrite Hlink. clear Hlink.
      destruct (overrideThemeFont (settings w)) eqn:Ho; rewrite Ho'.
      * destruct (applyFont_override_on_document w Hwf Hne Hk Ho)
          as (Hc & [e (He & _ & Hrule)] & _).
        fold w' in Hc, He. rewrite (setProperty_fixed _ Hc).
        unfold overrideStyle in He.
        destruct (getElementById overrideStyleId (document w')) as [n|]; [|discriminate].
        rewrite <- Hrule. apply set_innerHTML_fixed. exact He.
      * destruct (applyFont_override_off_document w Hwf Hne Hk Ho) as (Hc & _ & Hnone & _).
        fold w' in Hc, Hnone. rewrite (setProperty_fixed _ Hc).
        apply jquery_remove_by_id_fixed. exact (Hnone (Hu eq_refl)).
    + assert (Hk' : known fontName (settings (applyFont (js_string fontName) w)) = false)
        by (unfold known; rewrite applyFont_fonts; exact Hk).
      rewrite (applyFont_unknown _ Hne Hk'). apply notify_document.
Qed.

Lemma applyFont_twice_witness :
  document (applyFont (js_string (lit "Inter")) world3) = document world3 /\
  settings (applyFont (js_string (lit "Inter")) world3) = settings world3.
Proof.
  assert (Hwf : doc_wf (document (injectLocalFontStyles world2))) by exact world2_injected_wf.
  assert (Hu : overrideThemeFont (settings (injectLocalFontStyles world2)) = false ->
               override_unique (document (injectLocalFontStyles world2)))
    by discriminate.
  destruct (@applyFont_twice (injectLocalFontStyles world2) (js_string (lit "Inter")) Hwf Hu)
    as (Hs & Hd & _).
  split; [exact Hd | exact Hs].
Defined.

(** ** The rendered list *)

Section RenderingFacts.

Variable localeCompare : jsstring -> jsstring -> Z.

Lemma insert_sorted_perm (x : ListedFont) (l : list ListedFont) :
  Permutation (insert_sorted localeCompare x l) (x :: l).
Proof.
  induction l as [|y l IH]; cbn [insert_sorted]; [reflexivity|].
  destruct (localeCompare (name x) (name y) <=? 0)%Z; [reflexivity|].
  rewrite IH. apply perm_swap.
Qed.

Lemma sort_by_name_perm (l : list ListedFont) :
  Permutation (sort_by_name localeCompare l) l.
Proof.
  induction l as [|x l IH]; cbn [sort_by_name fold_right]; [reflexivity|].
  rewrite insert_sorted_perm. apply perm_skip. exact IH.
Qed.

Lemma allFonts_names (s : Settings) :
  Permutation (List.map name (allFonts localeCompare s)) (all_names s).
Proof.
  unfold allFonts. rewrite sort_by_name_perm.
  unfold all_names. rewrite map_app, !map_map. reflexivity.
Qed.

Lemma allFonts_empty (s : Settings) :
  allFonts localeCompare s = [] <-> all_names s = [].
Proof.
  pose proof (allFonts_names s) as Hp. split; intros H.
  - rewrite H in Hp. apply Permutation_nil in Hp. exact Hp.
  - rewrite H in Hp. apply Permutation_sym, Permutation_nil in Hp.
    destruct (allFonts localeCompare s); [reflexivity | discriminate].
Qed.

Lemma fontListPanel_options (s : Settings) :
  select_options (fontListPanel localeCompare s)
  = placeholderOption
      :: List.map (fun f => mkOption (name f) (name f)) (allFonts localeCompare s).
Proof.
  unfold fontListPanel. destruct (allFonts localeCompare s); reflexivity.
Qed.

(** X13. The dropdown [renderFontList] builds holds the placeholder
    first and then the registered fonts, each with its name as text and
    as value: whatever the locale's ordering, the values after the
    placeholder are the registered names, each as often as it is
    registered, so none occurs twice when the names are unique.  The
    dropdown's value is set exactly when some font is registered and
    [activeFont] is a non-empty string, and then to that string, which
    is the value of one of the options when the active font is a
    registered one. *)
Theorem fontListPanel_lists_every_font (s : Settings) :
  let p := fontListPanel localeCompare s in
  let options := tl (select_options p) in
  hd_error (select_options p) = Some placeholderOption /\
  Permutation (List.map option_value options) (all_names s) /\
  Forall (fun o => option_text o = option_value o) options /\
  (names_unique s -> NoDup (List.map option_value options)) /\
  (forall a, select_val p = Some a ->
             activeFont s = Some a /\
             (active_known s -> In a (List.map option_value options))) /\
  (select_val p = None <->
   all_names s = [] \/ activeFont s = None \/ activeFont s = Some []).
Proof.
  cbv zeta. pose proof (allFonts_names s) as Hp. pose proof (allFonts_empty s) as He.
  pose proof (fontListPanel_options s) as Ho.
  assert (Hv : List.map option_value (tl (select_options (fontListPanel localeCompare s)))
               = List.map name (allFonts localeCompare s)).
  { rewrite Ho. cbn [tl]. rewrite map_map. reflexivity. }
  assert (Hsel : select_val (fontListPanel localeCompare s)
                 = match allFonts localeCompare s with
                   | [] => None
                   | _ :: _ => match activeFont s with
                               | Some (c :: a) => Some (c :: a)
                               | _ => None
                               end
                   end).
  { unfold fontListPanel. destruct (allFonts localeCompare s); reflexivity. }
  split; [rewrite Ho; reflexivity|].
  split; [rewrite Hv; exact Hp|].
  split; [rewrite Ho; cbn [tl]; apply Forall_map, Forall_forall; intros f _; reflexivity|].
  split; [intros Hu; rewrite Hv; apply (Permutation_NoDup (Permutation_sym Hp)); exact Hu|].
  rewrite Hv, Hsel. clear Ho Hv Hsel.
  destruct (allFonts localeCompare s) as [|f l].
  - split; [discriminate|]. split; [intros _; left; apply He; reflexivity | reflexivity].
  - assert (Hn : all_names s <> []) by (intros E; apply He in E; discriminate).
    destruct (activeFont s) as [[|c a']|] eqn:Hact.
    + split; [discriminate|]. split; [intros _; right; right; reflexivity | reflexivity].
    + split.
      * intros a Ha. injection Ha as <-. split; [reflexivity|].
        intros Hk. apply (Permutation_in _ (Permutation_sym Hp)). apply Hk. exact Hact.
      * split; [discriminate|]. intros [E|[E|E]]; [contradiction | discriminate | discriminate].
    + split; [discriminate|]. split; [intros _; right; left; reflexivity | reflexivity].
Qed.

Section Ordered.

Hypothesis localeCompare_total :
  forall a b, (localeCompare a b <= 0)%Z \/ (localeCompare b a <= 0)%Z.
Hypothesis localeCompare_trans :
  forall a b c, (localeCompare a b <= 0)%Z -> (localeCompare b c <= 0)%Z ->
                (localeCompare a c <= 0)%Z.

Let before (a b : ListedFont) : Prop := (localeCompare (name a) (name b) <= 0)%Z.

Lemma insert_sorted_sorted (x : ListedFont) (l : list ListedFont) :
  StronglySorted before l -> StronglySorted before (insert_sorted localeCompare x l).
Proof.
  induction l as [|y l IH]; cbn [insert_sorted]; intros Hs.
  - repeat constructor.
  - apply StronglySorted_inv in Hs as [Hs Hy].
    destruct (Z.leb_spec (localeCompare (name x) (name y)) 0) as [Hle|Hgt].
    + constructor; [constructor; assumption|].
      constructor; [exact Hle|].
      eapply Forall_impl; [|exact Hy]. intros z Hz.
      eapply localeCompare_trans; eassumption.
    + constructor; [apply IH; exact Hs|].
      apply (Permutation_Forall (Permutation_sym (insert_sorted_perm x l))).
      constructor; [|exact Hy].
      destruct (localeCompare_total (name x) (name y)) as [H|H]; [lia | exact H].
Qed.

Lemma sort_by_name_sorted (l : list ListedFont) :
  StronglySorted before (sort_by_name localeCompare l).
Proof.
  induction l as [|x l IH]; cbn [sort_by_name fold_right]; [constructor|].
  apply insert_sorted_sorted. exact IH.
Qed.

(** X14. When the locale's comparison is a total preorder, the options
    after the placeholder are in ascending order of their names: no
    option is followed, anywhere further down, by one that compares
    strictly before it. *)
Theorem fontListPanel_sorted (s : Settings) :
  StronglySorted
    (fun a b => (localeCompare (option_value a) (option_value b) <= 0)%Z)
    (tl (select_options (fontListPanel localeCompare s))).
Proof.
  pose proof (fontListPanel_options s) as Ho.
  rewrite Ho. cbn [tl].
  pose proof (sort_by_name_sorted
                (List.map GoogleListed (google (fonts s))
                 ++ List.map LocalListed (local (fonts s)))) as Hs.
  fold (allFonts localeCompare s) in Hs. clear Ho.
  set (listed := allFonts localeCompare s) in *. clearbody listed.
  induction Hs as [|f l Hs IH Hf]; cbn [List.map]; constructor.
  - exact IH.
  - rewrite Forall_map. eapply Forall_impl; [|exact Hf]. intros g Hg. exact Hg.
Qed.

End Ordered.

End RenderingFacts.

Lemma compare_length_total (a b : jsstring) :
  (compare_length a b <= 0)%Z \/ (compare_length b a <= 0)%Z.
Proof. unfold compare_length. lia. Qed.

Lemma compare_length_trans (a b c : jsstring) :
  (compare_length a b <= 0)%Z -> (compare_length b c <= 0)%Z -> (compare_length a c <= 0)%Z.
Proof. unfold compare_length. lia. Qed.

Lemma fontListPanel_sorted_witness :
  StronglySorted
    (fun a b => (compare_length (option_value a) (option_value b) <= 0)%Z)
    [mkOption (lit "Lato") (lit "Lato"); mkOption (lit "Inter") (lit "Inter");
     mkOption (lit "Comic") (lit "Comic")].
Proof.
  exact (fontListPanel_sorted compare_length compare_length_total compare_length_trans
           settings5).
Defined.

(** ** What a click on a delete button removes *)

(** Handed a string, [removeFont] is the function of Part II. *)
Lemma removeFont_data_string (n : jsstring) (w : World) :
  removeFont_data (data_string n) w = removeFont n w.
Proof. reflexivity. Qed.

Lemma jsdata_cases (v : jsdata) :
  (exists n, v = data_string n) \/ (forall n, v <> data_string n).
Proof. destruct v; [left; eexists; reflexivity | right; discriminate | right; discriminate]. Qed.

Lemma filter_keep_all {A} (l : list A) : filter (fun _ => true) l = l.
Proof. induction l as [|x l IH]; cbn [filter]; [|rewrite IH]; reflexivity. Qed.

(** Handed anything else, it removes no entry: no name is [===] to it.
    It still saves, reports the removal and renders, and when it is
    handed [null] while no font is active it takes that for the active
    font and clears the custom property and the override style. *)
Lemma removeFont_data_not_string (v : jsdata) (w : World) :
  (forall n, v <> data_string n) ->
  settings (removeFont_data v w) = settings w /\
  fontStyleElement (removeFont_data v w) = fontStyleElement w /\
  document (removeFont_data v w)
  = (if activeFont_is v (settings w)
     then jquery_remove_by_id overrideStyleId (removeProperty (document w))
     else document w) /\
  trace (removeFont_data v w)
  = trace w ++ [SaveSettings]
      ++ shown (settings w) success (lit "Removed font: " ++ data_text v)
      ++ [RenderFontList].
Proof.
  intros Hv. destruct w as [[[g l] a al o nf] fse d tr].
  destruct v as [n| |text]; [exfalso; apply (Hv n); reflexivity| |];
    unfold removeFont_data, filter_not_data, activeFont_is;
    cbn [settings fonts local google activeFont with_settings with_fonts];
    rewrite !filter_keep_all, Nat.ltb_irrefl;
    cbn [settings fonts local google activeFont with_settings with_fonts];
    rewrite ?filter_keep_all;
    destruct a as [a|]; world_simpl; unfold shown; simpl; rewrite <- ?app_assoc;
    repeat split.
Qed.

Lemma remove_override_style_wf (w w' : World) :
  World_wf w ->
  fontStyleElement w' = fontStyleElement w ->
  document w' = jquery_remove_by_id overrideStyleId (removeProperty (document w)) ->
  World_wf w'.
Proof.
  intros [Hd Hs] Hf Hdoc. unfold World_wf, style_wf. rewrite Hf, Hdoc.
  unfold jquery_remove_by_id.
  destruct (getElementById overrideStyleId (removeProperty (document w))) as [m|] eqn:Hov.
  - apply getElementById_has_id in Hov as [_ Hov]. split.
    + apply remove_node_doc_wf. exact Hd.
    + intros n Hn.
      apply (@carries_remove_node _ localDefsId overrideStyleId n m Hov
               localDefsId_not_overrideStyleId).
      apply (Hs n Hn).
  - split; [exact Hd | exact Hs].
Qed.

Lemma removeFont_data_wf (v : jsdata) (w : World) :
  World_wf w -> World_wf (removeFont_data v w).
Proof.
  intros Hwf. destruct (jsdata_cases v) as [[n ->]|Hv]; [apply removeFont_wf; exact Hwf|].
  destruct (@removeFont_data_not_string v w Hv) as (_ & Hf & Hd & _).
  destruct (activeFont_is v (settings w)).
  - eapply remove_override_style_wf; eassumption.
  - revert Hwf. apply World_wf_same_page; assumption.
Qed.

Lemma removeFont_data_flags (v : jsdata) (w : World) :
  autoLoad (settings (removeFont_data v w)) = autoLoad (settings w) /\
  overrideThemeFont (settings (removeFont_data v w)) = overrideThemeFont (settings w) /\
  notifications (settings (removeFont_data v w)) = notifications (settings w).
Proof.
  destruct (jsdata_cases v) as [[n ->]|Hv].
  - rewrite removeFont_data_string, removeFont_settings. repeat split.
  - destruct (@removeFont_data_not_string v w Hv) as (Hs & _). rewrite Hs. repeat split.
Qed.

(** ** Startup and the delayed auto-apply *)



Lemma autoApply_nothing_active (w : World) :
  activeFont (settings w) = None -> autoApply w = w.
Proof. intros H. unfold autoApply, activeFont_value. rewrite H. reflexivity. Qed.

(** X16. The timer's callback applies the font that is active when it
    fires, not the one that was active when the timer was set.  When the
    row of the active font was deleted before, the click handing
    [removeFont] the name as a string, the firing changes nothing.  When
    the click handed over something else (jQuery reads names such as 123
    or true as a number or a boolean), it left the settings as they
    were, and the firing applies the active font.  When another
    registered font was applied before with the theme override on, the
    firing applies that font again; with the override off [applyFont]
    did not record it, and the firing applies the font that was active
    before. *)
Theorem timer_applies_current_font (p : Page) :
  timer p = true ->
  (forall a,
     activeFont (settings (world p)) = Some a ->
     world (run p [ClickDelete (data_string a); TimerFires]) = removeFont a (world p)) /\
  (forall a v,
     activeFont (settings (world p)) = Some a ->
     (forall n, v <> data_string n) ->
     settings (world (step p (ClickDelete v))) = settings (world p) /\
     world (run p [ClickDelete v; TimerFires])
     = applyFont (js_string a) (world (step p (ClickDelete v)))) /\
  (forall b,
     b <> [] -> known b (settings (world p)) = true ->
     (overrideThemeFont (settings (world p)) = true ->
      world (run p [ClickApply (js_string b); TimerFires])
      = applyFont (js_string b) (applyFont (js_string b) (world p))) /\
     (overrideThemeFont (settings (world p)) = false ->
      world (run p [ClickApply (js_string b); TimerFires])
      = applyFont (activeFont_value (settings (world p)))
                  (applyFont (js_string b) (world p)))).
Proof.
  intros Ht. unfold run. cbn [fold_left step with_world timer world]. rewrite Ht.
  cbn [world]. unfold autoApply. split; [|split].
  - intros a Ha. rewrite removeFont_data_string.
    apply autoApply_nothing_active.
    rewrite removeFont_settings. cbv zeta. cbn [activeFont].
    rewrite Ha, strict_eq_refl. reflexivity.
  - intros a v Ha Hv.
    destruct (@removeFont_data_not_string v (world p) Hv) as (Hs & _).
    split; [exact Hs|]. rewrite Hs. unfold activeFont_value. rewrite Ha. reflexivity.
  - intros b Hne Hk. split; intros Ho.
    + destruct (applyFont_override_on (world p) Hne Hk Ho) as (Hs & _).
      rewrite Hs. reflexivity.
    + destruct (applyFont_override_off (world p) Hne Hk Ho) as (Hs & _).
      rewrite Hs. reflexivity.
Qed.

Lemma timer_applies_current_font_witness :
  world (run page5 [ClickDelete (data_string (lit "Inter")); TimerFires])
  = removeFont (lit "Inter") (world page5) /\
  world (run page5 [ClickDelete (data_other (lit "123")); TimerFires])
  = applyFont (js_string (lit "Inter")) (world (step page5 (ClickDelete (data_other (lit "123"))))).
Proof.
  destruct (@timer_applies_current_font page5 eq_refl) as (Hd & Hv & _).
  split; [apply Hd; reflexivity|].
  apply Hv; [reflexivity | discriminate].
Defined.

(** X17. Auto-load restores the saved font: when the loaded settings
    have [autoLoad] on, the theme override on and a registered active
    font, the page after the timer has fired has the custom property of
    that font and the override style with its rule, and the font is
    still the active one. *)
Theorem autoLoad_restores_font (s : Settings) (d : Document) (a : jsstring) :
  doc_wf d ->
  autoLoad s = true ->
  overrideThemeFont s = true ->
  activeFont s = Some a ->
  a <> [] ->
  known a s = true ->
  let p := run (startup s d) [TimerFires] in
  timer p = false /\
  activeFont (settings (world p)) = Some a /\
  custom_font_family (document (world p)) = Some (fontFamilyValue a) /\
  exists e, overrideStyle (document (world p)) = Some e /\ innerHTML e = overrideRule.
Proof.
  intros Hd Hal Ho Ha Hne Hk p. subst p.
  assert (Hwant : wantsAutoApply s = true).
  { unfold wantsAutoApply. rewrite Hal, Ha. destruct a; [congruence | reflexivity]. }
  unfold run. cbn [fold_left]. unfold startup, initialSetup.
  set (w1 := renderFontList (injectLocalFontStyles (mkWorld s None d []))).
  assert (Hs1 : settings w1 = s) by (unfold w1, renderFontList; world_simpl; reflexivity).
  cbn [step timer world reads]. rewrite Hs1, Hwant. cbn [timer world].
  unfold autoApply, activeFont_value. rewrite Hs1, Ha.
  assert (Hwf1 : doc_wf (document w1)).
  { assert (Hwf0 : World_wf (mkWorld s None d [])) by (apply fresh_page_wf; exact Hd).
    apply (injectLocalFontStyles_wf Hwf0). }
  assert (Hk1 : known a (settings w1) = true) by (rewrite Hs1; exact Hk).
  assert (Ho1 : overrideThemeFont (settings w1) = true) by (rewrite Hs1; exact Ho).
  destruct (applyFont_override_on w1 Hne Hk1 Ho1) as (Hset & _).
  destruct (applyFont_override_on_document w1 Hwf1 Hne Hk1 Ho1) as (Hc & [e (He & _ & Hr)] & _).
  split; [reflexivity|]. split; [rewrite Hset; reflexivity|].
  split; [exact Hc|]. exists e. split; assumption.
Qed.

Lemma autoLoad_restores_font_witness :
  custom_font_family (document (world (run page5 [TimerFires])))
  = Some (fontFamilyValue (lit "Inter")).
Proof.
  assert (Hd : doc_wf empty_document) by constructor.
  assert (Hne : lit "Inter" <> []) by discriminate.
  destruct (@autoLoad_restores_font settings5 empty_document (lit "Inter")
              Hd eq_refl eq_refl eq_refl Hne eq_refl) as (_ & _ & Hc & _).
  exact Hc.
Defined.

(** ** The handlers and the page, one by one *)

Lemma addGoogleFont_page (name_field link_field : jsstring) (w : World) :
  document (addGoogleFont name_field link_field w) = document w /\
  fontStyleElement (addGoogleFont name_field link_field w) = fontStyleElement w.
Proof.
  unfold addGoogleFont.
  destruct (is_empty _ || is_empty _); [world_simpl; split; reflexivity|].
  destruct (some_named _ _ || some_named _ _); [world_simpl; split; reflexivity|].
  destruct (negb _); world_simpl; split; reflexivity.
Qed.

Lemma handleLocalFontFile_page (file : option File) (name_field : jsstring) (w : World) :
  let w' := fst (handleLocalFontFile file name_field w) in
  settings w' = settings w /\ document w' = document w /\
  fontStyleElement w' = fontStyleElement w.
Proof.
  cbv zeta. unfold handleLocalFontFile. destruct file; [|repeat split].
  destruct (is_empty _); [world_simpl; repeat split|].
  destruct (some_named _ _ || some_named _ _); world_simpl; repeat split.
Qed.

Lemma local_font_file_change_page (files : list NamedFile) (name_field : jsstring) (w : World) :
  let w' := fst (local_font_file_change files name_field w) in
  settings w' = settings w /\ document w' = document w /\
  fontStyleElement w' = fontStyleElement w.
Proof.
  cbv zeta. unfold local_font_file_change.
  pose proof (handleLocalFontFile_page (option_map snd (hd_error files)) name_field w) as H.
  cbv zeta in H.
  destruct (handleLocalFontFile (option_map snd (hd_error files)) name_field w) as [w1 r].
  exact H.
Qed.

Lemma reader_onerror_page (w : World) :
  settings (reader_onerror w) = settings w /\
  document (reader_onerror w) = document w /\
  fontStyleElement (reader_onerror w) = fontStyleElement w.
Proof. unfold reader_onerror. world_simpl. repeat split. Qed.

Lemma reader_complete_wf (r : jsstring * File) (w : World) :
  World_wf w -> World_wf (reader_complete r w).
Proof.
  intros Hwf. destruct r as [n [result|]]; cbn [reader_complete].
  - destruct (reader_onload_page n result w) as [Hd Hf].
    set (w1 := with_settings _ w) in *.
    assert (Hwf1 : World_wf (injectLocalFontStyles w1))
      by (apply injectLocalFontStyles_wf; exact Hwf).
    revert Hwf1. apply World_wf_same_page; assumption.
  - destruct (reader_onerror_page w) as (_ & Hd & Hf).
    revert Hwf. apply World_wf_same_page; assumption.
Qed.

Lemma on_override_theme_font_wf (checked : bool) (w : World) :
  World_wf w -> World_wf (on_override_theme_font checked w).
Proof. intros Hwf. unfold on_override_theme_font. apply applyFont_wf. exact Hwf. Qed.

Lemma autoApply_wf (w : World) : World_wf w -> World_wf (autoApply w).
Proof. apply applyFont_wf. Qed.

Lemma step_World_wf (p : Page) (e : UIEvent) :
  World_wf (world p) -> World_wf (world (step p e)).
Proof.
  intros Hwf. destruct e; cbn [step].
  - apply addGoogleFont_wf. exact Hwf.
  - destruct (local_font_file_change_page files name_field (world p)) as (_ & Hd & Hf).
    destruct (local_font_file_change files name_field (world p)) as [w r].
    cbn [world fst] in *. revert Hwf. apply World_wf_same_page; assumption.
  - destruct (nth_error (reads p) k); [|exact Hwf].
    apply reader_complete_wf. exact Hwf.
  - apply removeFont_data_wf. exact Hwf.
  - apply applyFont_wf. exact Hwf.
  - exact Hwf.
  - apply on_override_theme_font_wf. exact Hwf.
  - exact Hwf.
  - destruct (timer p); [apply autoApply_wf|]; exact Hwf.
Qed.

Lemma applyFont_override_unique (v : jsvalue) (w : World) :
  doc_wf (document w) ->
  override_unique (document w) -> override_unique (document (applyFont v w)).
Proof.
  intros Hwf Hu. destruct v as [| |[|c s]]; try exact Hu.
  assert (Hne : c :: s <> []) by discriminate.
  destruct (known (c :: s) (settings w)) eqn:Hk.
  - unfold override_unique in *. destruct (overrideThemeFont (settings w)) eqn:Ho.
    + destruct (applyFont_override_on_document w Hwf Hne Hk Ho) as (_ & _ & _ & _ & Hlen).
      rewrite Hlen. lia.
    + destruct (applyFont_override_off_document w Hwf Hne Hk Ho) as (_ & _ & _ & Hlen).
      lia.
  - rewrite (applyFont_unknown w Hne Hk), notify_document. exact Hu.
Qed.

Lemma filter_map_filter_length {A B} (f : A -> option B) (q : A -> bool) (l : list A) :
  List.length (filter_map f (filter q l)) <= List.length (filter_map f l).
Proof.
  induction l as [|m l IH]; cbn [filter filter_map]; [lia|].
  destruct (q m); cbn [filter_map]; destruct (f m); cbn [List.length]; lia.
Qed.

Lemma jquery_remove_by_id_length (i j : jsstring) (d : Document) :
  List.length (elements_with_id i (jquery_remove_by_id j d))
  <= List.length (elements_with_id i d).
Proof.
  unfold jquery_remove_by_id. destruct (getElementById j d) as [n|]; [|lia].
  unfold elements_with_id, remove_node, tree. cbn [nodes head body with_tree].
  rewrite <- filter_app.
  change (List.length (filter_map (elem_with_id d i)
                         (filter (fun m => negb (m =? n)) (head d ++ body d)))
          <= List.length (filter_map (elem_with_id d i) (head d ++ body d))).
  apply filter_map_filter_length.
Qed.

Lemma removeFont_override_unique (fontName : jsstring) (w : World) :
  World_wf w ->
  override_unique (document w) -> override_unique (document (removeFont fontName w)).
Proof.
  intros Hwf Hu. unfold override_unique in *.
  destruct (removeFont_document fontName w) as [_ Hd].
  destruct (removeFont_before_active_block fontName Hwf) as (He & _ & _).
  set (w2 := if _ <? _ then _ else _) in *.
  rewrite Hd.
  assert (Hr : List.length (elements_with_id overrideStyleId
                 (jquery_remove_by_id overrideStyleId (removeProperty (document w2)))) <= 1).
  { etransitivity; [apply jquery_remove_by_id_length|].
    change (List.length (elements_with_id overrideStyleId (document w2)) <= 1).
    rewrite He. exact Hu. }
  destruct (activeFont (settings w)) as [a|]; [destruct (strict_eq a fontName)|];
    try (rewrite He; exact Hu). exact Hr.
Qed.

Lemma removeFont_data_override_unique (v : jsdata) (w : World) :
  World_wf w ->
  override_unique (document w) -> override_unique (document (removeFont_data v w)).
Proof.
  intros Hwf Hu. destruct (jsdata_cases v) as [[n ->]|Hv];
    [apply removeFont_override_unique; assumption|].
  destruct (@removeFont_data_not_string v w Hv) as (_ & _ & Hd & _). rewrite Hd.
  destruct (activeFont_is v (settings w)); [|exact Hu].
  unfold override_unique in *.
  etransitivity; [apply jquery_remove_by_id_length | exact Hu].
Qed.

Lemma reader_complete_override (r : jsstring * File) (w : World) :
  World_wf w ->
  elements_with_id overrideStyleId (document (reader_complete r w))
  = elements_with_id overrideStyleId (document w).
Proof.
  intros Hwf. destruct r as [n [result|]]; cbn [reader_complete].
  - destruct (reader_onload_page n result w) as [Hd _]. rewrite Hd.
    set (w1 := with_settings _ w).
    assert (Hwf1 : World_wf w1) by exact Hwf.
    apply (injectLocalFontStyles_other_id Hwf1 overrideStyleId_not_localDefsId).
  - destruct (reader_onerror_page w) as (_ & Hd & _). rewrite Hd. reflexivity.
Qed.

Lemma step_page_wf (p : Page) (e : UIEvent) : page_wf p -> page_wf (step p e).
Proof.
  intros [Hwf Hu]. split; [apply step_World_wf; exact Hwf|].
  pose proof Hwf as [Hd _].
  destruct e; cbn [step].
  - cbn [world with_world].
    destruct (addGoogleFont_page name_field link_field (world p)) as [E _].
    rewrite E. exact Hu.
  - destruct (local_font_file_change_page files name_field (world p)) as (_ & E & _).
    destruct (local_font_file_change files name_field (world p)) as [w r].
    cbn [world fst] in *. rewrite E. exact Hu.
  - destruct (nth_error (reads p) k) as [r|]; [|exact Hu]. cbn [world].
    unfold override_unique. rewrite (reader_complete_override r Hwf). exact Hu.
  - apply (removeFont_data_override_unique _ Hwf Hu).
  - apply (applyFont_override_unique _ _ Hd Hu).
  - exact Hu.
  - cbn [world with_world]. unfold on_override_theme_font.
    apply applyFont_override_unique; assumption.
  - exact Hu.
  - destruct (timer p); [|exact Hu]. apply (applyFont_override_unique _ _ Hd Hu).
Qed.


Lemma page5_wf : page_wf page5.
Proof.
  split.
  - split; [repeat constructor|].
    intros n Hn. injection Hn as <-. split; [left; reflexivity|].
    eexists. split; reflexivity.
  - unfold override_unique. vm_compute. lia.
Qed.


(** ** What [applyFont] leaves alone *)

Lemma nth_error_attached (x : Element) (d : Document) (n : node) (e : Element) :
  nth_error (nodes d) n = Some e -> nth_error (nodes (attached x d)) n = Some e.
Proof.
  intros He. cbn [attached nodes]. rewrite nth_error_app1; [exact He|].
  apply nth_error_Some. congruence.
Qed.

Lemma in_tree_attached (x : Element) (d : Document) (n : node) :
  In n (tree d) -> In n (tree (attached x d)).
Proof.
  unfold tree. cbn [attached head body]. rewrite !in_app_iff. cbn. tauto.
Qed.

Lemma ensureLink_keeps (font : GoogleFont) (d : Document) (n : node) (e : Element) :
  nth_error (nodes d) n = Some e ->
  nth_error (nodes (ensureLink font d)) n = Some e /\
  (In n (tree d) -> In n (tree (ensureLink font d))).
Proof.
  intros He. destruct (getElementById (linkId (name font)) d) eqn:E.
  - rewrite ensureLink_present by congruence. split; auto.
  - rewrite ensureLink_attached by exact E.
    split; [apply nth_error_attached; exact He | apply in_tree_attached].
Qed.

Lemma applyFont_keeps_element (w : World) (value : jsvalue) (n : node) (e : Element) :
  nth_error (nodes (document w)) n = Some e ->
  elem_id e <> overrideStyleId ->
  nth_error (nodes (document (applyFont value w))) n = Some e /\
  (In n (tree (document w)) -> In n (tree (document (applyFont value w)))).
Proof.
  intros He Hid. destruct value as [| |[|c s]]; try (split; [exact He | auto]).
  assert (Hne : c :: s <> []) by discriminate.
  set (fontName := c :: s) in *.
  destruct (known fontName (settings w)) eqn:Hk.
  - rewrite (applyFont_document w Hne Hk). cbv zeta.
    set (d1 := match find_named _ _ with Some font => _ | None => _ end).
    assert (H1 : nth_error (nodes d1) n = Some e /\
                 (In n (tree (document w)) -> In n (tree d1))).
    { subst d1. destruct (find_named _ _); [apply ensureLink_keeps; exact He|].
      split; [exact He | auto]. }
    destruct H1 as [He1 Hin1].
    set (d2 := setProperty (fontFamilyValue fontName) d1).
    assert (He2 : nth_error (nodes d2) n = Some e) by exact He1.
    assert (Hin2 : In n (tree (document w)) -> In n (tree d2)) by exact Hin1.
    assert (Hnot : forall m, has_id d2 overrideStyleId m = true -> m <> n).
    { intros m Hm ->. unfold has_id in Hm. rewrite He2 in Hm.
      apply strict_eq_true in Hm. congruence. }
    destruct (overrideThemeFont (settings w));
      destruct (getElementById overrideStyleId d2) as [m|] eqn:Hov.
    + apply getElementById_has_id in Hov as [_ Hov]. apply Hnot in Hov.
      split; [|exact Hin2].
      cbn [set_innerHTML update_node with_nodes nodes]. rewrite nth_error_update_nth.
      destruct (Nat.eqb_spec n m); [congruence | exact He2].
    + split; [apply nth_error_attached; exact He2|].
      intros Hin. apply in_tree_attached. auto.
    + apply getElementById_has_id in Hov as [_ Hov]. apply Hnot in Hov.
      split; [exact He2|]. intros Hin. specialize (Hin2 Hin).
      unfold tree, remove_node in *. cbn [with_tree head body]. rewrite <- filter_app.
      apply filter_In. split; [exact Hin2|].
      apply negb_true_iff, Nat.eqb_neq. congruence.
    + split; assumption.
  - rewrite (applyFont_unknown w Hne Hk), notify_document. split; [exact He | auto].
Qed.

Lemma applyFont_styleContent (v : jsvalue) (w : World) :
  World_wf w -> styleContent (applyFont v w) = styleContent w.
Proof.
  intros [_ Hs]. unfold styleContent. rewrite applyFont_fontStyleElement.
  destruct (fontStyleElement w) as [n|] eqn:Hn; [|reflexivity].
  destruct (Hs n Hn) as [_ [e [He Hid]]].
  assert (Hne : elem_id e <> overrideStyleId)
    by (rewrite Hid; apply localDefsId_not_overrideStyleId).
  destruct (applyFont_keeps_element w v n He Hne) as [He' _].
  rewrite He', He. reflexivity.
Qed.

(** X19. [applyFont] rewrites no element but the override style and
    takes no other out of the tree: every element of the document whose
    id is not that of the override style is, after the call, the same
    element at the same node, and still in the tree if it was.  So the
    stylesheet links of other fonts and, on a well-formed page, the
    embedded style block are untouched. *)
Theorem applyFont_keeps_other_elements (w : World) (value : jsvalue) :
  (forall n e,
     nth_error (nodes (document w)) n = Some e ->
     elem_id e <> overrideStyleId ->
     nth_error (nodes (document (applyFont value w))) n = Some e /\
     (In n (tree (document w)) -> In n (tree (document (applyFont value w))))) /\
  (World_wf w -> styleContent (applyFont value w) = styleContent w).
Proof.
  split.
  - intros n e He Hid. apply applyFont_keeps_element; assumption.
  - apply applyFont_styleContent.
Qed.

Lemma applyFont_keeps_other_elements_witness :
  nth_error (nodes (document (applyFont (js_string (lit "Comic")) world3_override_off))) 1
  = Some (linkElementFor inter).
Proof.
  assert (He : nth_error (nodes (document world3_override_off)) 1
               = Some (linkElementFor inter)) by reflexivity.
  assert (Hid : elem_id (linkElementFor inter) <> overrideStyleId) by discriminate.
  destruct (applyFont_keeps_other_elements world3_override_off (js_string (lit "Comic")))
    as [Hkeep _].
  destruct (Hkeep 1 (linkElementFor inter) He Hid) as [H _].
  exact H.
Defined.

(** ** The embedded style block follows the local sequence *)

Lemma removeFont_sync (fontName : jsstring) (w : World) :
  World_wf w -> styles_in_sync w -> styles_in_sync (removeFont fontName w).
Proof.
  intros Hwf Hsync. unfold styles_in_sync in *.
  rewrite removeFont_settings. cbv zeta. cbn [settings fonts local].
  destruct (some_named fontName (local (fonts (settings w)))) eqn:Hl.
  - apply (removeFont_local_content fontName Hwf Hl).
  - rewrite (filter_not_named_absent _ _ Hl), <- Hsync.
    destruct (removeFont_document fontName w) as [Hf Hd].
    rewrite (filter_not_named_absent _ _ Hl), Nat.ltb_irrefl in Hf, Hd.
    unfold styleContent. rewrite Hf. cbn [fontStyleElement with_settings].
    destruct (fontStyleElement w); [|reflexivity].
    rewrite Hd.
    destruct (activeFont (settings w)) as [a|]; [destruct (strict_eq a fontName)|];
      rewrite ?nodes_jquery_remove_by_id; reflexivity.
Qed.

Lemma removeFont_data_sync (v : jsdata) (w : World) :
  World_wf w -> styles_in_sync w -> styles_in_sync (removeFont_data v w).
Proof.
  intros Hwf Hsync. destruct (jsdata_cases v) as [[n ->]|Hv];
    [apply removeFont_sync; assumption|].
  destruct (@removeFont_data_not_string v w Hv) as (Hs & Hf & Hd & _).
  unfold styles_in_sync, styleContent in *. rewrite Hs, Hf, Hd.
  destruct (activeFont_is v (settings w)); [|exact Hsync].
  rewrite nodes_jquery_remove_by_id. exact Hsync.
Qed.

Lemma reader_complete_sync (r : jsstring * File) (w : World) :
  World_wf w -> styles_in_sync w -> styles_in_sync (reader_complete r w).
Proof.
  intros Hwf Hsync. unfold styles_in_sync in *.
  destruct r as [n [result|]]; cbn [reader_complete].
  - rewrite (reader_onload_content n result Hwf), reader_onload_settings. reflexivity.
  - destruct (reader_onerror_page w) as (Hs & Hd & Hf).
    rewrite (styleContent_same_page _ _ Hd Hf), Hs. exact Hsync.
Qed.

Lemma applyFont_sync (v : jsvalue) (w : World) :
  World_wf w -> styles_in_sync w -> styles_in_sync (applyFont v w).
Proof.
  intros Hwf Hsync. unfold styles_in_sync in *.
  rewrite (applyFont_styleContent v Hwf), applyFont_fonts. exact Hsync.
Qed.

Lemma addGoogleFont_local (name_field link_field : jsstring) (w : World) :
  local (fonts (settings (addGoogleFont name_field link_field w)))
  = local (fonts (settings w)).
Proof.
  destruct (addGoogleFont_settings name_field link_field w) as [E|[_ E]];
    rewrite E; reflexivity.
Qed.

Lemma step_sync (p : Page) (e : UIEvent) :
  World_wf (world p) -> styles_in_sync (world p) -> styles_in_sync (world (step p e)).
Proof.
  intros Hwf Hsync. destruct e; cbn [step].
  - cbn [world with_world]. unfold styles_in_sync in *.
    destruct (addGoogleFont_page name_field link_field (world p)) as [Hd Hf].
    rewrite (styleContent_same_page _ _ Hd Hf), addGoogleFont_local. exact Hsync.
  - destruct (local_font_file_change_page files name_field (world p)) as (Hs & Hd & Hf).
    destruct (local_font_file_change files name_field (world p)) as [w r].
    cbn [world fst] in *. unfold styles_in_sync in *.
    rewrite (styleContent_same_page _ _ Hd Hf), Hs. exact Hsync.
  - destruct (nth_error (reads p) k) as [r|]; [|exact Hsync].
    apply reader_complete_sync; assumption.
  - apply removeFont_data_sync; assumption.
  - apply applyFont_sync; assumption.
  - exact Hsync.
  - cbn [world with_world]. unfold on_override_theme_font. apply applyFont_sync.
    + exact Hwf.
    + exact Hsync.
  - exact Hsync.
  - destruct (timer p); [|exact Hsync]. apply applyFont_sync; assumption.
Qed.

(** X20. Once the embedded style block holds the rules of the local
    sequence, as it does after the initial setup, it does so after every
    sequence of user actions, read completions and timer firings: no
    handler lets the block and the sequence drift apart, so no stale
    rule lingers and no local font lacks its rule. *)
Theorem run_keeps_styles_in_sync (p : Page) (events : list UIEvent) :
  World_wf (world p) ->
  styles_in_sync (world p) ->
  styles_in_sync (world (run p events)).
Proof.
  unfold run. revert p. induction events as [|e events IH]; intros p Hwf Hsync;
    [exact Hsync|].
  cbn [fold_left]. apply IH; [apply step_World_wf | apply step_sync]; assumption.
Qed.

Lemma run_keeps_styles_in_sync_witness :
  styles_in_sync
    (world (run page5 [ChangeLocalFontFile [(lit "mine.ttf", Readable (lit "data:,"))] (lit "Mine");
                       ClickDelete (data_string (lit "Comic")); ReadCompletes 0])).
Proof.
  destruct page5_wf as [Hwf _].
  assert (Hsync : styles_in_sync (world page5)) by (vm_compute; reflexivity).
  exact (@run_keeps_styles_in_sync page5
           [ChangeLocalFontFile [(lit "mine.ttf", Readable (lit "data:,"))] (lit "Mine");
            ClickDelete (data_string (lit "Comic")); ReadCompletes 0] Hwf Hsync).
Defined.

(** ** Registered entries are clean *)

Lemma trimStart_head (s t : jsstring) (c : code_unit) :
  trimStart s = c :: t -> isWhiteSpace c = false.
Proof.
  induction s as [|x s IH]; cbn [trimStart]; [discriminate|].
  destruct (isWhiteSpace x) eqn:Hx; [exact IH|].
  intros H. injection H as -> _. exact Hx.
Qed.

Lemma trimStart_fixed (c : code_unit) (t : jsstring) :
  isWhiteSpace c = false -> trimStart (c :: t) = c :: t.
Proof. intros H. cbn [trimStart]. rewrite H. reflexivity. Qed.

Lemma trimStart_idempotent (s : jsstring) : trimStart (trimStart s) = trimStart s.
Proof.
  destruct (trimStart s) as [|c t] eqn:E; [reflexivity|].
  apply trimStart_fixed. apply (trimStart_head _ E).
Qed.

Lemma trimStart_snoc (l : jsstring) (c : code_unit) :
  isWhiteSpace c = false -> exists l', trimStart (l ++ [c]) = l' ++ [c].
Proof.
  intros Hc. induction l as [|x l IH]; cbn [app trimStart].
  - rewrite Hc. exists []. reflexivity.
  - destruct (isWhiteSpace x); [exact IH|]. exists (x :: l). reflexivity.
Qed.

(** What [trim] returns starts and ends with no white space. *)
Lemma trimEnd_trimStart_stable (s : jsstring) :
  trimStart (trimEnd (trimStart s)) = trimEnd (trimStart s).
Proof.
  unfold trimEnd. destruct (trimStart s) as [|c t] eqn:E; [reflexivity|].
  pose proof (trimStart_head _ E) as Hc.
  cbn [rev]. destruct (@trimStart_snoc (rev t) c Hc) as [l' Hl]. rewrite Hl.
  rewrite rev_app_distr. cbn [rev app]. apply trimStart_fixed. exact Hc.
Qed.

Lemma trim_idempotent (s : jsstring) : trim (trim s) = trim s.
Proof.
  unfold trim. rewrite trimEnd_trimStart_stable.
  unfold trimEnd. rewrite rev_involutive, trimStart_idempotent. reflexivity.
Qed.

Lemma clean_name_trim (s : jsstring) : trim s <> [] -> clean_name (trim s).
Proof. intros H. split; [exact H | apply trim_idempotent]. Qed.

Lemma is_empty_false_inv (l : jsstring) : is_empty l = false -> l <> [].
Proof. destruct l; [discriminate | discriminate]. Qed.

Lemma addGoogleFont_cases (name_field link_field : jsstring) (w : World) :
  settings (addGoogleFont name_field link_field w) = settings w \/
  (trim name_field <> [] /\
   known (trim name_field) (settings w) = false /\
   startsWith (trim link_field) googleApiPrefix = true /\
   settings (addGoogleFont name_field link_field w)
   = push_google (mkGoogleFont (trim name_field) (trim link_field)) (settings w)).
Proof.
  unfold addGoogleFont, known.
  destruct (is_empty (trim name_field)) eqn:En; cbn [orb];
    [left; apply notify_settings|].
  destruct (is_empty (trim link_field)); [left; apply notify_settings|].
  destruct (some_named _ _ || some_named _ _);
    [left; apply notify_settings|].
  destruct (startsWith (trim link_field) googleApiPrefix) eqn:Hl; cbn [negb];
    [|left; apply notify_settings].
  right. split; [apply is_empty_false_inv; exact En|].
  split; [reflexivity|]. split; [reflexivity|]. world_simpl. reflexivity.
Qed.

Lemma handleLocalFontFile_started (file : option File) (name_field : jsstring) (w : World)
      (r : jsstring * File) :
  snd (handleLocalFontFile file name_field w) = Some r ->
  fst r = trim name_field /\ trim name_field <> [] /\
  known (trim name_field) (settings w) = false.
Proof.
  unfold handleLocalFontFile, known. destruct file as [f|]; [|discriminate].
  destruct (is_empty (trim name_field)) eqn:En; [discriminate|].
  destruct (some_named _ _ || some_named _ _); [discriminate|].
  cbn [snd]. intros H. injection H as <-.
  repeat split. apply is_empty_false_inv. exact En.
Qed.

Lemma Forall_filter_keep {A} (P : A -> Prop) (q : A -> bool) (l : list A) :
  Forall P l -> Forall P (filter q l).
Proof.
  intros H. apply Forall_forall. intros x Hx. apply filter_In in Hx as [Hx _].
  rewrite Forall_forall in H. auto.
Qed.

Lemma Forall_remove_nth {A} (P : A -> Prop) (k : nat) (l : list A) :
  Forall P l -> Forall P (remove_nth k l).
Proof.
  revert k. induction l as [|x l IH]; intros k H; destruct k; cbn [remove_nth];
    try constructor; inversion H; subst; auto.
Qed.

Lemma entries_clean_same_fonts (s s' : Settings) :
  fonts s' = fonts s -> entries_clean s -> entries_clean s'.
Proof. unfold entries_clean. intros ->. auto. Qed.

Lemma removeFont_entries_clean (fontName : jsstring) (w : World) :
  entries_clean (settings w) -> entries_clean (settings (removeFont fontName w)).
Proof.
  intros [Hg Hl]. rewrite removeFont_settings. cbv zeta.
  split; cbn [fonts google local]; apply Forall_filter_keep; assumption.
Qed.

Lemma removeFont_data_entries_clean (v : jsdata) (w : World) :
  entries_clean (settings w) -> entries_clean (settings (removeFont_data v w)).
Proof.
  intros Hc. destruct (jsdata_cases v) as [[n ->]|Hv];
    [apply removeFont_entries_clean; exact Hc|].
  destruct (@removeFont_data_not_string v w Hv) as (Hs & _). rewrite Hs. exact Hc.
Qed.

Lemma reader_complete_entries_clean (r : jsstring * File) (w : World) :
  clean_name (fst r) ->
  entries_clean (settings w) -> entries_clean (settings (reader_complete r w)).
Proof.
  intros Hr [Hg Hl]. destruct r as [n [result|]]; cbn [reader_complete].
  - rewrite reader_onload_settings. split; cbn [push_local with_fonts fonts google local].
    + exact Hg.
    + apply Forall_app. split; [exact Hl|]. constructor; [exact Hr | constructor].
  - destruct (reader_onerror_page w) as (Hs & _). rewrite Hs. split; assumption.
Qed.

Lemma step_page_clean (p : Page) (e : UIEvent) : page_clean p -> page_clean (step p e).
Proof.
  intros [Hc Hr]. destruct e; cbn [step].
  - split; [|exact Hr]. cbn [world with_world].
    destruct (addGoogleFont_cases name_field link_field (world p))
      as [E|(Hn & _ & Hl & E)]; rewrite E; [exact Hc|].
    destruct Hc as [Hg Hloc].
    split; cbn [push_google with_fonts fonts google local]; [|exact Hloc].
    apply Forall_app. split; [exact Hg|]. constructor; [|constructor].
    cbn [link]. split; [apply clean_name_trim; exact Hn|].
    split; [apply trim_idempotent | exact Hl].
  - destruct (local_font_file_change_page files name_field (world p)) as (Hs & _).
    pose proof (handleLocalFontFile_started
                  (option_map snd (hd_error files)) name_field (world p)) as Hst.
    unfold local_font_file_change in *.
    destruct (handleLocalFontFile (option_map snd (hd_error files)) name_field (world p))
      as [w1 started].
    cbn [fst snd] in *. split; cbn [world reads].
    + rewrite Hs. exact Hc.
    + unfold reads_clean in *. cbn [reads]. apply Forall_app. split; [exact Hr|].
      destruct started as [r|]; [|constructor].
      destruct (Hst r eq_refl) as (Hf & Hn & _).
      constructor; [|constructor]. rewrite Hf. apply clean_name_trim. exact Hn.
  - destruct (nth_error (reads p) k) as [r|] eqn:Hk; [|split; assumption].
    split; cbn [world reads].
    + apply reader_complete_entries_clean; [|exact Hc].
      unfold reads_clean in Hr. rewrite Forall_forall in Hr.
      apply Hr. apply (nth_error_In _ _ Hk).
    + unfold reads_clean in *. cbn [reads]. apply Forall_remove_nth. exact Hr.
  - split; [|exact Hr]. apply removeFont_data_entries_clean. exact Hc.
  - split; [|exact Hr]. cbn [world with_world].
    eapply entries_clean_same_fonts; [apply applyFont_fonts | exact Hc].
  - split; [|exact Hr]. exact Hc.
  - split; [|exact Hr]. cbn [world with_world]. unfold on_override_theme_font.
    eapply entries_clean_same_fonts; [apply applyFont_fonts|]. exact Hc.
  - split; [|exact Hr]. exact Hc.
  - destruct (timer p); [|split; assumption].
    split; [|exact Hr]. cbn [world]. unfold autoApply.
    eapply entries_clean_same_fonts; [apply applyFont_fonts | exact Hc].
Qed.

(** X21. The handlers only ever register clean entries: if every entry
    has a non-empty name without white space at either end, and every
    remote entry a trimmed link that starts with the Google Fonts API
    prefix, then this is still so after any sequence of user actions,
    read completions and timer firings, whatever was typed into the
    fields; the same holds of the names of the reads still pending. *)
Theorem run_keeps_entries_clean (p : Page) (events : list UIEvent) :
  page_clean p -> page_clean (run p events).
Proof.
  unfold run. revert p. induction events as [|e events IH]; intros p Hp; [exact Hp|].
  cbn [fold_left]. apply IH. apply step_page_clean. exact Hp.
Qed.

Lemma page5_clean : page_clean page5.
Proof.
  split; [split|]; repeat constructor; try discriminate.
Qed.

Lemma run_keeps_entries_clean_witness :
  entries_clean
    (settings (world (run page5
       [ClickAddGoogleFont (lit "  Roboto Mono ")
                           (lit " https://fonts.googleapis.com/css2?family=Roboto+Mono ");
        ClickAddGoogleFont (lit "   ") (link lato);
        ChangeLocalFontFile [(lit "mine.ttf", Readable (lit "data:,"))] (lit " Mine");
        ReadCompletes 0]))).
Proof.
  apply (run_keeps_entries_clean
           [ClickAddGoogleFont (lit "  Roboto Mono ")
                               (lit " https://fonts.googleapis.com/css2?family=Roboto+Mono ");
            ClickAddGoogleFont (lit "   ") (link lato);
            ChangeLocalFontFile [(lit "mine.ttf", Readable (lit "data:,"))] (lit " Mine");
            ReadCompletes 0] page5_clean).
Defined.

(** ** The active font is a registered font *)

Lemma active_known_grow (s s' : Settings) :
  activeFont s' = activeFont s ->
  (forall a, In a (all_names s) -> In a (all_names s')) ->
  active_known s -> active_known s'.
Proof. intros Ha Hin H a E. rewrite Ha in E. auto. Qed.

Lemma removeFont_active_known (fontName : jsstring) (w : World) :
  active_known (settings w) -> active_known (settings (removeFont fontName w)).
Proof.
  intros Hact a Ha. rewrite all_names_removeFont. apply filter_In.
  rewrite removeFont_settings in Ha. cbv zeta in Ha. cbn [activeFont] in Ha.
  destruct (activeFont (settings w)) as [b|] eqn:Hb; [|discriminate].
  destruct (strict_eq b fontName) eqn:Hne; [discriminate|].
  injection Ha as <-. split; [apply Hact; exact Hb | rewrite Hne; reflexivity].
Qed.

Lemma removeFont_data_active_known (v : jsdata) (w : World) :
  active_known (settings w) -> active_known (settings (removeFont_data v w)).
Proof.
  intros Hact. destruct (jsdata_cases v) as [[n ->]|Hv];
    [apply removeFont_active_known; exact Hact|].
  destruct (@removeFont_data_not_string v w Hv) as (Hs & _). rewrite Hs. exact Hact.
Qed.

Lemma applyFont_active_known (v : jsvalue) (w : World) :
  active_known (settings w) -> active_known (settings (applyFont v w)).
Proof.
  intros Hact. destruct (applyFont_settings v w) as [E|[n [Hk E]]]; rewrite E; [exact Hact|].
  intros a Ha. cbn in Ha. injection Ha as <-. apply known_In. exact Hk.
Qed.

Lemma reader_complete_active_known (r : jsstring * File) (w : World) :
  active_known (settings w) -> active_known (settings (reader_complete r w)).
Proof.
  intros Hact. destruct r as [n [result|]]; cbn [reader_complete].
  - rewrite reader_onload_settings. revert Hact.
    apply active_known_grow; [reflexivity|].
    intros a Ha. apply (Permutation_in _ (all_names_push_local _ _)). right. exact Ha.
  - destruct (reader_onerror_page w) as (Hs & _). rewrite Hs. exact Hact.
Qed.

Lemma step_active_known (p : Page) (e : UIEvent) :
  active_known (settings (world p)) -> active_known (settings (world (step p e))).
Proof.
  intros Hact. destruct e; cbn [step].
  - cbn [world with_world].
    destruct (addGoogleFont_settings name_field link_field (world p)) as [E|[_ E]];
      rewrite E; [exact Hact|].
    revert Hact. apply active_known_grow; [reflexivity|].
    intros a Ha. apply (Permutation_in _ (all_names_push_google _ _)). right. exact Ha.
  - destruct (local_font_file_change_page files name_field (world p)) as (Hs & _).
    destruct (local_font_file_change files name_field (world p)) as [w r].
    cbn [world fst] in *. rewrite Hs. exact Hact.
  - destruct (nth_error (reads p) k) as [r|]; [|exact Hact].
    apply reader_complete_active_known. exact Hact.
  - apply removeFont_data_active_known. exact Hact.
  - apply applyFont_active_known. exact Hact.
  - exact Hact.
  - cbn [world with_world]. unfold on_override_theme_font.
    apply applyFont_active_known. exact Hact.
  - exact Hact.
  - destruct (timer p); [|exact Hact]. apply applyFont_active_known. exact Hact.
Qed.

(** X22. The active font, when there is one, names a registered font
    after every sequence of user actions, read completions and timer
    firings, also when reads complete in another order than they were
    started: a font becomes active only if it is registered, and
    removing it clears it. *)
Theorem run_keeps_active_known (p : Page) (events : list UIEvent) :
  active_known (settings (world p)) ->
  active_known (settings (world (run p events))).
Proof.
  unfold run. revert p. induction events as [|e events IH]; intros p Hp; [exact Hp|].
  cbn [fold_left]. apply IH. apply step_active_known. exact Hp.
Qed.

Lemma page5_active_known : active_known (settings (world page5)).
Proof.
  intros a Ha. vm_compute in Ha. injection Ha as <-. vm_compute. auto.
Qed.

Unset Implicit Arguments.

Lemma run_keeps_active_known_witness :
  active_known
    (settings (world (run page5 [TimerFires; ClickApply (js_string (lit "Comic"));
                                 ClickDelete (data_string (lit "Comic"))]))).
Proof.
  exact (@run_keeps_active_known page5
           [TimerFires; ClickApply (js_string (lit "Comic")); ClickDelete (data_string (lit "Comic"))]
           page5_active_known).
Defined.

Set Implicit Arguments.

(** ** Toasts and saves, step by step *)

Lemma new_events_app (w w' : World) (evs : list Event) :
  trace w' = trace w ++ evs -> new_events w w' = evs.
Proof.
  intros H. unfold new_events. rewrite H.
  rewrite skipn_app, skipn_all, Nat.sub_diag. reflexivity.
Qed.

Lemma shown_quiet (s : Settings) (t : ToastType) (m : jsstring) :
  notifications s = false -> shown s t m = [].
Proof. intros H. unfold shown. rewrite H. reflexivity. Qed.

Lemma accounted_unchanged (w w' : World) (evs : list Event) :
  trace w' = trace w ++ evs ->
  settings w' = settings w ->
  (notifications (settings w) = false -> existsb is_toast evs = false) ->
  accounted w w'.
Proof.
  intros Ht Hs Hq. exists evs. split; [exact Ht|]. split; [exact Hq|].
  intros Hne. congruence.
Qed.

Lemma accounted_saved (w w' : World) (evs : list Event) :
  trace w' = trace w ++ evs ->
  In SaveSettings evs ->
  (notifications (settings w) = false -> existsb is_toast evs = false) ->
  accounted w w'.
Proof. intros Ht Hin Hq. exists evs. auto. Qed.

Lemma applyFont_accounted (v : jsvalue) (w : World) : accounted w (applyFont v w).
Proof.
  destruct v as [| |[|c s]];
    try (apply (@accounted_unchanged _ _ []); [symmetry; apply app_nil_r | reflexivity | reflexivity]).
  assert (Hne : c :: s <> []) by discriminate.
  destruct (known (c :: s) (settings w)) eqn:Hk.
  - destruct (overrideThemeFont (settings w)) eqn:Ho.
    + destruct (applyFont_override_on w Hne Hk Ho) as (_ & _ & Ht).
      eapply accounted_saved; [exact Ht | left; reflexivity |].
      intros Hq. rewrite (shown_quiet _ _ _ Hq). reflexivity.
    + destruct (applyFont_override_off w Hne Hk Ho) as (Hs & _ & Ht & _).
      apply (@accounted_unchanged _ _ []);
        [rewrite Ht; symmetry; apply app_nil_r | exact Hs | reflexivity].
  - rewrite (applyFont_unknown w Hne Hk).
    eapply accounted_unchanged; [apply notify_trace | apply notify_settings |].
    intros Hq. rewrite (shown_quiet _ _ _ Hq). reflexivity.
Qed.

Lemma addGoogleFont_accounted (name_field link_field : jsstring) (w : World) :
  accounted w (addGoogleFont name_field link_field w).
Proof.
  unfold addGoogleFont.
  assert (Hquiet : forall m, notifications (settings w) = false ->
                             existsb is_toast (shown (settings w) error m) = false)
    by (intros m Hq; rewrite (shown_quiet _ _ _ Hq); reflexivity).
  destruct (is_empty _ || is_empty _);
    [eapply accounted_unchanged; [apply notify_trace | apply notify_settings | apply Hquiet]|].
  destruct (some_named _ _ || some_named _ _);
    [eapply accounted_unchanged; [apply notify_trace | apply notify_settings | apply Hquiet]|].
  destruct (negb _);
    [eapply accounted_unchanged; [apply notify_trace | apply notify_settings | apply Hquiet]|].
  eapply accounted_saved.
  - world_simpl. rewrite <- !app_assoc. reflexivity.
  - left. reflexivity.
  - intros Hq. rewrite shown_quiet by exact Hq. reflexivity.
Qed.

Lemma local_font_file_change_accounted
      (files : list NamedFile) (name_field : jsstring) (w : World) :
  accounted w (fst (local_font_file_change files name_field w)).
Proof.
  unfold local_font_file_change, handleLocalFontFile, filenameListener.
  destruct (option_map snd (hd_error files)); cbn [fst].
  - destruct (is_empty (trim name_field)); cbn [fst].
    + eapply accounted_unchanged;
        [world_simpl; rewrite <- !app_assoc; reflexivity | world_simpl; reflexivity |].
      intros Hq. cbn [app existsb is_toast orb]. rewrite existsb_app.
      rewrite (shown_quiet _ _ _ Hq). reflexivity.
    + destruct (some_named _ _ || some_named _ _); cbn [fst].
      * eapply accounted_unchanged;
          [world_simpl; rewrite <- !app_assoc; reflexivity | world_simpl; reflexivity |].
        intros Hq. cbn [app existsb is_toast orb]. rewrite existsb_app.
        rewrite (shown_quiet _ _ _ Hq). reflexivity.
      * eapply accounted_unchanged; [reflexivity | reflexivity | reflexivity].
  - eapply accounted_unchanged; [reflexivity | reflexivity | reflexivity].
Qed.

Lemma reader_complete_accounted (r : jsstring * File) (w : World) :
  accounted w (reader_complete r w).
Proof.
  destruct r as [n [result|]]; cbn [reader_complete].
  - eapply accounted_saved; [apply reader_onload_trace | left; reflexivity |].
    intros Hq. rewrite (shown_quiet _ _ _ Hq). reflexivity.
  - destruct (reader_onerror_page w) as (Hs & _).
    eapply accounted_unchanged; [|exact Hs|].
    + unfold reader_onerror. world_simpl. rewrite <- app_assoc. reflexivity.
    + intros Hq. rewrite (shown_quiet _ _ _ Hq). reflexivity.
Qed.

Lemma removeFont_accounted (fontName : jsstring) (w : World) :
  accounted w (removeFont fontName w).
Proof.
  eapply accounted_saved; [apply removeFont_trace | left; reflexivity |].
  intros Hq. rewrite (shown_quiet _ _ _ Hq). reflexivity.
Qed.

Lemma removeFont_data_accounted (v : jsdata) (w : World) :
  accounted w (removeFont_data v w).
Proof.
  destruct (jsdata_cases v) as [[n ->]|Hv]; [apply removeFont_accounted|].
  destruct (@removeFont_data_not_string v w Hv) as (_ & _ & _ & Ht).
  eapply accounted_saved; [exact Ht | left; reflexivity |].
  intros Hq. rewrite (shown_quiet _ _ _ Hq). reflexivity.
Qed.

Lemma saved_then_accounted (w w1 w' : World) :
  trace w1 = trace w ++ [SaveSettings] ->
  notifications (settings w1) = notifications (settings w) ->
  accounted w1 w' -> accounted w w'.
Proof.
  intros Ht Hn (evs & Ht' & Hq & _).
  eapply (@accounted_saved _ _ (SaveSettings :: evs)).
  - rewrite Ht', Ht, <- app_assoc. reflexivity.
  - left. reflexivity.
  - intros Hoff. cbn [existsb is_toast orb]. apply Hq. rewrite Hn. exact Hoff.
Qed.

Lemma step_accounted (p : Page) (e : UIEvent) : accounted (world p) (world (step p e)).
Proof.
  destruct e; cbn [step].
  - apply addGoogleFont_accounted.
  - pose proof (local_font_file_change_accounted files name_field (world p)) as H.
    destruct (local_font_file_change files name_field (world p)) as [w r]. exact H.
  - destruct (nth_error (reads p) k) as [r|]; [apply reader_complete_accounted|].
    eapply (@accounted_unchanged _ _ []); [symmetry; apply app_nil_r | reflexivity | reflexivity].
  - apply removeFont_data_accounted.
  - apply applyFont_accounted.
  - eapply accounted_saved; [reflexivity | left; reflexivity | reflexivity].
  - cbn [world with_world]. unfold on_override_theme_font.
    eapply saved_then_accounted; [| |apply applyFont_accounted]; reflexivity.
  - eapply accounted_saved; [reflexivity | left; reflexivity | reflexivity].
  - destruct (timer p); [apply applyFont_accounted|].
    eapply (@accounted_unchanged _ _ []); [symmetry; apply app_nil_r | reflexivity | reflexivity].
Qed.

(** X23. With toasts switched off no handler shows any toast: among the
    calls a user action, a read completion or the timer adds to the
    trace there is no call to [toastr], be it for a success or for an
    error. *)
Theorem notifications_off_is_silent (p : Page) (e : UIEvent) :
  notifications (settings (world p)) = false ->
  existsb is_toast (new_events (world p) (world (step p e))) = false.
Proof.
  intros Hoff. destruct (step_accounted p e) as (evs & Ht & Hq & _).
  erewrite new_events_app by exact Ht. apply Hq. exact Hoff.
Qed.

Lemma notifications_off_is_silent_witness :
  existsb is_toast
    (new_events (world (step page5 (InputNotifications false)))
                (world (run page5 [InputNotifications false; ClickDelete (data_string (lit "Ghost"))])))
  = false.
Proof.
  exact (notifications_off_is_silent (step page5 (InputNotifications false))
           (ClickDelete (data_string (lit "Ghost"))) eq_refl).
Defined.

(** X24. Every change of the settings is followed by a save: whenever
    the settings after a user action, a read completion or the timer
    differ from those before, [saveSettingsDebounced] is among the calls
    that step made. *)
Theorem settings_change_is_saved (p : Page) (e : UIEvent) :
  settings (world (step p e)) <> settings (world p) ->
  In SaveSettings (new_events (world p) (world (step p e))).
Proof.
  intros Hne. destruct (step_accounted p e) as (evs & Ht & _ & Hs).
  erewrite new_events_app by exact Ht. apply Hs. exact Hne.
Qed.

Lemma settings_change_is_saved_witness :
  In SaveSettings
     (new_events (world page5) (world (step page5 (ClickDelete (data_string (lit "Comic")))))).
Proof.
  apply (settings_change_is_saved page5 (ClickDelete (data_string (lit "Comic")))).
  discriminate.
Defined.

(** ** The checkboxes *)

Lemma reader_complete_flags (r : jsstring * File) (w : World) :
  autoLoad (settings (reader_complete r w)) = autoLoad (settings w) /\
  overrideThemeFont (settings (reader_complete r w)) = overrideThemeFont (settings w) /\
  notifications (settings (reader_complete r w)) = notifications (settings w).
Proof.
  destruct r as [n [result|]]; cbn [reader_complete].
  - rewrite reader_onload_settings. repeat split.
  - destruct (reader_onerror_page w) as (Hs & _). rewrite Hs. repeat split.
Qed.

(** X25. Each of the three flags is what its checkbox last set it to:
    a change of a checkbox sets its own flag to the box's state and
    leaves the other two alone, and no other step (adding, removing or
    applying a font, a read completion, the timer) changes any flag. *)
Theorem flags_follow_their_checkboxes (p : Page) (e : UIEvent) :
  let s := settings (world p) in
  let s' := settings (world (step p e)) in
  autoLoad s' = match e with InputAutoLoad checked => checked | _ => autoLoad s end /\
  overrideThemeFont s'
  = match e with InputOverrideThemeFont checked => checked | _ => overrideThemeFont s end /\
  notifications s'
  = match e with InputNotifications checked => checked | _ => notifications s end.
Proof.
  cbv zeta. destruct e; cbn [step].
  - cbn [world with_world].
    destruct (addGoogleFont_settings name_field link_field (world p)) as [E|[_ E]];
      rewrite E; repeat split.
  - destruct (local_font_file_change_page files name_field (world p)) as (Hs & _).
    destruct (local_font_file_change files name_field (world p)) as [w r].
    cbn [world fst] in *. rewrite Hs. repeat split.
  - destruct (nth_error (reads p) k) as [r|]; [|repeat split].
    destruct (reader_complete_flags r (world p)) as (H1 & H2 & H3). repeat split; assumption.
  - cbn [world with_world]. apply removeFont_data_flags.
  - cbn [world with_world].
    destruct (applyFont_overrideThemeFont value (world p)) as (H1 & H2 & H3).
    repeat split; assumption.
  - repeat split.
  - cbn [world with_world]. unfold on_override_theme_font.
    match goal with |- context [applyFont ?v ?w] =>
      destruct (applyFont_overrideThemeFont v w) as (H1 & H2 & H3) end.
    rewrite H1, H2, H3. repeat split.
  - repeat split.
  - destruct (timer p); [|repeat split]. cbn [world]. unfold autoApply.
    match goal with |- context [applyFont ?v ?w] =>
      destruct (applyFont_overrideThemeFont v w) as (H1 & H2 & H3) end.
    repeat split; assumption.
Qed.

(** X26. The override checkbox saves its flag and then applies the
    active font again under the new flag.  With no active font nothing
    else happens.  With a registered active font, switching the
    override on writes the override style with its rule, and switching
    it off detaches the override style while the custom property stays
    set to that font; the active font is the same either way. *)
Theorem override_checkbox_reapplies (w : World) (checked : bool) :
  let w1 := saveSettingsDebounced
              (with_settings (mkSettings (fonts (settings w)) (activeFont (settings w))
                                         (autoLoad (settings w)) checked
                                         (notifications (settings w))) w) in
  let w' := on_override_theme_font checked w in
  (activeFont (settings w) = None -> w' = w1) /\
  (forall a,
     activeFont (settings w) = Some a -> a <> [] -> known a (settings w) = true ->
     doc_wf (document w) ->
     activeFont (settings w') = Some a /\
     custom_font_family (document w') = Some (fontFamilyValue a) /\
     (checked = true ->
      exists e, overrideStyle (document w') = Some e /\ innerHTML e = overrideRule) /\
     (checked = false -> override_unique (document w) ->
      overrideStyle (document w') = None)).
Proof.
  cbv zeta. unfold on_override_theme_font.
  set (w1 := saveSettingsDebounced _).
  split.
  - intros Ha. unfold activeFont_value. cbn [settings w1 saveSettingsDebounced emit
      with_settings activeFont]. rewrite Ha. reflexivity.
  - intros a Ha Hne Hk Hwf.
    assert (Ha1 : activeFont (settings w1) = Some a) by exact Ha.
    assert (Hk1 : known a (settings w1) = true) by exact Hk.
    assert (Hwf1 : doc_wf (document w1)) by exact Hwf.
    assert (Ho1 : overrideThemeFont (settings w1) = checked) by reflexivity.
    unfold activeFont_value. rewrite Ha1.
    destruct checked.
    + destruct (applyFont_override_on w1 Hne Hk1 Ho1) as (Hs & _).
      destruct (applyFont_override_on_document w1 Hwf1 Hne Hk1 Ho1)
        as (Hc & [e (He & _ & Hr)] & _).
      rewrite Hs. split; [reflexivity|]. split; [exact Hc|].
      split; [intros _; exists e; split; assumption | discriminate].
    + destruct (applyFont_override_off w1 Hne Hk1 Ho1) as (Hs & _).
      destruct (applyFont_override_off_document w1 Hwf1 Hne Hk1 Ho1) as (Hc & _ & Hnone & _).
      rewrite Hs. split; [exact Ha1|]. split; [exact Hc|].
      split; [discriminate|]. intros _ Hu.
      unfold overrideStyle. specialize (Hnone Hu).
      apply getElementById_None in Hnone. rewrite Hnone. reflexivity.
Qed.

Lemma override_checkbox_reapplies_witness :
  overrideStyle (document (on_override_theme_font false world3)) = None /\
  custom_font_family (document (on_override_theme_font false world3))
  = Some (fontFamilyValue (lit "Inter")).
Proof.
  destruct (override_checkbox_reapplies world3 false) as [_ H].
  assert (Hne : lit "Inter" <> []) by discriminate.
  destruct (H (lit "Inter") eq_refl Hne eq_refl world3_doc_wf) as (_ & Hc & _ & Hoff).
  split; [|exact Hc].
  apply Hoff; [reflexivity|]. unfold override_unique. vm_compute. lia.
Defined.
